(** * Reverse-mode gradient pass of nnvm ([src/pass/gradient.cc])

    A shallow embedding of [DefaultAggregateGradient] and of the pass
    [Gradient], with the properties of the pass stated and proved on it.

    Nodes live in an arena: a heap is a list of nodes and the address of a
    node is its position.  [Node::Create()] appends to the arena, so node
    identity (pointer equality in the C++ code) is equality of addresses. *)

From stdpp Require Import gmap strings list fin_maps.
From Stdlib Require Import ZArith.

(** ** Graph entry model *)

(** [NodePtr] is [std::shared_ptr<Node>]: [None] is [nullptr]. *)
Abbreviation NodePtr := (option nat).

(** [struct NodeEntry { NodePtr node; uint32_t index; uint32_t version; }] *)
Record NodeEntry := mkEntry { node : NodePtr; index : nat; version : nat }.

(** The part of [Node] the pass reads and writes: [attrs.op] ([None] is the
    null operator of a variable), [attrs.name], [inputs], [control_deps]. *)
Record Node := mkNode {
  op : option string;
  name : string;
  inputs : list NodeEntry;
  control_deps : list NodePtr
}.

Definition is_variable (n : Node) : bool :=
  match op n with None => true | Some _ => false end.

(** [Node::Create()]: a node with every field default-initialised. *)
Definition Node_Create : Node :=
  {| op := None; name := EmptyString; inputs := []; control_deps := [] |}.

Definition set_op (o : string) (n : Node) : Node :=
  {| op := Some o; name := name n; inputs := inputs n; control_deps := control_deps n |}.

Definition set_inputs (v : list NodeEntry) (n : Node) : Node :=
  {| op := op n; name := name n; inputs := v; control_deps := control_deps n |}.

(** What is left in a [NodeEntry] once it has been moved from: the
    [shared_ptr] is empty, the two integers are copied. *)
Definition moved (e : NodeEntry) : NodeEntry :=
  {| node := None; index := index e; version := version e |}.

(** ** Gradient aggregator *)

(** Outcome of one call of an aggregator on the vector [v] it receives by
    rvalue reference: the nodes it created (appended to the arena), the entry
    it returns and what it leaves behind in [v]. *)
Record AggOut := mkAggOut {
  agg_nodes : list Node;
  agg_ret : NodeEntry;
  agg_rest : list NodeEntry
}.

Definition AggFun := list Node -> list NodeEntry -> AggOut.

(** [DefaultAggregateGradient].  The branches are in the order of the source:
    size one, size zero, otherwise.  [Op::Get] is the operator's name; the
    source requires [__zero__] and [__ewise_sum__] to be registered.
    After [sum_node->inputs = std::move(v)] the vector [v] is empty. *)
Definition DefaultAggregateGradient : AggFun := fun h v =>
  match v with
  | [e] => {| agg_nodes := []; agg_ret := e; agg_rest := [moved e] |}
  | [] =>
      let zero_node := set_op "__zero__" Node_Create in
      {| agg_nodes := [zero_node];
         agg_ret := mkEntry (Some (length h)) 0 0;
         agg_rest := [] |}
  | _ =>
      let sum_node := set_inputs v (set_op "__ewise_sum__" Node_Create) in
      {| agg_nodes := [sum_node];
         agg_ret := mkEntry (Some (length h)) 0 0;
         agg_rest := [] |}
  end.

(** ** Failures *)

(** [CheckFailed]: a [CHECK] of dmlc failed (fatal).  [OutOfRange]: [at()]
    threw [std::out_of_range].  [Undefined]: the C++ code has undefined
    behaviour (indexing a vector past its end, dereferencing a pointer to
    no node). *)
Inductive Failure := CheckFailed (msg : string) | OutOfRange | Undefined.

Inductive Result (A : Type) := Ok (a : A) | Err (f : Failure).
Arguments Ok {A} a.
Arguments Err {A} f.

#[global] Instance Result_ret : MRet Result := fun A a => Ok a.
#[global] Instance Result_bind : MBind Result := fun A B k r =>
  match r with Ok a => k a | Err f => Err f end.

Definition CHECK (b : bool) (msg : string) : Result unit :=
  if b then Ok tt else Err (CheckFailed msg).

Fixpoint foldM {A B : Type} (f : A -> B -> Result A) (a : A) (l : list B) : Result A :=
  match l with
  | [] => Ok a
  | x :: l' => a' ← f a x; foldM f a' l'
  end.

(** ** The pass *)

(** [struct GradEntry { NodeEntry sum{nullptr, 0, 0}; std::vector<NodeEntry> grads; }] *)
Record GradEntry := mkGradEntry { sum : NodeEntry; grads : list NodeEntry }.

Definition new_GradEntry : GradEntry :=
  {| sum := mkEntry None 0 0; grads := [] |}.

(** Modelled from the spec: the gradient functions of the operator registry
    ([FGradient], declared in nnvm/op_attr_types.h) are not part of the
    source file.  A gradient function receives the forward node and the
    aggregated output gradients and returns one entry per input; it only adds
    nodes to the graph (spec, section 5), so it is given the arena to read
    and returns the nodes it creates together with its result. *)
Definition FGradient := list Node -> NodePtr -> list NodeEntry -> list Node * list NodeEntry.

(** [std::function<int (const Node& node)>] *)
Definition MirrorFun := Node -> Z.

(** The values stored in [Graph::attrs] that the pass reads. *)
Inductive Attr :=
| AEntries (v : list NodeEntry)
| AAggFun (f : AggFun)
| AMirrorFun (f : MirrorFun).

Record Graph := mkGraph { outputs : list NodeEntry; attrs : gmap string Attr }.

(** Ghost record of the calls made to the two callbacks; the pass never reads
    it.  [EvAgg a i]: the aggregator was called on slot [i] of node [a].
    [EvGrad p q]: the gradient function of node [p] was called with node
    argument [q]. *)
Inductive Event := EvAgg (a i : nat) | EvGrad (p : nat) (q : NodePtr).

(** The locals of [Gradient] that change during the pass. *)
Record St := mkSt {
  heap : list Node;
  output_grads : gmap nat (list GradEntry);
  mirror_map : gmap nat NodePtr;
  trace : list Event
}.

(** [*p] for a pointer held by the graph. *)
Definition deref (h : list Node) (a : nat) : Result Node :=
  match h !! a with Some n => Ok n | None => Err Undefined end.

(** [m.at(k)] of [std::unordered_map]. *)
Definition map_at {V : Type} (m : gmap nat V) (k : NodePtr) : Result V :=
  match k with
  | None => Err OutOfRange
  | Some a => match m !! a with Some v => Ok v | None => Err OutOfRange end
  end.

(** [output_grads[e.node.get()][e.index]]: [operator[]] of the map creates an
    empty vector for a key it does not hold, and indexing a vector at or past
    its size is undefined.  The null pointer is never a key with a non-empty
    vector, so it ends the same way. *)
Definition slot_at (og : gmap nat (list GradEntry)) (e : NodeEntry) : Result (nat * GradEntry) :=
  match node e with
  | None => Err Undefined
  | Some a =>
      match og !! a with
      | None => Err Undefined
      | Some vec =>
          match vec !! index e with
          | None => Err Undefined
          | Some ge => Ok (a, ge)
          end
      end
  end.

(** Write through the reference obtained by [slot_at]. *)
Definition slot_set (og : gmap nat (list GradEntry)) (a i : nat) (ge : GradEntry)
  : gmap nat (list GradEntry) :=
  alter (fun vec => <[i := ge]> vec) a og.

Definition GetAttr_entries (src : Graph) (k : string) : Result (list NodeEntry) :=
  match attrs src !! k with
  | Some (AEntries v) => Ok v
  | Some _ => Err (CheckFailed "bad any cast")
  | None => Err (CheckFailed "cannot find attribute")
  end.

Definition GetAttr_agg (src : Graph) (k : string) : Result AggFun :=
  match attrs src !! k with
  | Some (AAggFun f) => Ok f
  | Some _ => Err (CheckFailed "bad any cast")
  | None => Err (CheckFailed "cannot find attribute")
  end.

Definition GetAttr_mirror (src : Graph) (k : string) : Result MirrorFun :=
  match attrs src !! k with
  | Some (AMirrorFun f) => Ok f
  | Some _ => Err (CheckFailed "bad any cast")
  | None => Err (CheckFailed "cannot find attribute")
  end.

(** [attrs.count(k) != 0] *)
Definition has_attr (src : Graph) (k : string) : bool :=
  bool_decide (is_Some (attrs src !! k)).

(** The loop [for i < ys.size()] of seed initialisation, run after
    [CHECK_EQ(ys.size(), ys_out_grad.size())]: the two vectors are walked
    together and [grads] is assigned, not appended to. *)
Fixpoint init_seeds (ys ys_out_grad : list NodeEntry) (og : gmap nat (list GradEntry))
  : Result (gmap nat (list GradEntry)) :=
  match ys, ys_out_grad with
  | y :: ys', s :: seeds' =>
      '(a, ge) ← slot_at og y;
      init_seeds ys' seeds' (slot_set og a (index y) {| sum := sum ge; grads := [s] |})
  | _, _ => Ok og
  end.

(** The loop over the inputs of the node at [rit] with the iterator [git] into
    [input_grads]: [emplace_back] on the slot of each input entry.  Reading
    [*git] at the end of [input_grads] is undefined; entries of [input_grads]
    beyond the number of inputs are never read. *)
Fixpoint scatter (ins input_grads : list NodeEntry) (og : gmap nat (list GradEntry))
  : Result (gmap nat (list GradEntry)) :=
  match ins with
  | [] => Ok og
  | it :: ins' =>
      match input_grads with
      | [] => Err Undefined
      | g :: gs' =>
          '(a, ge) ← slot_at og it;
          scatter ins' gs' (slot_set og a (index it) {| sum := sum ge; grads := grads ge ++ [g] |})
      end
  end.

(** The loop [for (GradEntry& e : output_grads.at(ptr.get()))]: every slot of
    the node is aggregated, in order, the result is stored in [e.sum] and
    copied to [out_agg_grads]. *)
Fixpoint agg_entries (agg_fun : AggFun) (a i : nat) (vec : list GradEntry) (h : list Node)
  : list GradEntry * list NodeEntry * list Node * list Event :=
  match vec with
  | [] => ([], [], h, [])
  | e :: vec' =>
      let r := agg_fun h (grads e) in
      let '(vec'', outs, h', evs) := agg_entries agg_fun a (S i) vec' (h ++ agg_nodes r) in
      ({| sum := agg_ret r; grads := agg_rest r |} :: vec'', agg_ret r :: outs, h',
       EvAgg a i :: evs)
  end.

(** One iteration of the mirror loop.  The copy [*new_node = *n] keeps the
    operator, [attrs.name] gets the suffix, and every input and control
    dependency is redirected through [mirror_map.at]. *)
Definition mirror_step (mirror_fun : MirrorFun) (acc : list Node * gmap nat NodePtr) (a : nat)
  : Result (list Node * gmap nat NodePtr) :=
  let '(h, mm) := acc in
  n ← deref h a;
  if bool_decide (mirror_fun n ≠ 0%Z) then
    new_inputs ← mapM (M := Result)
      (fun e => m ← map_at mm (node e);
                mret {| node := m; index := index e; version := version e |}) (inputs n);
    new_deps ← mapM (M := Result) (fun p => map_at mm p) (control_deps n);
    let new_node :=
      {| op := op n; name := name n +:+ "_mirror";
         inputs := new_inputs; control_deps := new_deps |} in
    mret (h ++ [new_node], <[a := Some (length h)]> mm)
  else mret (h, <[a := Some a]> mm).

Section Pass.

(** [Node::num_outputs()], declared in nnvm/node.h. *)
Variable num_outputs : Node -> nat.

(** [DFSVisit], declared in nnvm/graph.h: the addresses of the nodes on
    which the callback is called, in call order. *)
Variable DFSVisit : list Node -> list NodeEntry -> list nat.

(** [Op::GetAttr<FGradient>("FGradient")]: the registered gradient
    functions, by operator. *)
Variable grad_fun_map : string -> option FGradient.

(** The callback given to [DFSVisit]; [topo_order] is the list of the
    addresses it was called on. *)
Definition visit (h : list Node) (og : gmap nat (list GradEntry)) (a : nat)
  : Result (gmap nat (list GradEntry)) :=
  match og !! a with
  | Some _ => Ok og
  | None => n ← deref h a; mret (<[a := replicate (num_outputs n) new_GradEntry]> og)
  end.

(** One iteration of the backward loop.  The registered function is looked
    up before its arguments are evaluated.  The inputs of the node are
    those read at the start of the iteration: gradient functions only add
    nodes. *)
Definition backward_step (agg_fun : AggFun) (st : St) (ptr : nat) : Result St :=
  n ← deref (heap st) ptr;
  if is_variable n then mret st else
  vec ← map_at (output_grads st) (Some ptr);
  let '(vec', out_agg_grads, h1, evs) := agg_entries agg_fun ptr 0 vec (heap st) in
  g ← match op n ≫= grad_fun_map with
      | Some g => Ok g
      | None => Err (CheckFailed "FGradient is not registered")
      end;
  q ← (if bool_decide (size (mirror_map st) = 0) then Ok (Some ptr)
       else map_at (mirror_map st) (Some ptr));
  let '(created, input_grads) := g h1 q out_agg_grads in
  og ← scatter (inputs n) input_grads (<[ptr := vec']> (output_grads st));
  mret {| heap := h1 ++ created; output_grads := og;
          mirror_map := mirror_map st;
          trace := trace st ++ evs ++ [EvGrad ptr q] |}.

(** One iteration of the loop over [xs]: aggregate if [entry.sum] holds no
    node, then move [entry.sum] into the outputs. *)
Definition take_out (agg_fun : AggFun) (acc : list NodeEntry * St) (e : NodeEntry)
  : Result (list NodeEntry * St) :=
  let '(outs, st) := acc in
  '(a, entry) ← slot_at (output_grads st) e;
  let '(entry1, h1, evs) :=
    match node (sum entry) with
    | None =>
        let r := agg_fun (heap st) (grads entry) in
        ({| sum := agg_ret r; grads := agg_rest r |}, heap st ++ agg_nodes r,
         [EvAgg a (index e)])
    | Some _ => (entry, heap st, [])
    end in
  mret (outs ++ [sum entry1],
        {| heap := h1;
           output_grads :=
             slot_set (output_grads st) a (index e)
               {| sum := moved (sum entry1); grads := grads entry1 |};
           mirror_map := mirror_map st;
           trace := trace st ++ evs |}).

(** [Gradient] from the topological sort on, given the attributes read
    from [src]. *)
Definition Gradient_body (agg_fun : AggFun) (mirror_fun : option MirrorFun)
    (ys ys_out_grad xs : list NodeEntry) (h : list Node) : Result (Graph * St) :=
  let topo_order := DFSVisit h ys in
  og ← foldM (visit h) ∅ topo_order;
  _ ← CHECK (bool_decide (length ys = length ys_out_grad))
        "Check failed: ys.size() == ys_out_grad.size()";
  og ← init_seeds ys ys_out_grad og;
  '(h1, mm) ← match mirror_fun with
              | Some f => foldM (mirror_step f) (h, ∅) topo_order
              | None => Ok (h, ∅)
              end;
  st ← foldM (backward_step agg_fun)
         {| heap := h1; output_grads := og; mirror_map := mm; trace := [] |}
         (rev topo_order);
  '(outs, st') ← foldM (take_out agg_fun) ([], st) xs;
  mret ({| outputs := outs; attrs := ∅ |}, st').

(** [Gradient], returning the graph together with the final value of the
    locals: the attributes are checked and read, then the body runs. *)
Definition Gradient_run (h : list Node) (src : Graph) : Result (Graph * St) :=
  _ ← CHECK (has_attr src "grad_ys") "Gradient require grad_ys to be presented.";
  _ ← CHECK (has_attr src "grad_ys_out_grad")
        "Gradient require grad_ys_out_grad to be presented.";
  _ ← CHECK (has_attr src "grad_xs") "Gradient require grad_xs to be presented.";
  ys ← GetAttr_entries src "grad_ys";
  ys_out_grad ← GetAttr_entries src "grad_ys_out_grad";
  xs ← GetAttr_entries src "grad_xs";
  agg_fun ← (if has_attr src "grad_aggregate_fun"
             then GetAttr_agg src "grad_aggregate_fun"
             else Ok DefaultAggregateGradient);
  mirror_fun ← (if has_attr src "grad_mirror_fun"
                then (f ← GetAttr_mirror src "grad_mirror_fun"; mret (Some f))
                else Ok None);
  Gradient_body agg_fun mirror_fun ys ys_out_grad xs h.

Definition Gradient (h : list Node) (src : Graph) : Result Graph :=
  r ← Gradient_run h src; mret r.1.

End Pass.

(** ** A depth-first visitor and small graphs to run the pass on *)

(** Modelled from the spec: [DFSVisit] (nnvm/graph.h) is not part of the
    source file.  Section 4.1: a single depth-first traversal from the
    requested outputs over input edges and control-dependency edges, every
    node once and after the nodes of its own inputs.  [acc] is the order
    built so far; [fuel] bounds the depth. *)
Fixpoint dfs_visit (fuel : nat) (h : list Node) (p : NodePtr) (acc : list nat) : list nat :=
  match fuel with
  | O => acc
  | S fuel' =>
      match p with
      | None => acc
      | Some a =>
          if bool_decide (a ∈ acc) then acc else
          match h !! a with
          | None => acc
          | Some n =>
              let acc1 := foldl (fun acc e => dfs_visit fuel' h (node e) acc) acc (inputs n) in
              let acc2 := foldl (fun acc q => dfs_visit fuel' h q acc) acc1 (control_deps n) in
              acc2 ++ [a]
          end
      end
  end.

Definition DFSVisit_model (h : list Node) (heads : list NodeEntry) : list nat :=
  foldl (fun acc e => dfs_visit (S (length h)) h (node e) acc) [] heads.

(** Every node of the examples has one output. *)
Definition one_output : Node -> nat := fun _ => 1.

Module Examples.

Definition var (s : string) : Node :=
  {| op := None; name := s; inputs := []; control_deps := [] |}.

Definition app (o s : string) (ins : list NodeEntry) : Node :=
  {| op := Some o; name := s; inputs := ins; control_deps := [] |}.

Definition out0 (a : nat) : NodeEntry := mkEntry (Some a) 0 0.

(** A gradient function that creates, for each input of the forward node,
    one node of operator [o_grad] reading the output gradients, and returns
    the outputs of these nodes. *)
Definition grad_nodes (o : string) : FGradient := fun h q ogs =>
  let k := match q ≫= (fun a => h !! a) with Some n => length (inputs n) | None => 0 end in
  (replicate k (app (o +:+ "_grad") "g" ogs),
   (fun i => out0 (length h + i)) <$> seq 0 k).

(** A gradient function that returns one entry more than the node has
    inputs. *)
Definition grad_surplus (o : string) : FGradient := fun h q ogs =>
  let '(created, r) := grad_nodes o h q ogs in (created, r ++ ogs).

Definition registry (o : string) : option FGradient :=
  if bool_decide (o = "surplus") then Some (grad_surplus o) else Some (grad_nodes o).

(** The registry holding [Gf], [Gg] and [Gy] for the operators [f], [g]
    and [y]. *)
Definition registry3 (Gf Gg Gy : FGradient) (o : string) : option FGradient :=
  if bool_decide (o = "f") then Some Gf
  else if bool_decide (o = "g") then Some Gg
  else if bool_decide (o = "y") then Some Gy
  else None.

Definition bundle (ys seeds xs : list NodeEntry) : gmap string Attr :=
  <["grad_ys" := AEntries ys]>
    (<["grad_ys_out_grad" := AEntries seeds]>
       (<["grad_xs" := AEntries xs]> ∅)).

(** A mirror policy that asks for every node to be recomputed. *)
Definition mirror_all : MirrorFun := fun _ => 1%Z.

Definition bundle_mirror (f : MirrorFun) (ys seeds xs : list NodeEntry) : gmap string Attr :=
  <["grad_mirror_fun" := AMirrorFun f]> (bundle ys seeds xs).

Definition run (h : list Node) (a : gmap string Attr) : Result (Graph * St) :=
  Gradient_run one_output DFSVisit_model registry h {| outputs := []; attrs := a |}.

(** [x -> f -> y] with the seed held by a variable [s]:
    0 = x, 1 = f(x), 2 = s. *)
Definition chain : list Node :=
  [var "x"; app "f" "f" [out0 0]; var "s"].

(** The diamond: 0 = x, 1 = f(x), 2 = g(x), 3 = y(f, g), 4 = s. *)
Definition diamond : list Node :=
  [var "x"; app "f" "f" [out0 0]; app "g" "g" [out0 0];
   app "y" "y" [out0 1; out0 2]; var "s"].

(** [x] is not an ancestor of [f]: 0 = x, 1 = w, 2 = f(w), 3 = s. *)
Definition apart : list Node :=
  [var "x"; var "w"; app "f" "f" [out0 1]; var "s"].

(** The chain with an operator whose gradient function returns two entries
    for its single input: 0 = x, 1 = surplus(x), 2 = s. *)
Definition surplus_chain : list Node :=
  [var "x"; app "surplus" "f" [out0 0]; var "s"].

End Examples.

Import Examples.

#[global] Instance NodeEntry_eq_dec : EqDecision NodeEntry.
Proof. solve_decision. Defined.

#[global] Instance Event_eq_dec : EqDecision Event.
Proof. solve_decision. Defined.

(** The number of calls of the aggregator on slot [i] of node [a] that a
    trace records. *)
Definition agg_calls (a i : nat) (t : list Event) : nat :=
  length (filter (fun ev => ev = EvAgg a i) t).

(** [src] with the attribute [grad_mirror_fun] set to [f]. *)
Definition with_mirror (f : MirrorFun) (src : Graph) : Graph :=
  {| outputs := outputs src;
     attrs := <["grad_mirror_fun" := AMirrorFun f]> (attrs src) |}.

(** [src] without the attribute [grad_mirror_fun]. *)
Definition without_mirror (src : Graph) : Graph :=
  {| outputs := outputs src; attrs := delete "grad_mirror_fun" (attrs src) |}.

Definition set_mirror_map (mm : gmap nat NodePtr) (st : St) : St :=
  {| heap := heap st; output_grads := output_grads st; mirror_map := mm; trace := trace st |}.

Definition Result_map {A B : Type} (f : A -> B) (r : Result A) : Result B :=
  match r with Ok a => Ok (f a) | Err e => Err e end.

(** A run without the mirror map: the returned graph, the arena, the
    pending-gradient table and the calls made. *)
Definition forget_mirror (r : Result (Graph * St))
  : Result (Graph * list Node * gmap nat (list GradEntry) * list Event) :=
  Result_map (fun '(g, st) => (g, heap st, output_grads st, trace st)) r.

(** ** Renaming node addresses *)

(** The addresses of the nodes of a source arena of size [n0] are kept,
    every later address is shifted by [k]: the correspondence between the
    nodes a run creates from an arena [h0] and the nodes the same run
    creates when [k] more nodes were allocated first. *)
Section Renaming.

Variables n0 k : nat.

Definition ren (a : nat) : nat := if decide (a < n0) then a else a + k.

Definition renP (p : NodePtr) : NodePtr := ren <$> p.

Definition renE (e : NodeEntry) : NodeEntry :=
  {| node := renP (node e); index := index e; version := version e |}.

Definition renN (n : Node) : Node :=
  {| op := op n; name := name n;
     inputs := renE <$> inputs n; control_deps := renP <$> control_deps n |}.

Definition renG (ge : GradEntry) : GradEntry :=
  {| sum := renE (sum ge); grads := renE <$> grads ge |}.

Definition renEv (ev : Event) : Event :=
  match ev with
  | EvAgg a i => EvAgg a i
  | EvGrad p q => EvGrad p (renP q)
  end.

Definition renOG (og : gmap nat (list GradEntry)) : gmap nat (list GradEntry) :=
  fmap (M := gmap nat) (fmap (M := list) renG) og.

Definition renA (r : AggOut) : AggOut :=
  {| agg_nodes := renN <$> agg_nodes r; agg_ret := renE (agg_ret r);
     agg_rest := renE <$> agg_rest r |}.

End Renaming.

(** The arena [h1] of a run started from [h0] and the arena [h2] of the run
    started from [h0 ++ pad] at the same point: the created nodes correspond
    under the renaming. *)
Definition heap_rel (h0 pad h1 h2 : list Node) : Prop :=
  exists created,
    h1 = h0 ++ created /\
    h2 = h0 ++ pad ++ (renN (length h0) (length pad) <$> created).

(** A gradient function does not depend on the addresses of the nodes
    created after the source graph. *)
Definition FGradient_equivariant (h0 pad : list Node) (G : FGradient) : Prop :=
  forall h1 h2 q ogs,
    heap_rel h0 pad h1 h2 ->
    G h2 (renP (length h0) (length pad) q) (renE (length h0) (length pad) <$> ogs) =
    (renN (length h0) (length pad) <$> (G h1 q ogs).1,
     renE (length h0) (length pad) <$> (G h1 q ogs).2).

(** The same for an aggregator. *)
Definition AggFun_equivariant (h0 pad : list Node) (A : AggFun) : Prop :=
  forall h1 h2 v,
    heap_rel h0 pad h1 h2 ->
    A h2 (renE (length h0) (length pad) <$> v) =
    renA (length h0) (length pad) (A h1 v).

(** The operator-kind shape of the expression an entry denotes: the tree of
    operators and output indices reached through the inputs, cut at depth
    [fuel]. *)
Inductive Shape :=
| SNull
| SDangling
| SCut
| SNode (o : option string) (i : nat) (args : list Shape).

Fixpoint shape (fuel : nat) (h : list Node) (e : NodeEntry) : Shape :=
  match fuel with
  | O => SCut
  | S fuel' =>
      match node e with
      | None => SNull
      | Some a =>
          match h !! a with
          | None => SDangling
          | Some n => SNode (op n) (index e) (shape fuel' h <$> inputs n)
          end
      end
  end.

(** An entry that is null or refers to a node of the arena [h]. *)
Definition entry_in (h : list Node) (e : NodeEntry) : Prop :=
  forall a, node e = Some a -> a < length h.

(** Every input of every node of the arena refers to a node of the arena. *)
Definition source_closed (h : list Node) : Prop :=
  Forall (fun n => Forall (entry_in h) (inputs n)) h.

(** Corresponding states of the two runs. *)
Definition St_rel (h0 pad : list Node) (st1 st2 : St) : Prop :=
  heap_rel h0 pad (heap st1) (heap st2) /\
  output_grads st2 = renOG (length h0) (length pad) (output_grads st1) /\
  mirror_map st2 = renP (length h0) (length pad) <$> mirror_map st1 /\
  trace st2 = renEv (length h0) (length pad) <$> trace st1.

(** The key of the pending-gradient slot an entry refers to. *)
Definition slot_key (e : NodeEntry) : NodePtr * nat := (node e, index e).

(** The contributions a list of (input entry, gradient) pairs holds for the
    slot [k], in order. *)
Fixpoint contributions (k : NodePtr * nat) (ins input_grads : list NodeEntry) : list NodeEntry :=
  match ins, input_grads with
  | it :: ins', g :: gs' =>
      (if decide (slot_key it = k) then [g] else []) ++ contributions k ins' gs'
  | _, _ => []
  end.

(** What the mirror loop maintains, [h0] being the arena the pass starts
    from: the arena only grows, and a node is mapped to itself or to a
    node created by the loop that copies its operator and carries the
    suffixed name. *)
Definition mirror_inv (h0 : list Node) (acc : list Node * gmap nat NodePtr) : Prop :=
  (exists created, acc.1 = h0 ++ created) /\
  forall a q, acc.2 !! a = Some q ->
    a < length h0 /\
    (q = Some a \/
     exists m n n', q = Some m /\ length h0 <= m /\
       h0 !! a = Some n /\ acc.1 !! m = Some n' /\
       op n' = op n /\ name n' = name n +:+ "_mirror").

(** Corresponding accumulators of the mirror loop in the two runs. *)
Definition mirror_rel (h0 pad : list Node) (acc1 acc2 : list Node * gmap nat NodePtr) : Prop :=
  heap_rel h0 pad acc1.1 acc2.1 /\
  acc2.2 = renP (length h0) (length pad) <$> acc1.2.

(** The node argument the backward loop gives to the gradient function of
    the node [p]: the node itself when the mirror map is empty, what the
    map holds for it otherwise. *)
Definition gradient_arg (mm : gmap nat NodePtr) (p : nat) : NodePtr :=
  if bool_decide (size mm = 0) then Some p else default None (mm !! p).

(** The calls one iteration of the backward loop makes for the node [p] of
    the arena [h]: none for a variable, otherwise the aggregation of every
    output slot in order, then the gradient function. *)
Definition backward_events (num_outputs : Node -> nat) (h : list Node)
    (mm : gmap nat NodePtr) (p : nat) : list Event :=
  match h !! p with
  | Some n =>
      if is_variable n then []
      else (EvAgg p <$> seq 0 (num_outputs n)) ++ [EvGrad p (gradient_arg mm p)]
  | None => []
  end.

(** What holds between the iterations of the backward loop started from the
    source arena [h0]: the arena extends [h0] and every vector has as many
    slots as its node has outputs. *)
Definition backward_inv (num_outputs : Node -> nat) (h0 : list Node) (st : St) : Prop :=
  (exists created, heap st = h0 ++ created) /\
  forall a len, (length <$> output_grads st) !! a = Some len ->
    exists n, h0 !! a = Some n /\ len = num_outputs n.

(** What the mirror map [mm] holds for the pointer [p]; null when [p] is
    null or no key. *)
Definition mirror_get (mm : gmap nat NodePtr) (p : NodePtr) : NodePtr :=
  default None (p ≫= (fun b => mm !! b)).

(** The copy of [n] the mirror loop builds when the map is [mm]: same
    operator, suffixed name, every input and control dependency redirected
    through the map. *)
Definition mirror_of (mm : gmap nat NodePtr) (n : Node) : Node :=
  {| op := op n; name := name n +:+ "_mirror";
     inputs := (fun e => {| node := mirror_get mm (node e); index := index e;
                            version := version e |}) <$> inputs n;
     control_deps := mirror_get mm <$> control_deps n |}.

(** The pointers a node reads are keys of [mm]. *)
Definition mirror_ready (mm : gmap nat NodePtr) (n : Node) : Prop :=
  Forall (fun e => exists b, node e = Some b /\ is_Some (mm !! b)) (inputs n) /\
  Forall (fun p => exists b, p = Some b /\ is_Some (mm !! b)) (control_deps n).

(** A visit order in which every node comes after the nodes its inputs and
    control dependencies refer to, none of them null; [seen] lists the
    nodes already passed. *)
Fixpoint topo_ordered (h : list Node) (seen l : list nat) : bool :=
  match l with
  | [] => true
  | a :: l' =>
      match h !! a with
      | Some n =>
          forallb (fun e => match node e with
                            | Some b => bool_decide (b ∈ seen)
                            | None => false
                            end) (inputs n) &&
          forallb (fun p => match p with
                            | Some b => bool_decide (b ∈ seen)
                            | None => false
                            end) (control_deps n)
      | None => true
      end && topo_ordered h (seen ++ [a]) l'
  end.

(** The slot of [x] holds no contribution, and its aggregated field is
    still null or already the output of a [__zero__] node created since
    the pass started on the arena [h0]. *)
Definition zero_slot (h0 : list Node) (st : St) (x : NodeEntry) : Prop :=
  exists a ge, slot_at (output_grads st) x = Ok (a, ge) /\ grads ge = [] /\
    (node (sum ge) = None \/
     exists m, sum ge = mkEntry (Some m) 0 0 /\ length h0 <= m /\
       heap st !! m = Some (set_op "__zero__" Node_Create)).

(** [x] is reached from [f] by a control dependency only:
    0 = x, 1 = w, 2 = f(w) after x, 3 = s. *)
Definition guarded : list Node :=
  [var "x"; var "w";
   {| op := Some "f"; name := "f"; inputs := [out0 1]; control_deps := [Some 0] |};
   var "s"].

(** * Properties *)

(** ** Slots *)

Lemma slot_at_inv og e a ge :
  slot_at og e = Ok (a, ge) ->
  node e = Some a /\ exists vec, og !! a = Some vec /\ vec !! index e = Some ge.
Proof.
  unfold slot_at. destruct (node e) as [b|]; [|done].
  destruct (og !! b) as [vec|] eqn:Hb; [|done].
  destruct (vec !! index e) as [ge'|] eqn:Hi; [|done].
  intros [= <- <-]. eauto.
Qed.

Lemma slot_at_intro og e a vec ge :
  node e = Some a -> og !! a = Some vec -> vec !! index e = Some ge ->
  slot_at og e = Ok (a, ge).
Proof. unfold slot_at. by intros -> -> ->. Qed.

Lemma slot_set_lookup og a i ge b :
  slot_set og a i ge !! b =
  if decide (a = b) then (fun vec => <[i := ge]> vec) <$> og !! b else og !! b.
Proof.
  unfold slot_set. destruct (decide (a = b)) as [->|Hne].
  - by rewrite lookup_alter_eq.
  - by rewrite lookup_alter_ne.
Qed.

Lemma slot_at_set_same og e e' a ge ge' :
  slot_at og e = Ok (a, ge) -> slot_key e' = slot_key e ->
  slot_at (slot_set og a (index e) ge') e' = Ok (a, ge').
Proof.
  intros (Hn & vec & Hv & Hi)%slot_at_inv [= Hn' Hi'].
  apply slot_at_intro with (vec := <[index e := ge']> vec).
  - congruence.
  - rewrite slot_set_lookup, decide_True by done. by rewrite Hv.
  - rewrite Hi'. apply list_lookup_insert_eq. by eapply lookup_lt_Some.
Qed.

Lemma slot_at_set_other og e' a i ge' :
  slot_key e' <> (Some a, i) ->
  slot_at (slot_set og a i ge') e' = slot_at og e'.
Proof.
  intros Hne. unfold slot_at. destruct (node e') as [b|] eqn:Hb; [|done].
  rewrite slot_set_lookup. destruct (decide (a = b)) as [->|]; [|done].
  destruct (og !! b) as [vec|]; [|done]. simpl.
  rewrite list_lookup_insert_ne; [done|].
  intros ->. apply Hne. unfold slot_key. by rewrite Hb.
Qed.

Lemma slot_set_dom og a i ge : dom (slot_set og a i ge) = dom og.
Proof. unfold slot_set. apply dom_alter_L. Qed.

(** ** The default aggregator *)

(** C1: on the empty list the default aggregator returns output 0 of a
    freshly created [__zero__] node (a reference to a node, not a null
    entry); on a one-element list it returns that element and creates no
    node; on two or more elements it returns output 0 of a freshly created
    [__ewise_sum__] node whose inputs are the list, in the given order. *)
Theorem DefaultAggregateGradient_cases (h : list Node) (v : list NodeEntry) :
  let r := DefaultAggregateGradient h v in
  match v with
  | [] =>
      agg_ret r = mkEntry (Some (length h)) 0 0 /\ node (agg_ret r) <> None /\
      h !! length h = None /\
      (h ++ agg_nodes r) !! length h = Some (mkNode (Some "__zero__") "" [] []) /\
      length (agg_nodes r) = 1
  | [e] => agg_ret r = e /\ agg_nodes r = []
  | _ :: _ :: _ =>
      agg_ret r = mkEntry (Some (length h)) 0 0 /\
      h !! length h = None /\
      (h ++ agg_nodes r) !! length h = Some (mkNode (Some "__ewise_sum__") "" v []) /\
      length (agg_nodes r) = 1
  end.
Proof.
  destruct v as [|e [|e' v']]; simpl.
  - repeat split; [done| |].
    + apply lookup_ge_None. lia.
    + rewrite lookup_app_r, Nat.sub_diag by lia. done.
  - done.
  - repeat split.
    + apply lookup_ge_None. lia.
    + rewrite lookup_app_r, Nat.sub_diag by lia. done.
Qed.

(** ** Seed initialisation *)

Lemma init_seeds_total ys : forall seeds og,
  Forall (fun y => exists r, slot_at og y = Ok r) ys ->
  exists og', init_seeds ys seeds og = Ok og' /\
    dom og' = dom og /\
    (forall e, (exists r, slot_at og e = Ok r) -> exists r, slot_at og' e = Ok r) /\
    (forall e, slot_key e ∉ slot_key <$> take (length seeds) ys -> slot_at og' e = slot_at og e).
Proof.
  induction ys as [|y ys IH]; intros seeds og Hall.
  - exists og. simpl. by destruct seeds.
  - destruct seeds as [|s seeds]; [exists og; done|].
    apply Forall_cons in Hall as [[[a ge] Hy] Hall]. simpl. rewrite Hy. simpl.
    destruct (slot_at_inv _ _ _ _ Hy) as (Hn & _).
    set (og1 := slot_set og a (index y) _).
    assert (Hpres : forall e, (exists r, slot_at og e = Ok r) -> exists r, slot_at og1 e = Ok r).
    { intros e [r Hr]. destruct (decide (slot_key e = slot_key y)) as [Heq|Hne].
      - eexists. subst og1. by eapply slot_at_set_same.
      - exists r. subst og1. rewrite slot_at_set_other; [done|].
        unfold slot_key in *. by rewrite <- Hn. }
    destruct (IH seeds og1) as (og' & Hrun & Hdom & Hok & Hframe).
    { eapply Forall_impl; [exact Hall|]. intros e He. by apply Hpres. }
    exists og'. split; [done|]. split; [|split].
    + rewrite Hdom. apply slot_set_dom.
    + intros e He. by apply Hok, Hpres.
    + intros e He. simpl in He. rewrite not_elem_of_cons in He. destruct He as [He1 He2].
      rewrite Hframe by done. subst og1. apply slot_at_set_other.
      unfold slot_key in *. by rewrite <- Hn.
Qed.

Lemma init_seeds_last ys : forall seeds og j y s,
  length ys = length seeds ->
  Forall (fun y => exists r, slot_at og y = Ok r) ys ->
  ys !! j = Some y -> seeds !! j = Some s ->
  (forall k y', j < k -> ys !! k = Some y' -> slot_key y' <> slot_key y) ->
  exists og' a ge, init_seeds ys seeds og = Ok og' /\
    slot_at og' y = Ok (a, ge) /\ grads ge = [s].
Proof.
  induction ys as [|y0 ys IH]; intros seeds og j y s Hlen Hall Hy Hs Hlast; [done|].
  destruct seeds as [|s0 seeds]; [done|].
  apply Forall_cons in Hall as [[[a ge] Hy0] Hall]. simpl. rewrite Hy0. simpl.
  destruct (slot_at_inv _ _ _ _ Hy0) as (Hn & _).
  set (og1 := slot_set og a (index y0) _).
  assert (Hpres : Forall (fun y => exists r, slot_at og1 y = Ok r) ys).
  { eapply Forall_impl; [exact Hall|]. intros e [r Hr].
    destruct (decide (slot_key e = slot_key y0)) as [Heq|Hne].
    - eexists. subst og1. by eapply slot_at_set_same.
    - exists r. subst og1. rewrite slot_at_set_other; [done|].
      unfold slot_key in *. by rewrite <- Hn. }
  destruct j as [|j]; simpl in Hy, Hs.
  - injection Hy as ->. injection Hs as ->.
    destruct (init_seeds_total ys seeds og1 Hpres) as (og' & Hrun & _ & _ & Hframe).
    exists og', a, {| sum := sum ge; grads := [s] |}. split; [done|]. split; [|done].
    rewrite Hframe.
    + subst og1. by eapply slot_at_set_same.
    + intros (y' & Hk & Hin)%list_elem_of_fmap.
      apply list_elem_of_lookup in Hin as [k Hk'].
      apply lookup_take_Some in Hk' as [Hk' _].
      eapply (Hlast (S k) y'); [lia|done|done].
  - injection Hlen as Hlen.
    apply (IH seeds og1 j y s Hlen Hpres Hy Hs).
    intros k y' Hlt Hk. apply (Hlast (S k) y'); [lia|done].
Qed.

(** C9: when the same (node, output index) occurs in [grad_ys] at positions
    [i < j] and [j] is its last occurrence, seed initialisation succeeds and
    leaves in the slot the one-element list made of [ys_out_grad[j]]: the
    assignment at [j] replaced what the assignment at [i] had stored. *)
Theorem init_seeds_duplicate_overwrites
    (ys seeds : list NodeEntry) (og : gmap nat (list GradEntry))
    (i j : nat) (yi yj s : NodeEntry) :
  length ys = length seeds ->
  Forall (fun y => exists r, slot_at og y = Ok r) ys ->
  i < j -> ys !! i = Some yi -> ys !! j = Some yj -> slot_key yi = slot_key yj ->
  seeds !! j = Some s ->
  (forall k y', j < k -> ys !! k = Some y' -> slot_key y' <> slot_key yj) ->
  exists og' a ge, init_seeds ys seeds og = Ok og' /\
    slot_at og' yi = Ok (a, ge) /\ slot_at og' yj = Ok (a, ge) /\ grads ge = [s].
Proof.
  intros Hlen Hall Hij Hi Hj Hkey Hs Hlast.
  destruct (init_seeds_last ys seeds og j yj s Hlen Hall Hj Hs Hlast)
    as (og' & a & ge & Hrun & Hslot & Hg).
  exists og', a, ge. repeat split; try done.
  destruct (slot_at_inv _ _ _ _ Hslot) as (Hn & vec & Hv & Hidx).
  injection Hkey as Hn' Hi'.
  apply slot_at_intro with (vec := vec); congruence.
Qed.

Lemma init_seeds_duplicate_overwrites_witness :
  exists og' a ge,
    init_seeds [out0 1; out0 1] [out0 2; out0 0] {[1 := [new_GradEntry]]} = Ok og' /\
    slot_at og' (out0 1) = Ok (a, ge) /\ slot_at og' (out0 1) = Ok (a, ge) /\
    grads ge = [out0 0].
Proof.
  apply (init_seeds_duplicate_overwrites
           [out0 1; out0 1] [out0 2; out0 0] {[1 := [new_GradEntry]]}
           0 1 (out0 1) (out0 1) (out0 0)).
  - reflexivity.
  - repeat constructor; eexists; vm_compute; reflexivity.
  - lia.
  - reflexivity.
  - reflexivity.
  - reflexivity.
  - reflexivity.
  - intros [|[|k]] y' Hlt Hk; [lia|lia|discriminate Hk].
Defined.

(** ** Scatter *)

Lemma scatter_appends ins : forall input_grads og og',
  scatter ins input_grads og = Ok og' ->
  dom og' = dom og /\
  forall e a ge, slot_at og e = Ok (a, ge) ->
    slot_at og' e =
      Ok (a, {| sum := sum ge; grads := grads ge ++ contributions (slot_key e) ins input_grads |}).
Proof.
  induction ins as [|it ins IH]; intros gs og og' Hrun.
  - injection Hrun as <-. split; [done|]. intros e a [sm gr] He. simpl.
    by rewrite app_nil_r.
  - destruct gs as [|g gs]; [done|]. simpl in Hrun.
    destruct (slot_at og it) as [[b gb]|] eqn:Hit; [|done]. simpl in Hrun.
    apply IH in Hrun as [Hdom Hrun]. split; [by rewrite Hdom, slot_set_dom|].
    destruct (slot_at_inv _ _ _ _ Hit) as (Hn & _).
    intros e a ge He. simpl. destruct (decide (slot_key it = slot_key e)) as [Heq|Hne].
    + assert (slot_at og e = Ok (b, gb)) as He'.
      { destruct (slot_at_inv _ _ _ _ Hit) as (_ & vec & Hv & Hi).
        injection Heq as Hq Hq'. apply slot_at_intro with (vec := vec); congruence. }
      rewrite He' in He. injection He as -> ->.
      erewrite Hrun; [|by eapply slot_at_set_same]. simpl.
      by rewrite <- app_assoc.
    + erewrite Hrun.
      2:{ rewrite slot_at_set_other; [done|]. unfold slot_key in *. rewrite <- Hn. congruence. }
      done.
Qed.

(** ** Evaluation of the pass on an attribute bundle *)

Section Eval.

Variable num_outputs : Node -> nat.
Variable DFSVisit : list Node -> list NodeEntry -> list nat.
Variable grad_fun_map : string -> option FGradient.

Lemma Gradient_run_bundle h o ys seeds xs :
  Gradient_run num_outputs DFSVisit grad_fun_map h
    {| outputs := o; attrs := bundle ys seeds xs |} =
  Gradient_body num_outputs DFSVisit grad_fun_map
    DefaultAggregateGradient None ys seeds xs h.
Proof. reflexivity. Qed.

Lemma backward_step_variable agg_fun st ptr n :
  heap st !! ptr = Some n -> op n = None ->
  backward_step grad_fun_map agg_fun st ptr = Ok st.
Proof.
  intros Hn Hop. unfold backward_step, deref, is_variable. rewrite Hn. simpl.
  by rewrite Hop.
Qed.

Lemma backward_step_eval agg_fun st ptr n o G vec vec' ogs h1 evs created igs og' :
  heap st !! ptr = Some n -> op n = Some o -> grad_fun_map o = Some G ->
  output_grads st !! ptr = Some vec ->
  agg_entries agg_fun ptr 0 vec (heap st) = (vec', ogs, h1, evs) ->
  mirror_map st = ∅ ->
  G h1 (Some ptr) ogs = (created, igs) ->
  scatter (inputs n) igs (<[ptr := vec']> (output_grads st)) = Ok og' ->
  backward_step grad_fun_map agg_fun st ptr =
  Ok {| heap := h1 ++ created; output_grads := og'; mirror_map := ∅;
        trace := trace st ++ evs ++ [EvGrad ptr (Some ptr)] |}.
Proof.
  intros Hn Hop HG Hvec Hagg Hmm Hcall Hsc.
  unfold backward_step, deref, is_variable. rewrite Hn. simpl. rewrite Hop.
  simpl. rewrite Hvec. simpl. rewrite Hagg, HG. simpl. rewrite Hmm.
  rewrite map_size_empty. simpl. rewrite Hcall. rewrite Hsc. done.
Qed.

Lemma take_out_aggregates agg_fun outs st e a entry :
  slot_at (output_grads st) e = Ok (a, entry) -> node (sum entry) = None ->
  take_out agg_fun (outs, st) e =
  Ok (outs ++ [agg_ret (agg_fun (heap st) (grads entry))],
      {| heap := heap st ++ agg_nodes (agg_fun (heap st) (grads entry));
         output_grads :=
           slot_set (output_grads st) a (index e)
             {| sum := moved (agg_ret (agg_fun (heap st) (grads entry)));
                grads := agg_rest (agg_fun (heap st) (grads entry)) |};
         mirror_map := mirror_map st;
         trace := trace st ++ [EvAgg a (index e)] |}).
Proof. intros Hs Hnull. unfold take_out. rewrite Hs. simpl. by rewrite Hnull. Qed.

End Eval.

Lemma bind_eval {A B : Type} (E : Result A) (a : A) (K : A -> Result B) (r : Result B) :
  E = Ok a -> K a = r -> (E ≫= K) = r.
Proof. by intros -> <-. Qed.

Lemma agg_entries_default_single a i h s e :
  agg_entries DefaultAggregateGradient a i [{| sum := s; grads := [e] |}] h =
  ([{| sum := e; grads := [moved e] |}], [e], h, [EvAgg a i]).
Proof. simpl. by rewrite app_nil_r. Qed.

(** C2: scattering appends.  Whenever the scatter loop of a node completes,
    every slot keeps its aggregated field and its earlier contributions and
    receives after them, in order, the gradients returned for the inputs that
    refer to it.  On the diamond (x feeds f and g, both feed the requested
    output y), with any gradient functions returning one entry per input,
    the pass returns for x the output of a fresh [__ewise_sum__] node whose
    inputs are the contribution through g followed by the contribution
    through f: the backward loop visits g before f. *)
Theorem scatter_accumulates_diamond
    (Gf Gg Gy : FGradient) (cy cg' cf' : list Node) (cf cg cgx cfx : NodeEntry) :
  Gy diamond (Some 3) [out0 4] = (cy, [cf; cg]) ->
  Gg (diamond ++ cy) (Some 2) [cg] = (cg', [cgx]) ->
  Gf (diamond ++ cy ++ cg') (Some 1) [cf] = (cf', [cfx]) ->
  (forall ins input_grads og og' e a ge,
     scatter ins input_grads og = Ok og' -> slot_at og e = Ok (a, ge) ->
     slot_at og' e =
       Ok (a, {| sum := sum ge;
                 grads := grads ge ++ contributions (slot_key e) ins input_grads |})) /\
  exists g st,
    Gradient_run one_output DFSVisit_model (registry3 Gf Gg Gy) diamond
      {| outputs := []; attrs := bundle [out0 3] [out0 4] [out0 0] |} = Ok (g, st) /\
    outputs g = [mkEntry (Some (length (diamond ++ cy ++ cg' ++ cf'))) 0 0] /\
    heap st !! length (diamond ++ cy ++ cg' ++ cf') =
      Some (mkNode (Some "__ewise_sum__") "" [cgx; cfx] []).
Proof.
  intros HGy HGg HGf. split.
  { intros ins gs og og' e a ge Hrun He. by apply (scatter_appends ins gs og og' Hrun). }
  rewrite app_assoc in HGf.
  eexists _, _. split.
  { rewrite Gradient_run_bundle. unfold Gradient_body.
    eapply bind_eval; [vm_compute; reflexivity|].
    eapply bind_eval; [vm_compute; reflexivity|].
    eapply bind_eval; [vm_compute; reflexivity|].
    eapply bind_eval; [reflexivity|].
    replace (rev (DFSVisit_model diamond [out0 3])) with [3; 2; 1; 0]
      by (vm_compute; reflexivity).
    eapply bind_eval.
    { cbn [foldM].
      eapply bind_eval.
      { eapply backward_step_eval;
          [reflexivity | reflexivity | reflexivity | vm_compute; reflexivity
          | apply agg_entries_default_single | reflexivity | exact HGy
          | vm_compute; reflexivity]. }
      eapply bind_eval.
      { eapply backward_step_eval;
          [reflexivity | reflexivity | reflexivity | vm_compute; reflexivity
          | apply agg_entries_default_single | reflexivity | exact HGg
          | vm_compute; reflexivity]. }
      eapply bind_eval.
      { eapply backward_step_eval;
          [reflexivity | reflexivity | reflexivity | vm_compute; reflexivity
          | apply agg_entries_default_single | reflexivity | exact HGf
          | vm_compute; reflexivity]. }
      eapply bind_eval.
      { eapply backward_step_variable; reflexivity. }
      reflexivity. }
    eapply bind_eval.
    { cbn [foldM]. eapply bind_eval.
      { eapply take_out_aggregates; [vm_compute; reflexivity | reflexivity]. }
      reflexivity. }
    reflexivity. }
  cbn [outputs heap grads DefaultAggregateGradient agg_ret agg_nodes app set_inputs set_op
       Node_Create op name control_deps inputs].
  rewrite !app_assoc. split; [reflexivity|].
  by rewrite lookup_app_r, Nat.sub_diag.
Qed.

Lemma scatter_accumulates_diamond_witness :
  exists g st,
    Gradient_run one_output DFSVisit_model
      (registry3 (grad_nodes "f") (grad_nodes "g") (grad_nodes "y")) diamond
      {| outputs := []; attrs := bundle [out0 3] [out0 4] [out0 0] |} = Ok (g, st) /\
    outputs g = [out0 9] /\
    heap st !! 9 = Some (mkNode (Some "__ewise_sum__") "" [out0 7; out0 8] []).
Proof.
  exact (proj2 (scatter_accumulates_diamond
                  (grad_nodes "f") (grad_nodes "g") (grad_nodes "y")
                  [app "y_grad" "g" [out0 4]; app "y_grad" "g" [out0 4]]
                  [app "g_grad" "g" [out0 6]] [app "f_grad" "g" [out0 5]]
                  (out0 5) (out0 6) (out0 7) (out0 8)
                  eq_refl eq_refl eq_refl)).
Defined.

(** ** Requests for the same slot *)

(** C3: on the chain [x -> f] with [grad_ys = [f]] and [grad_xs = [f; f]]
    the slot of [f] is aggregated by the backward loop and again by the
    second request of the output loop: moving [entry.sum] into the outputs
    at the first request empties it, so the test for a null node holds at
    the second request.  The second output is a null entry. *)
Theorem aliased_request_aggregates_again :
  exists g st,
    run chain (bundle [out0 1] [out0 2] [out0 1; out0 1]) = Ok (g, st) /\
    trace st = [EvAgg 1 0; EvGrad 1 (Some 1); EvAgg 1 0] /\
    agg_calls 1 0 (trace st) = 2 /\
    outputs g = [out0 2; mkEntry None 0 0].
Proof. eexists _, _. split; [vm_compute; reflexivity|]. by vm_compute. Qed.

(** C6: on the chain [x -> f] with [grad_ys = [f]] and [grad_xs = [x; x]]
    the output list has two entries; the first is the gradient of [x] (the
    output of the node made by the gradient function of [f]), the second is
    a null entry, not that gradient. *)
Theorem aliased_request_output_is_null :
  exists g st,
    run chain (bundle [out0 1] [out0 2] [out0 0; out0 0]) = Ok (g, st) /\
    heap st !! 3 = Some (app "f_grad" "g" [out0 2]) /\
    outputs g = [out0 3; mkEntry None 0 0] /\
    attrs g = ∅.
Proof. eexists _, _. split; [vm_compute; reflexivity|]. by vm_compute. Qed.

(** ** A request for a node that was not visited *)

(** C4: with [grad_ys = [f]], [f] reading [w] only, and [grad_xs = [x]], the
    node [x] was not visited and has no vector of slots; the output loop
    indexes the empty vector that [operator[]] creates, which is undefined.
    No zero node is produced. *)
Theorem unreached_request_is_undefined :
  DFSVisit_model apart [out0 2] = [1; 2] /\
  run apart (bundle [out0 2] [out0 3] [out0 0]) = Err Undefined.
Proof. split; vm_compute; reflexivity. Qed.

(** ** The length of the list a gradient function returns *)

(** Against C5 as stated: the gradient function of [surplus] returns two
    entries for the one input of the node, the backward loop calls it, and
    the pass completes with the gradient of [x]: no check fails. *)
Lemma surplus_gradient_is_accepted :
  length (grad_surplus "surplus" surplus_chain (Some 1) [out0 2]).2 = 2 /\
  length (inputs (app "surplus" "f" [out0 0])) = 1 /\
  exists g st,
    run surplus_chain (bundle [out0 1] [out0 2] [out0 0]) = Ok (g, st) /\
    EvGrad 1 (Some 1) ∈ trace st /\
    outputs g = [out0 3].
Proof.
  split; [reflexivity|]. split; [reflexivity|].
  eexists _, _. split; [vm_compute; reflexivity|].
  split; [|reflexivity]. cbn [trace]. set_solver.
Qed.

Lemma scatter_take ins : forall input_grads og,
  length ins <= length input_grads ->
  scatter ins input_grads og = scatter ins (take (length ins) input_grads) og.
Proof.
  induction ins as [|it ins IH]; intros gs og Hlen; [done|].
  destruct gs as [|g gs]; [simpl in Hlen; lia|]. simpl in Hlen.
  simpl. destruct (slot_at og it) as [[a ge]|f] eqn:Hit; simpl; [|done].
  apply IH. lia.
Qed.

Lemma scatter_no_check ins : forall input_grads og msg,
  scatter ins input_grads og <> Err (CheckFailed msg).
Proof.
  induction ins as [|it ins IH]; intros gs og msg; [done|].
  destruct gs as [|g gs]; [done|].
  simpl. destruct (slot_at og it) as [[a ge]|f] eqn:Hit; simpl; [apply IH|].
  intros [= ->]. unfold slot_at in Hit. repeat case_match; discriminate.
Qed.

Lemma slot_set_keeps_slots og a i ge' e :
  (exists r, slot_at og e = Ok r) -> exists r, slot_at (slot_set og a i ge') e = Ok r.
Proof.
  intros [[b ge] (Hn & vec & Hv & Hi)%slot_at_inv].
  destruct (decide (a = b)) as [->|Hne].
  - destruct (lookup_lt_is_Some_2 (<[i := ge']> vec) (index e)) as [x Hx].
    { rewrite length_insert. by eapply lookup_lt_Some. }
    exists (b, x). apply slot_at_intro with (vec := <[i := ge']> vec); [done| |done].
    rewrite slot_set_lookup, decide_True by done. by rewrite Hv.
  - exists (b, ge). apply slot_at_intro with (vec := vec); [done| |done].
    by rewrite slot_set_lookup, decide_False.
Qed.

Lemma scatter_completes ins : forall input_grads og,
  length ins <= length input_grads ->
  Forall (fun it => exists r, slot_at og it = Ok r) ins ->
  exists og', scatter ins input_grads og = Ok og'.
Proof.
  induction ins as [|it ins IH]; intros gs og Hlen Hall; [by exists og|].
  destruct gs as [|g gs]; [simpl in Hlen; lia|]. simpl in Hlen.
  apply Forall_cons in Hall as [[[a ge] Hit] Hall]. simpl. rewrite Hit. simpl.
  apply IH; [lia|]. eapply Forall_impl; [exact Hall|]. intros e He.
  by apply slot_set_keeps_slots.
Qed.

Lemma contributions_take k ins : forall input_grads,
  contributions k ins (take (length ins) input_grads) = contributions k ins input_grads.
Proof.
  induction ins as [|it ins IH]; intros gs; [done|].
  destruct gs as [|g gs]; [done|]. simpl. by rewrite IH.
Qed.

Section Surplus.

Variable grad_fun_map : string -> option FGradient.

(** C5 (amended): the backward loop does not compare the length of the list
    returned by a gradient function with the number of inputs: the only
    failed check an iteration can end in is the lookup of the gradient
    function.  When the node is in the arena and holds its vector of slots,
    its gradient function is registered, the node argument is found, the
    returned list has at least as many entries as the node has inputs and
    every input has a slot, the iteration completes: every slot receives,
    after what it held, the entries returned for the inputs that refer to
    it, taken among the first entries of the list, one per input and in
    order; the entries past the number of inputs are ignored; and the loop
    goes on with the next node from the state so obtained. *)
Theorem backward_step_ignores_surplus (agg_fun : AggFun) (st : St) (ptr : nat) :
  (forall msg, backward_step grad_fun_map agg_fun st ptr = Err (CheckFailed msg) ->
     msg = "FGradient is not registered") /\
  forall (n : Node) (G : FGradient) vec vec' ogs h1 evs q created input_grads,
    heap st !! ptr = Some n -> is_variable n = false ->
    op n ≫= grad_fun_map = Some G ->
    output_grads st !! ptr = Some vec ->
    agg_entries agg_fun ptr 0 vec (heap st) = (vec', ogs, h1, evs) ->
    (if bool_decide (size (mirror_map st) = 0) then Ok (Some ptr)
     else map_at (mirror_map st) (Some ptr)) = Ok q ->
    G h1 q ogs = (created, input_grads) ->
    length (inputs n) <= length input_grads ->
    Forall (fun it => exists r, slot_at (<[ptr := vec']> (output_grads st)) it = Ok r)
      (inputs n) ->
    exists og',
      backward_step grad_fun_map agg_fun st ptr =
        Ok {| heap := h1 ++ created; output_grads := og'; mirror_map := mirror_map st;
              trace := trace st ++ evs ++ [EvGrad ptr q] |} /\
      (forall e a ge,
         slot_at (<[ptr := vec']> (output_grads st)) e = Ok (a, ge) ->
         slot_at og' e =
           Ok (a, {| sum := sum ge;
                     grads := grads ge ++
                       contributions (slot_key e) (inputs n)
                         (take (length (inputs n)) input_grads) |})) /\
      forall l,
        foldM (backward_step grad_fun_map agg_fun) st (ptr :: l) =
        foldM (backward_step grad_fun_map agg_fun)
          {| heap := h1 ++ created; output_grads := og'; mirror_map := mirror_map st;
             trace := trace st ++ evs ++ [EvGrad ptr q] |} l.
Proof.
  split.
  - unfold backward_step, deref. destruct (heap st !! ptr) as [n|]; [|done]. cbn.
    destruct (is_variable n); [done|].
    destruct (output_grads st !! ptr) as [vec|]; [|done]. cbn.
    destruct (agg_entries agg_fun ptr 0 vec (heap st)) as [[[vec' ogs] h1] evs].
    destruct (op n ≫= grad_fun_map) as [G|]; [|by intros msg [= <-]]. cbn.
    assert (forall q msg,
              (let '(created, input_grads) := G h1 q ogs in
               og ← scatter (inputs n) input_grads (<[ptr := vec']> (output_grads st));
               mret {| heap := h1 ++ created; output_grads := og;
                       mirror_map := mirror_map st;
                       trace := trace st ++ evs ++ [EvGrad ptr q] |})
              <> Err (CheckFailed msg)) as Hcall.
    { intros q msg. destruct (G h1 q ogs) as [created igs].
      destruct (scatter (inputs n) igs (<[ptr := vec']> (output_grads st))) as [og|f] eqn:Hsc;
        [done|].
      intros [= ->]. by eapply scatter_no_check. }
    case_bool_decide; cbn.
    + intros msg Hrun. by apply Hcall in Hrun.
    + destruct (mirror_map st !! ptr) as [q|]; cbn; [|done].
      intros msg Hrun. by apply Hcall in Hrun.
  - intros n G vec vec' ogs h1 evs q created igs Hn Hvar HG Hvec Hagg Hq Hcall Hlen Hall.
    destruct (scatter_completes _ igs _ Hlen Hall) as [og' Hsc].
    assert (Hstep : backward_step grad_fun_map agg_fun st ptr =
              Ok {| heap := h1 ++ created; output_grads := og'; mirror_map := mirror_map st;
                    trace := trace st ++ evs ++ [EvGrad ptr q] |}).
    { unfold backward_step.
      apply bind_eval with n; [unfold deref; by rewrite Hn|]. rewrite Hvar.
      apply bind_eval with vec; [unfold map_at; by rewrite Hvec|]. rewrite Hagg.
      apply bind_eval with G; [by rewrite HG|].
      apply bind_eval with q; [exact Hq|]. rewrite Hcall.
      by apply bind_eval with og'. }
    exists og'. split; [exact Hstep|]. split.
    + intros e a ge He. rewrite contributions_take.
      by apply (proj2 (scatter_appends _ _ _ _ Hsc)).
    + intros l. cbn [foldM]. by rewrite Hstep.
Qed.

End Surplus.

Lemma backward_step_ignores_surplus_witness :
  exists og',
    backward_step registry DefaultAggregateGradient
      {| heap := surplus_chain;
         output_grads :=
           <[1 := [{| sum := sum new_GradEntry; grads := [out0 2] |}]]> {[0 := [new_GradEntry]]};
         mirror_map := ∅; trace := [] |} 1 =
      Ok {| heap := surplus_chain ++ [app "surplus_grad" "g" [out0 2]];
            output_grads := og'; mirror_map := ∅;
            trace := [EvAgg 1 0; EvGrad 1 (Some 1)] |} /\
    slot_at og' (out0 0) = Ok (0, {| sum := sum new_GradEntry; grads := [out0 3] |}).
Proof.
  destruct (proj2 (backward_step_ignores_surplus registry DefaultAggregateGradient
                     {| heap := surplus_chain;
                        output_grads :=
                          <[1 := [{| sum := sum new_GradEntry; grads := [out0 2] |}]]>
                            {[0 := [new_GradEntry]]};
                        mirror_map := ∅; trace := [] |} 1)
              (app "surplus" "f" [out0 0]) (grad_surplus "surplus")
              [{| sum := sum new_GradEntry; grads := [out0 2] |}]
              [{| sum := out0 2; grads := [moved (out0 2)] |}]
              [out0 2] surplus_chain [EvAgg 1 0] (Some 1)
              [app "surplus_grad" "g" [out0 2]] [out0 3; out0 2])
    as (og' & Hstep & Hslot & _); try (vm_compute; reflexivity).
  - cbn. lia.
  - constructor; [|constructor]. eexists. vm_compute. reflexivity.
  - exists og'. split; [exact Hstep|].
    rewrite (Hslot (out0 0) 0 new_GradEntry) by (vm_compute; reflexivity). reflexivity.
Defined.

(** ** Invariants of the loops *)

Lemma bind_Ok_inv {A B : Type} (E : Result A) (K : A -> Result B) (r : B) :
  (E ≫= K) = Ok r -> exists a, E = Ok a /\ K a = Ok r.
Proof. destruct E as [a|f]; [|done]. intros H. by exists a. Qed.

Lemma CHECK_Ok_inv b msg u : CHECK b msg = Ok u -> b = true.
Proof. by destruct b. Qed.

Lemma foldM_inv {A B : Type} (P : A -> Prop) (f : A -> B -> Result A) (l : list B) :
  forall a r,
    P a -> (forall a x a', P a -> x ∈ l -> f a x = Ok a' -> P a') ->
    foldM f a l = Ok r -> P r.
Proof.
  induction l as [|x l IH]; intros a r Ha Hstep Hrun.
  - by injection Hrun as <-.
  - simpl in Hrun. apply bind_Ok_inv in Hrun as (a' & Hx & Hrun).
    apply (IH a' r); [|  |done].
    + apply (Hstep a x a'); [done|set_solver|done].
    + intros b y b' Hb Hy. apply Hstep; [done|set_solver].
Qed.

Lemma deref_Ok_inv h a n : deref h a = Ok n -> h !! a = Some n.
Proof. unfold deref. by destruct (h !! a); intros [= <-]. Qed.

Lemma map_at_Ok_inv {V : Type} (m : gmap nat V) a v :
  map_at m (Some a) = Ok v -> m !! a = Some v.
Proof. unfold map_at. by destruct (m !! a); intros [= <-]. Qed.

Lemma init_seeds_dom ys : forall seeds og og',
  init_seeds ys seeds og = Ok og' -> dom og' = dom og.
Proof.
  induction ys as [|y ys IH]; intros seeds og og' Hrun.
  - by injection Hrun as <-.
  - destruct seeds as [|s seeds]; [by injection Hrun as <-|].
    simpl in Hrun. apply bind_Ok_inv in Hrun as ([a ge] & _ & Hrun).
    apply IH in Hrun. by rewrite Hrun, slot_set_dom.
Qed.

Lemma agg_entries_inv agg_fun a : forall vec i h vec' outs h' evs,
  agg_entries agg_fun a i vec h = (vec', outs, h', evs) ->
  length vec' = length vec /\ length outs = length vec /\
  (exists created, h' = h ++ created) /\
  Forall (fun ev => exists j, ev = EvAgg a j) evs.
Proof.
  induction vec as [|e vec IH]; intros i h vec' outs h' evs Hrun.
  - injection Hrun as <- <- <- <-. repeat split; try done. exists []. by rewrite app_nil_r.
  - simpl in Hrun.
    destruct (agg_entries agg_fun a (S i) vec (h ++ agg_nodes (agg_fun h (grads e))))
      as [[[vec1 outs1] h1] evs1] eqn:Hrec.
    injection Hrun as <- <- <- <-.
    apply IH in Hrec as (Hl1 & Hl2 & [created ->] & Hev).
    repeat split; simpl; try congruence.
    + eexists. by rewrite <- app_assoc.
    + constructor; [by eexists|done].
Qed.

Section Visit.

Variable num_outputs : Node -> nat.

#[local] Abbreviation visit := (visit num_outputs).

Lemma visit_fold_dom h l : forall og og',
  foldM (visit h) og l = Ok og' ->
  (forall k, k ∈ dom og' -> k ∈ dom og \/ k < length h) /\
  (forall a, a ∈ l -> a ∈ dom og') /\ dom og ⊆ dom og'.
Proof.
  induction l as [|a l IH]; intros og og' Hrun.
  - injection Hrun as <-. split; [auto|]. split; [|done]. intros a Ha. by apply elem_of_nil in Ha.
  - simpl in Hrun. apply bind_Ok_inv in Hrun as (og1 & Hv & Hrun).
    apply IH in Hrun as (Hk & Hl & Hsub).
    assert (a ∈ dom og1 /\ dom og ⊆ dom og1 /\
            forall k, k ∈ dom og1 -> k ∈ dom og \/ k < length h) as (Ha & Hsub1 & Hk1).
    { unfold visit in Hv. destruct (og !! a) as [vec|] eqn:Hoa.
      - injection Hv as <-. split; [by apply elem_of_dom|]. split; [done|auto].
      - apply bind_Ok_inv in Hv as (n & Hn%deref_Ok_inv & [= <-]).
        rewrite dom_insert_L. split; [set_solver|]. split; [set_solver|].
        intros k [->%elem_of_singleton|Hk']%elem_of_union; [|auto].
        right. by eapply lookup_lt_Some. }
    split; [|split].
    + intros k Hk'. destruct (Hk k Hk') as [Hin|]; [|auto]. by apply Hk1.
    + intros b [->|Hb]%elem_of_cons; [set_solver|auto].
    + set_solver.
Qed.

Lemma visit_fold_keys h l : forall og og',
  foldM (visit h) og l = Ok og' ->
  forall a, a ∈ dom og' -> a ∈ dom og \/ a ∈ l.
Proof.
  induction l as [|b l IH]; intros og og' Hrun a Ha.
  - injection Hrun as <-. by left.
  - cbn [foldM] in Hrun. apply bind_Ok_inv in Hrun as (og1 & Hv & Hrun).
    destruct (IH _ _ Hrun a Ha) as [Hin|Hin]; [|right; by right].
    unfold visit in Hv. destruct (og !! b) as [vec|].
    + injection Hv as <-. by left.
    + apply bind_Ok_inv in Hv as (n & _ & [= <-]).
      rewrite dom_insert_L in Hin.
      apply elem_of_union in Hin as [->%elem_of_singleton|Hin]; [right; by left|by left].
Qed.

End Visit.

Section Backward.

Variable grad_fun_map : string -> option FGradient.

#[local] Abbreviation backward_step := (backward_step grad_fun_map).

Lemma backward_step_inv agg_fun st ptr st' :
  backward_step agg_fun st ptr = Ok st' ->
  dom (output_grads st') = dom (output_grads st) /\
  mirror_map st' = mirror_map st /\
  (exists created, heap st' = heap st ++ created) /\
  exists evs, trace st' = trace st ++ evs /\
    Forall (fun ev =>
              (exists j, ev = EvAgg ptr j) \/
              exists q, ev = EvGrad ptr q /\
                (mirror_map st = ∅ /\ q = Some ptr \/ mirror_map st !! ptr = Some q)) evs.
Proof.
  unfold backward_step. intros Hrun.
  apply bind_Ok_inv in Hrun as (n & Hn & Hrun).
  destruct (is_variable n).
  { injection Hrun as <-. repeat split; [by exists []; rewrite app_nil_r|].
    exists []. by rewrite app_nil_r. }
  apply bind_Ok_inv in Hrun as (vec & Hvec%map_at_Ok_inv & Hrun).
  destruct (agg_entries agg_fun ptr 0 vec (heap st)) as [[[vec' ogs] h1] evs] eqn:Hagg.
  apply agg_entries_inv in Hagg as (_ & _ & [c1 ->] & Hevs).
  apply bind_Ok_inv in Hrun as (G & _ & Hrun).
  apply bind_Ok_inv in Hrun as (q & Hq & Hrun).
  destruct (G (heap st ++ c1) q ogs) as [created igs].
  apply bind_Ok_inv in Hrun as (og & Hsc & [= <-]). simpl.
  apply scatter_appends in Hsc as [Hdom _].
  split; [|split; [done|split]].
  - rewrite Hdom, dom_insert_L. apply elem_of_dom_2 in Hvec. set_solver.
  - eexists. by rewrite <- app_assoc.
  - eexists. split; [done|]. apply Forall_app. split.
    + eapply Forall_impl; [exact Hevs|]. auto.
    + constructor; [|done]. right. exists q. split; [done|].
      case_bool_decide as Hsz.
      * injection Hq as <-. left. split; [|done]. by apply map_size_empty_iff.
      * right. by apply map_at_Ok_inv.
Qed.

Lemma backward_fold_inv agg_fun l : forall st st',
  foldM (backward_step agg_fun) st l = Ok st' ->
  dom (output_grads st') = dom (output_grads st) /\
  mirror_map st' = mirror_map st /\
  (exists created, heap st' = heap st ++ created) /\
  exists evs, trace st' = trace st ++ evs /\
    Forall (fun ev =>
              (exists a j, ev = EvAgg a j) \/
              exists p q, ev = EvGrad p q /\ p ∈ l /\
                (mirror_map st = ∅ /\ q = Some p \/ mirror_map st !! p = Some q)) evs.
Proof.
  induction l as [|ptr l IH]; intros st st' Hrun.
  - injection Hrun as <-. repeat split; [by exists []; rewrite app_nil_r|].
    exists []. by rewrite app_nil_r.
  - simpl in Hrun. apply bind_Ok_inv in Hrun as (st1 & Hstep & Hrun).
    apply backward_step_inv in Hstep as (Hd1 & Hm1 & [c1 Hh1] & evs1 & Ht1 & He1).
    apply IH in Hrun as (Hd2 & Hm2 & [c2 Hh2] & evs2 & Ht2 & He2).
    split; [congruence|]. split; [congruence|]. split.
    { exists (c1 ++ c2). by rewrite Hh2, Hh1, <- app_assoc. }
    exists (evs1 ++ evs2). split; [by rewrite Ht2, Ht1, <- app_assoc|].
    apply Forall_app. split.
    + eapply Forall_impl; [exact He1|]. intros ev [[j ->]|(q & -> & Hq)]; [left; eauto|].
      right. exists ptr, q. split; [done|]. split; [by left|done].
    + eapply Forall_impl; [exact He2|]. intros ev [Hagg|(p & q & -> & Hp & Hq)]; [by left|].
      right. exists p, q. split; [done|]. split; [by right|]. by rewrite <- Hm1.
Qed.

End Backward.

Lemma take_out_inv agg_fun outs st e outs' st' :
  take_out agg_fun (outs, st) e = Ok (outs', st') ->
  dom (output_grads st') = dom (output_grads st) /\
  mirror_map st' = mirror_map st /\
  (exists created, heap st' = heap st ++ created) /\
  length outs' = S (length outs) /\
  exists evs, trace st' = trace st ++ evs /\
    Forall (fun ev => exists a j, ev = EvAgg a j) evs.
Proof.
  unfold take_out. intros Hrun.
  apply bind_Ok_inv in Hrun as ([a entry] & Hs & Hrun).
  destruct (node (sum entry)); injection Hrun as <- <-; simpl;
    rewrite slot_set_dom, length_app; simpl.
  - repeat split; [by exists []; rewrite app_nil_r|lia|].
    exists []. by rewrite app_nil_r.
  - repeat split; [by eexists|lia|].
    eexists. split; [done|]. constructor; [by eexists _, _|done].
Qed.

Lemma take_out_fold_inv agg_fun xs : forall outs st outs' st',
  foldM (take_out agg_fun) (outs, st) xs = Ok (outs', st') ->
  dom (output_grads st') = dom (output_grads st) /\
  mirror_map st' = mirror_map st /\
  (exists created, heap st' = heap st ++ created) /\
  length outs' = length outs + length xs /\
  exists evs, trace st' = trace st ++ evs /\
    Forall (fun ev => exists a j, ev = EvAgg a j) evs.
Proof.
  induction xs as [|e xs IH]; intros outs st outs' st' Hrun.
  - injection Hrun as <- <-. repeat split; [by exists []; rewrite app_nil_r|simpl; lia|].
    exists []. by rewrite app_nil_r.
  - simpl in Hrun. apply bind_Ok_inv in Hrun as ([outs1 st1] & Hstep & Hrun).
    apply take_out_inv in Hstep as (Hd1 & Hm1 & [c1 Hh1] & Hl1 & evs1 & Ht1 & He1).
    apply IH in Hrun as (Hd2 & Hm2 & [c2 Hh2] & Hl2 & evs2 & Ht2 & He2).
    split; [congruence|]. split; [congruence|]. split.
    { exists (c1 ++ c2). by rewrite Hh2, Hh1, <- app_assoc. }
    split; [simpl; lia|].
    exists (evs1 ++ evs2). split; [by rewrite Ht2, Ht1, <- app_assoc|].
    by apply Forall_app.
Qed.

Lemma mirror_step_inv f h0 acc a acc' :
  a < length h0 -> mirror_inv h0 acc -> mirror_step f acc a = Ok acc' ->
  mirror_inv h0 acc'.
Proof.
  intros Ha [[created Hh] Hmm] Hrun. destruct acc as [h mm]. simpl in *. subst h.
  apply bind_Ok_inv in Hrun as (n & Hn%deref_Ok_inv & Hrun).
  rewrite lookup_app_l in Hn by done.
  case_bool_decide.
  - apply bind_Ok_inv in Hrun as (ins & _ & Hrun).
    apply bind_Ok_inv in Hrun as (deps & _ & [= <-]).
    split; simpl.
    { eexists. by rewrite <- app_assoc. }
    intros b q Hb. apply lookup_insert_Some in Hb as [[<- <-]|[Hne Hb]].
    + split; [done|]. right. eexists _, n, _. split; [done|].
      split; [rewrite length_app; lia|]. split; [done|].
      split; [rewrite lookup_app_r by lia; by rewrite Nat.sub_diag|done].
    + destruct (Hmm b q Hb) as [Hlt [->|(m & n1 & n2 & -> & Hm & H1 & H2 & H3)]];
        (split; [done|]); [by left|].
      right. exists m, n1, n2. destruct H3. repeat split; try done.
      by apply lookup_app_l_Some.
  - injection Hrun as <-. split; simpl; [by eexists|].
    intros b q Hb. apply lookup_insert_Some in Hb as [[<- <-]|[Hne Hb]]; [auto|].
    by apply Hmm.
Qed.

Lemma take_out_fold_requests agg_fun xs : forall outs st outs' st',
  foldM (take_out agg_fun) (outs, st) xs = Ok (outs', st') ->
  forall e, e ∈ xs -> exists a, node e = Some a /\ a ∈ dom (output_grads st).
Proof.
  induction xs as [|x xs IH]; intros outs st outs' st' Hrun e He.
  - by apply elem_of_nil in He.
  - cbn [foldM] in Hrun. apply bind_Ok_inv in Hrun as ([outs1 st1] & Hstep & Hrun).
    apply elem_of_cons in He as [->|He].
    + unfold take_out in Hstep. apply bind_Ok_inv in Hstep as ([a entry] & Hs & _).
      apply slot_at_inv in Hs as (Hn & vec & Hv & _).
      exists a. split; [done|]. by apply elem_of_dom_2 in Hv.
    + destruct (IH _ _ _ _ Hrun e He) as (a & Hn & Ha). exists a. split; [done|].
      apply take_out_inv in Hstep as (Hd & _). by rewrite <- Hd.
Qed.

Section Invariants.

Variable num_outputs : Node -> nat.
Variable DFSVisit : list Node -> list NodeEntry -> list nat.
Variable grad_fun_map : string -> option FGradient.

#[local] Abbreviation visit := (visit num_outputs).
#[local] Abbreviation backward_step := (backward_step grad_fun_map).
#[local] Abbreviation Gradient_body := (Gradient_body num_outputs DFSVisit grad_fun_map).
#[local] Abbreviation Gradient_run := (Gradient_run num_outputs DFSVisit grad_fun_map).

Lemma Gradient_body_inv agg_fun mirror_fun ys seeds xs h g st :
  Gradient_body agg_fun mirror_fun ys seeds xs h = Ok (g, st) ->
  exists og0 og1 h1 mm st1 outs,
    foldM (visit h) ∅ (DFSVisit h ys) = Ok og0 /\
    length ys = length seeds /\
    init_seeds ys seeds og0 = Ok og1 /\
    match mirror_fun with
    | Some f => foldM (mirror_step f) (h, ∅) (DFSVisit h ys)
    | None => Ok (h, ∅)
    end = Ok (h1, mm) /\
    foldM (backward_step agg_fun)
      {| heap := h1; output_grads := og1; mirror_map := mm; trace := [] |}
      (rev (DFSVisit h ys)) = Ok st1 /\
    foldM (take_out agg_fun) ([], st1) xs = Ok (outs, st) /\
    g = {| outputs := outs; attrs := ∅ |}.
Proof.
  unfold Gradient_body. intros Hrun.
  apply bind_Ok_inv in Hrun as (og0 & H0 & Hrun).
  apply bind_Ok_inv in Hrun as (u & Hlen%CHECK_Ok_inv%bool_decide_eq_true & Hrun).
  apply bind_Ok_inv in Hrun as (og1 & H1 & Hrun).
  apply bind_Ok_inv in Hrun as ([h1 mm] & H2 & Hrun).
  apply bind_Ok_inv in Hrun as (st1 & H3 & Hrun).
  apply bind_Ok_inv in Hrun as ([outs st'] & H4 & [= <- <-]).
  by exists og0, og1, h1, mm, st1, outs.
Qed.

Lemma Gradient_run_inv h src g st :
  Gradient_run h src = Ok (g, st) ->
  exists ys seeds xs agg_fun mirror_fun,
    GetAttr_entries src "grad_ys" = Ok ys /\
    GetAttr_entries src "grad_ys_out_grad" = Ok seeds /\
    GetAttr_entries src "grad_xs" = Ok xs /\
    (if has_attr src "grad_aggregate_fun" then GetAttr_agg src "grad_aggregate_fun"
     else Ok DefaultAggregateGradient) = Ok agg_fun /\
    (if has_attr src "grad_mirror_fun"
     then f ← GetAttr_mirror src "grad_mirror_fun"; mret (Some f)
     else Ok None) = Ok mirror_fun /\
    Gradient_body agg_fun mirror_fun ys seeds xs h = Ok (g, st).
Proof.
  unfold Gradient_run. intros Hrun.
  apply bind_Ok_inv in Hrun as (? & _ & Hrun).
  apply bind_Ok_inv in Hrun as (? & _ & Hrun).
  apply bind_Ok_inv in Hrun as (? & _ & Hrun).
  apply bind_Ok_inv in Hrun as (ys & Hys & Hrun).
  apply bind_Ok_inv in Hrun as (seeds & Hseeds & Hrun).
  apply bind_Ok_inv in Hrun as (xs & Hxs & Hrun).
  apply bind_Ok_inv in Hrun as (agg_fun & Hagg & Hrun).
  apply bind_Ok_inv in Hrun as (mirror_fun & Hmf & Hrun).
  by exists ys, seeds, xs, agg_fun, mirror_fun.
Qed.

(** X3: the output list of a completed run has one entry per requested
    input and the returned graph carries no attribute, whatever the
    aggregator, the mirror policy and the gradient functions do. *)
Lemma Gradient_run_outputs_length h src g st xs :
  Gradient_run h src = Ok (g, st) -> GetAttr_entries src "grad_xs" = Ok xs ->
  length (outputs g) = length xs /\ attrs g = ∅.
Proof.
  intros (ys & seeds & xs' & agg_fun & mirror_fun & _ & _ & Hxs & _ & _ & Hbody)%Gradient_run_inv Hxs'.
  assert (xs' = xs) as -> by congruence.
  apply Gradient_body_inv in Hbody as (og0 & og1 & h1 & mm & st1 & outs & _ & _ & _ & _ & _ & Hout & ->).
  apply take_out_fold_inv in Hout as (_ & _ & _ & Hlen & _). done.
Qed.

Lemma Gradient_body_slots agg_fun mirror_fun ys seeds xs h g st :
  Gradient_body agg_fun mirror_fun ys seeds xs h = Ok (g, st) ->
  (forall k, k ∈ dom (output_grads st) -> k < length h) /\
  (forall a q, mirror_map st !! a = Some q ->
     a < length h /\
     (q = Some a \/
      exists m n n', q = Some m /\ length h <= m /\ output_grads st !! m = None /\
        h !! a = Some n /\ heap st !! m = Some n' /\
        op n' = op n /\ name n' = name n +:+ "_mirror")) /\
  (forall p q, EvGrad p q ∈ trace st ->
     p ∈ DFSVisit h ys /\ p < length h /\
     (mirror_map st = ∅ /\ q = Some p \/ mirror_map st !! p = Some q)).
Proof.
  intros (og0 & og1 & h1 & mm & st1 & outs & Hvis & _ & Hseed & Hmir & Hback & Hout & _)%Gradient_body_inv.
  apply visit_fold_dom in Hvis as (Hkeys & Htopo & _).
  assert (Hkeys0 : forall k, k ∈ dom og0 -> k < length h).
  { intros k Hk. destruct (Hkeys k Hk) as [Hin|]; [|done]. by rewrite dom_empty_L in Hin. }
  apply init_seeds_dom in Hseed.
  assert (Hminv : mirror_inv h (h1, mm)).
  { destruct mirror_fun as [f|].
    - eapply (foldM_inv (mirror_inv h)); [| |exact Hmir].
      + split; [by exists []; rewrite app_nil_r|]. intros a q Ha. simpl in Ha. by rewrite lookup_empty in Ha.
      + intros acc a acc' Hacc Ha. apply mirror_step_inv; [|done]. apply Hkeys0. by apply Htopo.
    - injection Hmir as <- <-. split; [by exists []; rewrite app_nil_r|].
      intros a q Ha. simpl in Ha. by rewrite lookup_empty in Ha. }
  apply backward_fold_inv in Hback as (Hd1 & Hm1 & [c1 Hh1] & evs1 & Ht1 & He1).
  apply take_out_fold_inv in Hout as (Hd2 & Hm2 & [c2 Hh2] & _ & evs2 & Ht2 & He2).
  simpl in *.
  assert (Hkeys2 : forall k, k ∈ dom (output_grads st) -> k < length h).
  { intros k. rewrite Hd2, Hd1, Hseed. apply Hkeys0. }
  split; [done|]. split.
  - intros a q Ha. rewrite Hm2, Hm1 in Ha. destruct Hminv as [_ Hminv].
    destruct (Hminv a q Ha) as [Hlt [->|(m & n & n' & -> & Hm & Hn & Hn' & Hop & Hname)]];
      (split; [done|]); [by left|].
    right. exists m, n, n'. repeat split; try done.
    + apply not_elem_of_dom. intros Hin%Hkeys2. lia.
    + rewrite Hh2, Hh1. simpl in Hn'. by do 2 apply lookup_app_l_Some.
  - intros p q Hin. rewrite Ht2, Ht1 in Hin. simpl in Hin.
    apply elem_of_app in Hin as [Hin|Hin].
    + rewrite Forall_forall in He1. destruct (He1 _ Hin) as [(a & j & Hev)|(p' & q' & [= <- <-] & Hp & Hq)];
        [done|].
      apply list_elem_of_In, in_rev, list_elem_of_In in Hp. split; [done|]. split; [by apply Hkeys0, Htopo|].
      by rewrite Hm2, Hm1.
    + rewrite Forall_forall in He2. by destruct (He2 _ Hin) as (a & j & Hev).
Qed.

(** X4: a run completes only if every requested entry refers to a node that
    the depth-first visit reached: for any other request the output loop
    indexes an empty vector. *)
Lemma Gradient_run_requests_visited h src g st ys xs :
  Gradient_run h src = Ok (g, st) ->
  GetAttr_entries src "grad_ys" = Ok ys -> GetAttr_entries src "grad_xs" = Ok xs ->
  forall e, e ∈ xs -> exists a, node e = Some a /\ a ∈ DFSVisit h ys.
Proof.
  intros (ys' & seeds & xs' & agg_fun & mirror_fun & Hys & _ & Hxs & _ & _ & Hbody)%Gradient_run_inv
    Hys' Hxs' e He.
  assert (ys' = ys) as -> by congruence. assert (xs' = xs) as -> by congruence.
  apply Gradient_body_inv in Hbody
    as (og0 & og1 & h1 & mm & st1 & outs & Hvis & _ & Hseed & _ & Hback & Hout & _).
  destruct (take_out_fold_requests _ _ _ _ _ _ Hout e He) as (a & Hn & Ha).
  exists a. split; [done|].
  apply backward_fold_inv in Hback as (Hd & _). simpl in Hd.
  rewrite Hd, (init_seeds_dom _ _ _ _ Hseed) in Ha.
  destruct (visit_fold_keys num_outputs _ _ _ _ Hvis a Ha) as [Hin|Hin]; [|done].
  by rewrite dom_empty_L in Hin.
Qed.




End Invariants.


(** ** A mirror policy that never asks for a copy *)

Lemma mirror_never_fold f h l :
  (forall n, f n = 0%Z) -> (forall a, a ∈ l -> a < length h) ->
  forall mm, exists mm',
    foldM (mirror_step f) (h, mm) l = Ok (h, mm') /\
    (forall a, a ∈ l -> mm' !! a = Some (Some a)) /\
    (forall a, mm !! a = Some (Some a) -> mm' !! a = Some (Some a)) /\
    (l = [] -> mm' = mm).
Proof.
  intros Hf. induction l as [|a l IH]; intros Hl mm.
  - exists mm. repeat split; try done. intros a Ha. by apply elem_of_nil in Ha.
  - destruct (lookup_lt_is_Some_2 h a) as [n Hn]; [apply Hl; by left|].
    destruct (IH (fun b Hb => Hl b (list_elem_of_further _ _ _ Hb)) (<[a := Some a]> mm))
      as (mm' & Hrun & Hin & Hkeep & _).
    exists mm'. split; [|split; [|split; [|done]]].
    + simpl. unfold mirror_step at 1, deref. rewrite Hn. simpl. rewrite Hf.
      rewrite bool_decide_eq_false_2 by (intros Hne; by apply Hne). simpl. exact Hrun.
    + intros b [->|Hb]%elem_of_cons; [|by apply Hin].
      apply Hkeep. by rewrite lookup_insert_eq.
    + intros b Hb. apply Hkeep. destruct (decide (a = b)) as [->|Hne].
      * by rewrite lookup_insert_eq.
      * by rewrite lookup_insert_ne.
Qed.

Section MirrorNever.

Variable num_outputs : Node -> nat.
Variable DFSVisit : list Node -> list NodeEntry -> list nat.
Variable grad_fun_map : string -> option FGradient.

#[local] Abbreviation backward_step := (backward_step grad_fun_map).
#[local] Abbreviation Gradient_body := (Gradient_body num_outputs DFSVisit grad_fun_map).
#[local] Abbreviation Gradient_run := (Gradient_run num_outputs DFSVisit grad_fun_map).

Lemma backward_step_mirror_id agg_fun mm st ptr :
  mm !! ptr = Some (Some ptr) ->
  backward_step agg_fun (set_mirror_map mm st) ptr =
  Result_map (set_mirror_map mm) (backward_step agg_fun (set_mirror_map ∅ st) ptr).
Proof.
  intros Hmm. unfold backward_step. simpl.
  destruct (deref (heap st) ptr) as [n|]; [|done]. simpl.
  destruct (is_variable n); [done|].
  destruct (output_grads st !! ptr) as [vec|]; [|done]. simpl.
  destruct (agg_entries agg_fun ptr 0 vec (heap st)) as [[[vec' ogs] h1] evs].
  destruct (op n ≫= grad_fun_map) as [G|]; [|done]. simpl.
  rewrite map_size_empty. simpl.
  rewrite (bool_decide_eq_false_2 (size mm = 0)).
  2:{ intros Hsz%map_size_empty_iff. by rewrite Hsz, lookup_empty in Hmm. }
  unfold map_at. rewrite Hmm. simpl.
  destruct (G h1 (Some ptr) ogs) as [created igs].
  destruct (scatter (inputs n) igs (<[ptr:=vec']> (output_grads st))); done.
Qed.

Lemma backward_fold_mirror_id agg_fun mm l : forall st,
  (forall a, a ∈ l -> mm !! a = Some (Some a)) ->
  foldM (backward_step agg_fun) (set_mirror_map mm st) l =
  Result_map (set_mirror_map mm) (foldM (backward_step agg_fun) (set_mirror_map ∅ st) l).
Proof.
  induction l as [|ptr l IH]; intros st Hl; [done|].
  simpl. rewrite backward_step_mirror_id by (apply Hl; by left).
  destruct (backward_step agg_fun (set_mirror_map ∅ st) ptr) as [st1|] eqn:Hstep; [|done].
  simpl. apply backward_step_inv in Hstep as (_ & Hm & _).
  rewrite (IH st1) by (intros a Ha; apply Hl; by right).
  simpl in Hm. destruct st1 as [h1 og1 mm1 t1]. simpl in Hm. by subst mm1.
Qed.

Lemma take_out_mirror_id agg_fun mm outs st e :
  take_out agg_fun (outs, set_mirror_map mm st) e =
  Result_map (fun '(o, s) => (o, set_mirror_map mm s))
    (take_out agg_fun (outs, set_mirror_map ∅ st) e).
Proof.
  unfold take_out. simpl.
  destruct (slot_at (output_grads st) e) as [[a entry]|]; [|done]. simpl.
  by destruct (node (sum entry)).
Qed.

Lemma take_out_fold_mirror_id agg_fun mm xs : forall outs st,
  foldM (take_out agg_fun) (outs, set_mirror_map mm st) xs =
  Result_map (fun '(o, s) => (o, set_mirror_map mm s))
    (foldM (take_out agg_fun) (outs, set_mirror_map ∅ st) xs).
Proof.
  induction xs as [|e xs IH]; intros outs st; [done|].
  cbn [foldM]. rewrite take_out_mirror_id.
  destruct (take_out agg_fun (outs, set_mirror_map ∅ st) e) as [[outs1 st1]|] eqn:Hstep;
    [|done].
  simpl. rewrite IH. apply take_out_inv in Hstep as (_ & Hm & _).
  destruct st1 as [h1 og1 mm1 t1]. simpl in Hm. by subst mm1.
Qed.

Lemma Gradient_body_mirror_never agg_fun f ys seeds xs h :
  (forall n, f n = 0%Z) ->
  forget_mirror (Gradient_body agg_fun (Some f) ys seeds xs h) =
  forget_mirror (Gradient_body agg_fun None ys seeds xs h) /\
  forall g st p q, Gradient_body agg_fun (Some f) ys seeds xs h = Ok (g, st) ->
    EvGrad p q ∈ trace st -> q = Some p.
Proof.
  intros Hf.
  destruct (foldM (visit num_outputs h) ∅ (DFSVisit h ys)) as [og0|e] eqn:Hvis.
  2:{ unfold Gradient_body. rewrite Hvis. split; [done|]. intros g st p q Hrun. discriminate Hrun. }
  destruct (visit_fold_dom num_outputs _ _ _ _ Hvis) as (Hkeys & Htopo & _).
  assert (Hlt : forall b, b ∈ DFSVisit h ys -> b < length h).
  { intros b Hb. destruct (Hkeys b (Htopo b Hb)) as [Hin|]; [|done].
    by rewrite dom_empty_L in Hin. }
  destruct (mirror_never_fold f h (DFSVisit h ys) Hf Hlt ∅) as (mm & Hmir & Hid & _ & _).
  split.
  - unfold Gradient_body. rewrite Hvis. simpl.
    destruct (CHECK _ _); [|done]. simpl.
    destruct (init_seeds ys seeds og0) as [og1|]; [|done]. simpl.
    rewrite Hmir. simpl.
    rewrite (backward_fold_mirror_id agg_fun mm _ (mkSt h og1 ∅ [])).
    2:{ intros b Hb%list_elem_of_In%in_rev%list_elem_of_In. by apply Hid. }
    unfold set_mirror_map at 2. simpl.
    destruct (foldM (backward_step agg_fun) _ _) as [st1|] eqn:Hback; [|done]. simpl.
    rewrite (take_out_fold_mirror_id agg_fun mm xs [] st1).
    apply backward_fold_inv in Hback as (_ & Hm & _). simpl in Hm.
    assert (set_mirror_map ∅ st1 = st1) as ->.
    { destruct st1 as [h1 o1 m1 t1]. simpl in Hm. by subst m1. }
    by destruct (foldM (take_out agg_fun) ([], st1) xs) as [[outs st2]|].
  - intros g st p q Hrun Hin.
    destruct (Gradient_body_slots num_outputs DFSVisit grad_fun_map _ _ _ _ _ _ _ _ Hrun)
      as (_ & _ & Htr).
    destruct (Htr p q Hin) as (Hp & _ & [[_ Hq]|Hq]); [done|].
    apply Gradient_body_inv in Hrun
      as (og0' & og1 & h1 & mm1 & st1 & outs & _ & _ & _ & Hmir' & Hback & Hout & _).
    rewrite Hmir in Hmir'. injection Hmir' as <- <-.
    apply backward_fold_inv in Hback as (_ & Hm1 & _).
    apply take_out_fold_inv in Hout as (_ & Hm2 & _). simpl in Hm1.
    rewrite Hm2, Hm1, (Hid p Hp) in Hq. by injection Hq.
Qed.

Lemma Gradient_body_no_mirror agg_fun ys seeds xs h g st p q :
  Gradient_body agg_fun None ys seeds xs h = Ok (g, st) ->
  EvGrad p q ∈ trace st -> q = Some p.
Proof.
  intros Hrun Hin.
  destruct (Gradient_body_slots num_outputs DFSVisit grad_fun_map _ _ _ _ _ _ _ _ Hrun)
    as (_ & _ & Htr).
  destruct (Htr p q Hin) as (Hp & _ & [[_ Hq]|Hq]); [done|].
  apply Gradient_body_inv in Hrun
    as (og0' & og1 & h1 & mm1 & st1 & outs & _ & _ & _ & Hmir' & Hback & Hout & _).
  injection Hmir' as <- <-.
  apply backward_fold_inv in Hback as (_ & Hm1 & _).
  apply take_out_fold_inv in Hout as (_ & Hm2 & _). simpl in Hm1.
  by rewrite Hm2, Hm1, lookup_empty in Hq.
Qed.

(** C7: when the mirror predicate returns 0 (false) on every node, the run
    that has the attribute [grad_mirror_fun] and the run that has no such
    attribute end alike: the same failure, or the same graph, the same
    arena, the same pending-gradient table and the same calls of the
    aggregator and of the gradient functions.  In both runs every gradient
    function is called with the node of the source graph itself. *)
Theorem mirror_never_is_no_mirror f h src :
  (forall n, f n = 0%Z) ->
  forget_mirror (Gradient_run h (with_mirror f src)) =
    forget_mirror (Gradient_run h (without_mirror src)) /\
  (forall g st p q, Gradient_run h (with_mirror f src) = Ok (g, st) ->
     EvGrad p q ∈ trace st -> q = Some p) /\
  (forall g st p q, Gradient_run h (without_mirror src) = Ok (g, st) ->
     EvGrad p q ∈ trace st -> q = Some p).
Proof.
  intros Hf.
  assert (Hk : forall k, k <> "grad_mirror_fun" ->
               attrs (with_mirror f src) !! k = attrs src !! k /\
               attrs (without_mirror src) !! k = attrs src !! k).
  { intros k Hk. simpl. by rewrite lookup_insert_ne, lookup_delete_ne. }
  assert (Hw : attrs (with_mirror f src) !! "grad_mirror_fun" = Some (AMirrorFun f))
    by apply lookup_insert_eq.
  assert (Hwo : attrs (without_mirror src) !! "grad_mirror_fun" = None)
    by apply lookup_delete_eq.
  assert (Hrun : forall src' mf,
    (forall k, k <> "grad_mirror_fun" -> attrs src' !! k = attrs src !! k) ->
    (if has_attr src' "grad_mirror_fun"
     then f' ← GetAttr_mirror src' "grad_mirror_fun"; mret (Some f')
     else Ok None) = Ok mf ->
    Gradient_run h src' =
    (_ ← CHECK (has_attr src "grad_ys") "Gradient require grad_ys to be presented.";
     _ ← CHECK (has_attr src "grad_ys_out_grad")
           "Gradient require grad_ys_out_grad to be presented.";
     _ ← CHECK (has_attr src "grad_xs") "Gradient require grad_xs to be presented.";
     ys ← GetAttr_entries src "grad_ys";
     ys_out_grad ← GetAttr_entries src "grad_ys_out_grad";
     xs ← GetAttr_entries src "grad_xs";
     agg_fun ← (if has_attr src "grad_aggregate_fun"
                then GetAttr_agg src "grad_aggregate_fun"
                else Ok DefaultAggregateGradient);
     Gradient_body agg_fun mf ys ys_out_grad xs h)).
  { intros src' mf Hsame Hmf.
    unfold Gradient_run. rewrite Hmf.
    unfold has_attr, GetAttr_entries, GetAttr_agg.
    rewrite !Hsame by done. done. }
  assert (Hinv : forall mf g st,
    (_ ← CHECK (has_attr src "grad_ys") "Gradient require grad_ys to be presented.";
     _ ← CHECK (has_attr src "grad_ys_out_grad")
           "Gradient require grad_ys_out_grad to be presented.";
     _ ← CHECK (has_attr src "grad_xs") "Gradient require grad_xs to be presented.";
     ys ← GetAttr_entries src "grad_ys";
     ys_out_grad ← GetAttr_entries src "grad_ys_out_grad";
     xs ← GetAttr_entries src "grad_xs";
     agg_fun ← (if has_attr src "grad_aggregate_fun"
                then GetAttr_agg src "grad_aggregate_fun"
                else Ok DefaultAggregateGradient);
     Gradient_body agg_fun mf ys ys_out_grad xs h) = Ok (g, st) ->
    exists agg_fun ys seeds xs, Gradient_body agg_fun mf ys seeds xs h = Ok (g, st)).
  { intros mf g st H.
    apply bind_Ok_inv in H as (? & _ & H). apply bind_Ok_inv in H as (? & _ & H).
    apply bind_Ok_inv in H as (? & _ & H). apply bind_Ok_inv in H as (ys & _ & H).
    apply bind_Ok_inv in H as (seeds & _ & H). apply bind_Ok_inv in H as (xs & _ & H).
    apply bind_Ok_inv in H as (agg_fun & _ & H). by exists agg_fun, ys, seeds, xs. }
  rewrite (Hrun (with_mirror f src) (Some f)), (Hrun (without_mirror src) None).
  2:{ intros k Hne. by apply Hk. }
  2:{ unfold has_attr. rewrite Hwo. done. }
  2:{ intros k Hne. by apply Hk. }
  2:{ unfold has_attr, GetAttr_mirror. rewrite Hw. done. }
  split; [|split].
  - destruct (CHECK (has_attr src "grad_ys") _); [|done].
    destruct (CHECK (has_attr src "grad_ys_out_grad") _); [|done].
    destruct (CHECK (has_attr src "grad_xs") _); [|done].
    destruct (GetAttr_entries src "grad_ys") as [ys|]; [|done].
    destruct (GetAttr_entries src "grad_ys_out_grad") as [seeds|]; [|done].
    destruct (GetAttr_entries src "grad_xs") as [xs|]; [|done].
    destruct (if has_attr src "grad_aggregate_fun" then _ else _) as [agg_fun|]; [|done].
    exact (proj1 (Gradient_body_mirror_never agg_fun f ys seeds xs h Hf)).
  - intros g st p q (agg_fun & ys & seeds & xs & Hbody)%Hinv.
    exact (proj2 (Gradient_body_mirror_never agg_fun f ys seeds xs h Hf) g st p q Hbody).
  - intros g st p q (agg_fun & ys & seeds & xs & Hbody)%Hinv.
    exact (Gradient_body_no_mirror agg_fun ys seeds xs h g st p q Hbody).
Qed.

End MirrorNever.

Lemma mirror_never_is_no_mirror_witness :
  forget_mirror (run chain (bundle_mirror (fun _ => 0%Z) [out0 1] [out0 2] [out0 0])) =
  forget_mirror (run chain (bundle [out0 1] [out0 2] [out0 0])).
Proof.
  pose proof (proj1 (mirror_never_is_no_mirror one_output DFSVisit_model registry
                       (fun _ => 0%Z) chain
                       {| outputs := []; attrs := bundle [out0 1] [out0 2] [out0 0] |}
                       (fun _ => eq_refl))) as H.
  exact H.
Defined.

(** ** Independence of the addresses of the created nodes *)

Lemma foldM_rel {A1 A2 B : Type} (R : A1 -> A2 -> Prop)
    (f1 : A1 -> B -> Result A1) (f2 : A2 -> B -> Result A2) (l : list B) :
  (forall x a1 a2 a1', x ∈ l -> R a1 a2 -> f1 a1 x = Ok a1' ->
     exists a2', f2 a2 x = Ok a2' /\ R a1' a2') ->
  forall a1 a2 r1, R a1 a2 -> foldM f1 a1 l = Ok r1 ->
    exists r2, foldM f2 a2 l = Ok r2 /\ R r1 r2.
Proof.
  induction l as [|x l IH]; intros Hstep a1 a2 r1 HR Hrun.
  - injection Hrun as <-. by exists a2.
  - simpl in Hrun. apply bind_Ok_inv in Hrun as (a1' & Hx & Hrun).
    destruct (Hstep x a1 a2 a1') as (a2' & Hx2 & HR'); [by left|done|done|].
    destruct (IH (fun y b1 b2 b1' Hy => Hstep y b1 b2 b1' (list_elem_of_further _ _ _ Hy))
                a1' a2' r1 HR' Hrun) as (r2 & Hrun2 & HR2).
    exists r2. split; [|done]. simpl. by rewrite Hx2.
Qed.

Section Equivariance.

Variables h0 pad : list Node.

#[local] Abbreviation n0 := (length h0).
#[local] Abbreviation k := (length pad).
#[local] Abbreviation renP' := (renP n0 k).
#[local] Abbreviation renE' := (renE n0 k).
#[local] Abbreviation renN' := (renN n0 k).
#[local] Abbreviation renG' := (renG n0 k).
#[local] Abbreviation renOG' := (renOG n0 k).

Lemma heap_rel_refl : heap_rel h0 pad h0 (h0 ++ pad).
Proof. exists []. by rewrite !app_nil_r. Qed.

Lemma heap_rel_length h1 h2 :
  heap_rel h0 pad h1 h2 -> n0 <= length h1 /\ length h2 = length h1 + k.
Proof. intros (c & -> & ->). rewrite !length_app, length_fmap. lia. Qed.

Lemma heap_rel_fresh h1 h2 :
  heap_rel h0 pad h1 h2 -> ren n0 k (length h1) = length h2.
Proof.
  intros [Hle Hlen]%heap_rel_length. unfold ren. rewrite decide_False by lia. lia.
Qed.

Lemma heap_rel_app h1 h2 c :
  heap_rel h0 pad h1 h2 -> heap_rel h0 pad (h1 ++ c) (h2 ++ (renN' <$> c)).
Proof.
  intros (c0 & -> & ->). exists (c0 ++ c). by rewrite fmap_app, <- !app_assoc.
Qed.

Lemma heap_rel_lookup h1 h2 a :
  heap_rel h0 pad h1 h2 -> a < n0 -> h2 !! a = h1 !! a.
Proof. intros (c & -> & ->) Ha. by rewrite !lookup_app_l. Qed.

Lemma renOG_lookup og a :
  renOG' og !! a = fmap (M := list) renG' <$> og !! a.
Proof. apply lookup_fmap. Qed.

Lemma renOG_insert og a vec :
  <[a := renG' <$> vec]> (renOG' og) = renOG' (<[a := vec]> og).
Proof. symmetry. apply (fmap_insert (fmap (M := list) renG')). Qed.

Lemma slot_at_ren og e :
  slot_at (renOG' og) e = Result_map (fun '(a, ge) => (a, renG' ge)) (slot_at og e).
Proof.
  unfold slot_at, renOG. destruct (node e) as [a|]; [|done].
  rewrite lookup_fmap. destruct (og !! a) as [vec|]; [|done]. simpl.
  rewrite list_lookup_fmap. by destruct (vec !! index e).
Qed.

Lemma slot_set_ren og a i ge :
  slot_set (renOG' og) a i (renG' ge) = renOG' (slot_set og a i ge).
Proof.
  unfold slot_set, renOG. symmetry. apply fmap_alter.
  intros vec. by rewrite list_fmap_insert.
Qed.

Lemma init_seeds_ren ys : forall seeds og,
  init_seeds ys (renE' <$> seeds) (renOG' og) = Result_map renOG' (init_seeds ys seeds og).
Proof.
  induction ys as [|y ys IH]; intros seeds og; [by destruct seeds|].
  destruct seeds as [|s seeds]; [done|]. simpl.
  rewrite slot_at_ren. destruct (slot_at og y) as [[a ge]|]; [|done]. simpl.
  rewrite <- IH. f_equal.
  exact (slot_set_ren og a (index y) {| sum := sum ge; grads := [s] |}).
Qed.

Lemma scatter_ren ins : forall gs og,
  scatter ins (renE' <$> gs) (renOG' og) = Result_map renOG' (scatter ins gs og).
Proof.
  induction ins as [|it ins IH]; intros gs og; [done|].
  destruct gs as [|g gs]; [done|]. simpl.
  rewrite slot_at_ren. destruct (slot_at og it) as [[a ge]|]; [|done]. simpl.
  rewrite <- IH. f_equal.
  rewrite <- slot_set_ren. unfold renG. simpl. by rewrite fmap_app.
Qed.

Lemma DefaultAggregateGradient_equivariant :
  AggFun_equivariant h0 pad DefaultAggregateGradient.
Proof.
  intros h1 h2 v Hrel. pose proof (heap_rel_fresh _ _ Hrel) as Hfresh.
  destruct v as [|e [|e' v]]; unfold renA; simpl.
  - unfold renE, renP. simpl. by rewrite Hfresh.
  - done.
  - rewrite <- Hfresh. done.
Qed.

Lemma agg_entries_ren A a vec : forall i h1 h2 vec' outs h1' evs,
  AggFun_equivariant h0 pad A -> heap_rel h0 pad h1 h2 ->
  agg_entries A a i vec h1 = (vec', outs, h1', evs) ->
  exists h2',
    agg_entries A a i (renG' <$> vec) h2 =
      (renG' <$> vec', renE' <$> outs, h2', renEv n0 k <$> evs) /\
    heap_rel h0 pad h1' h2'.
Proof.
  induction vec as [|e vec IH]; intros i h1 h2 vec' outs h1' evs HA Hrel Hrun.
  - injection Hrun as <- <- <- <-. by exists h2.
  - cbn [agg_entries] in Hrun.
    destruct (agg_entries A a (S i) vec (h1 ++ agg_nodes (A h1 (grads e))))
      as [[[vec1 outs1] h1x] evs1] eqn:Hrec.
    injection Hrun as <- <- <- <-.
    pose proof (heap_rel_app _ _ (agg_nodes (A h1 (grads e))) Hrel) as Hrel'.
    destruct (IH _ _ _ _ _ _ _ HA Hrel' Hrec) as (h2' & Hrec2 & Hrel2).
    exists h2'. split; [|done].
    rewrite fmap_cons. cbn [agg_entries grads renG].
    rewrite (HA h1 h2 (grads e) Hrel). cbn [renA agg_nodes agg_ret agg_rest].
    rewrite Hrec2. done.
Qed.

Lemma ren_source a : a < n0 -> ren n0 k a = a.
Proof. intros Ha. unfold ren. by rewrite decide_True. Qed.

Lemma map_at_ren {V : Type} (f : V -> V) (m : gmap nat V) p :
  map_at (f <$> m) p = Result_map f (map_at m p).
Proof.
  unfold map_at. destruct p as [a|]; [|done]. rewrite lookup_fmap.
  by destruct (m !! a).
Qed.

Lemma mirror_inputs_ren (mm : gmap nat NodePtr) (ins : list NodeEntry) :
  mapM (M := Result)
    (fun e => m ← map_at (renP' <$> mm) (node e);
              mret {| node := m; index := index e; version := version e |}) ins =
  Result_map (fmap renE')
    (mapM (M := Result)
       (fun e => m ← map_at mm (node e);
                 mret {| node := m; index := index e; version := version e |}) ins).
Proof.
  induction ins as [|e ins IH]; [done|].
  cbn [mapM]. rewrite map_at_ren. destruct (map_at mm (node e)) as [m|]; [|done].
  cbn. rewrite IH.
  match goal with |- context [Result_map _ ?x] => by destruct x end.
Qed.

Lemma mirror_deps_ren (mm : gmap nat NodePtr) (deps : list NodePtr) :
  mapM (M := Result) (fun p => map_at (renP' <$> mm) p) deps =
  Result_map (fmap renP') (mapM (M := Result) (fun p => map_at mm p) deps).
Proof.
  induction deps as [|p deps IH]; [done|].
  cbn [mapM]. rewrite map_at_ren. destruct (map_at mm p) as [m|]; [|done].
  cbn. rewrite IH.
  match goal with |- context [Result_map _ ?x] => by destruct x end.
Qed.

Lemma mirror_step_ren f a acc1 acc2 acc1' :
  a < n0 -> mirror_rel h0 pad acc1 acc2 -> mirror_step f acc1 a = Ok acc1' ->
  exists acc2', mirror_step f acc2 a = Ok acc2' /\ mirror_rel h0 pad acc1' acc2'.
Proof.
  destruct acc1 as [h1 mm1], acc2 as [h2 mm2]. intros Ha [Hrel Hmm] Hrun.
  simpl in Hrel, Hmm. subst mm2. unfold mirror_step in *.
  apply bind_Ok_inv in Hrun as (n & Hn & Hrun).
  unfold deref in *. rewrite (heap_rel_lookup _ _ _ Hrel Ha).
  destruct (h1 !! a) as [n'|]; [|done]. injection Hn as ->. cbn.
  case_bool_decide.
  - apply bind_Ok_inv in Hrun as (ins & Hins & Hrun).
    apply bind_Ok_inv in Hrun as (deps & Hdeps & [= <-]).
    rewrite mirror_inputs_ren, Hins. cbn. rewrite mirror_deps_ren, Hdeps. cbn.
    eexists. split; [done|]. split; cbn.
    + exact (heap_rel_app _ _ [mkNode (op n) (name n +:+ "_mirror") ins deps] Hrel).
    + rewrite fmap_insert. cbn. by rewrite (heap_rel_fresh _ _ Hrel).
  - injection Hrun as <-. eexists. split; [done|]. split; [done|]. cbn.
    rewrite fmap_insert. cbn. by rewrite ren_source.
Qed.

Section Steps.

Variable grad_fun_map : string -> option FGradient.
Variable agg_fun : AggFun.

Hypothesis grad_equivariant :
  forall o G, grad_fun_map o = Some G -> FGradient_equivariant h0 pad G.
Hypothesis agg_equivariant : AggFun_equivariant h0 pad agg_fun.

Lemma backward_step_ren ptr st1 st2 st1' :
  ptr < n0 -> St_rel h0 pad st1 st2 ->
  backward_step grad_fun_map agg_fun st1 ptr = Ok st1' ->
  exists st2', backward_step grad_fun_map agg_fun st2 ptr = Ok st2' /\
    St_rel h0 pad st1' st2'.
Proof.
  intros Hptr (Hrel & Hog & Hmm & Htr) Hrun. unfold backward_step in *.
  apply bind_Ok_inv in Hrun as (n & Hn & Hrun).
  unfold deref in *. rewrite (heap_rel_lookup _ _ _ Hrel Hptr).
  destruct (heap st1 !! ptr) as [n'|]; [|done]. injection Hn as ->. cbn.
  destruct (is_variable n).
  { injection Hrun as <-. by exists st2. }
  apply bind_Ok_inv in Hrun as (vec & Hvec%map_at_Ok_inv & Hrun).
  rewrite Hog, renOG_lookup, Hvec. cbn.
  destruct (agg_entries agg_fun ptr 0 vec (heap st1)) as [[[vec' ogs] h1] evs] eqn:Hagg.
  destruct (agg_entries_ren _ _ _ _ _ _ _ _ _ _ agg_equivariant Hrel Hagg)
    as (h2 & Hagg2 & Hrel2).
  rewrite Hagg2.
  apply bind_Ok_inv in Hrun as (G & HG & Hrun).
  destruct (op n ≫= grad_fun_map) as [G'|] eqn:Hop; [|done]. injection HG as ->. cbn.
  assert (HGeq : FGradient_equivariant h0 pad G).
  { destruct (op n) as [o|]; [|done]. by apply (grad_equivariant o). }
  apply bind_Ok_inv in Hrun as (q & Hq & Hrun).
  assert (Hq2 : (if bool_decide (size (mirror_map st2) = 0) then Ok (Some ptr)
                 else match mirror_map st2 !! ptr with
                      | Some v => Ok v
                      | None => Err OutOfRange
                      end) = Ok (renP' q)).
  { rewrite Hmm, map_size_fmap, lookup_fmap. case_bool_decide.
    - injection Hq as <-. cbn. by rewrite ren_source.
    - apply map_at_Ok_inv in Hq. by rewrite Hq. }
  rewrite Hq2. cbn.
  rewrite (HGeq h1 h2 q ogs Hrel2).
  destruct (G h1 q ogs) as [created igs]. cbn.
  apply bind_Ok_inv in Hrun as (og & Hsc & [= <-]).
  rewrite renOG_insert, scatter_ren, Hsc. cbn.
  eexists. split; [done|]. split; [|split; [|split]]; cbn.
  - by apply heap_rel_app.
  - done.
  - done.
  - rewrite Htr, !fmap_app. done.
Qed.

Lemma take_out_ren e outs1 st1 st2 outs1' st1' :
  St_rel h0 pad st1 st2 ->
  take_out agg_fun (outs1, st1) e = Ok (outs1', st1') ->
  exists st2', take_out agg_fun (renE' <$> outs1, st2) e = Ok (renE' <$> outs1', st2') /\
    St_rel h0 pad st1' st2'.
Proof.
  intros (Hrel & Hog & Hmm & Htr) Hrun. unfold take_out in *.
  apply bind_Ok_inv in Hrun as ([a entry] & Hs & Hrun).
  rewrite Hog, slot_at_ren, Hs. cbn.
  destruct (node (sum entry)) as [m|] eqn:Hsum; cbn; injection Hrun as <- <-.
  - eexists. split; [by rewrite fmap_app|]. split; [done|]. cbn.
    split; [|split; [done|by rewrite Htr, fmap_app]].
    exact (slot_set_ren (output_grads st1) a (index e)
             {| sum := moved (sum entry); grads := grads entry |}).
  - rewrite (agg_equivariant (heap st1) (heap st2) (grads entry) Hrel). cbn.
    eexists. split; [by rewrite fmap_app|]. split; [by apply heap_rel_app|]. cbn.
    split; [|split; [done|by rewrite Htr, fmap_app]].
    exact (slot_set_ren (output_grads st1) a (index e)
             {| sum := moved (agg_ret (agg_fun (heap st1) (grads entry)));
                grads := agg_rest (agg_fun (heap st1) (grads entry)) |}).
Qed.

End Steps.

Lemma visit_ren num_outputs h og a :
  visit num_outputs h (renOG' og) a = Result_map renOG' (visit num_outputs h og a).
Proof.
  unfold visit. rewrite renOG_lookup. destruct (og !! a) as [vec|]; [done|]. cbn.
  destruct (deref h a) as [n|]; [|done]. cbn.
  by rewrite <- renOG_insert, fmap_replicate.
Qed.

Lemma visit_fold_ren num_outputs h l : forall og,
  foldM (visit num_outputs h) (renOG' og) l =
  Result_map renOG' (foldM (visit num_outputs h) og l).
Proof.
  induction l as [|a l IH]; intros og; [done|].
  cbn [foldM]. rewrite visit_ren. destruct (visit num_outputs h og a) as [og'|]; [|done].
  cbn. apply IH.
Qed.

Lemma visit_fold_pad num_outputs l : forall og og',
  foldM (visit num_outputs h0) og l = Ok og' ->
  foldM (visit num_outputs (h0 ++ pad)) og l = Ok og'.
Proof.
  induction l as [|a l IH]; intros og og' Hrun; [done|].
  cbn [foldM] in *. apply bind_Ok_inv in Hrun as (og1 & Hv & Hrun).
  assert (visit num_outputs (h0 ++ pad) og a = Ok og1) as ->; [|by apply IH].
  unfold visit in *. destruct (og !! a); [done|].
  apply bind_Ok_inv in Hv as (n & Hn%deref_Ok_inv & Hv).
  unfold deref. by rewrite (lookup_app_l_Some _ _ _ _ Hn).
Qed.

Section Body.

Variable num_outputs : Node -> nat.
Variable DFSVisit : list Node -> list NodeEntry -> list nat.
Variable grad_fun_map : string -> option FGradient.
Variable agg_fun : AggFun.

Hypothesis grad_equivariant :
  forall o G, grad_fun_map o = Some G -> FGradient_equivariant h0 pad G.
Hypothesis agg_equivariant : AggFun_equivariant h0 pad agg_fun.

Lemma Gradient_body_ren mirror_fun ys seeds xs g1 st1 :
  DFSVisit (h0 ++ pad) ys = DFSVisit h0 ys ->
  renE' <$> seeds = seeds ->
  Gradient_body num_outputs DFSVisit grad_fun_map agg_fun mirror_fun ys seeds xs h0
    = Ok (g1, st1) ->
  exists g2 st2,
    Gradient_body num_outputs DFSVisit grad_fun_map agg_fun mirror_fun ys seeds xs
      (h0 ++ pad) = Ok (g2, st2) /\
    outputs g2 = renE' <$> outputs g1 /\ attrs g2 = attrs g1 /\
    St_rel h0 pad st1 st2.
Proof.
  intros Hdfs Hseeds Hrun.
  apply Gradient_body_inv in Hrun
    as (og0 & og1 & h1 & mm & stb & outs & Hvis & Hlen & Hseed & Hmir & Hback & Hout & ->).
  destruct (visit_fold_dom num_outputs _ _ _ _ Hvis) as (Hkeys & Htopo & _).
  assert (Hlt : forall a, a ∈ DFSVisit h0 ys -> a < n0).
  { intros a Ha. destruct (Hkeys a (Htopo a Ha)) as [Hin|]; [|done].
    by rewrite dom_empty_L in Hin. }
  assert (Hog0 : renOG' og0 = og0).
  { pose proof (visit_fold_ren num_outputs h0 (DFSVisit h0 ys) ∅) as H.
    unfold renOG at 1 in H. rewrite fmap_empty, Hvis in H. cbn in H. congruence. }
  assert (Hog1 : renOG' og1 = og1).
  { pose proof (init_seeds_ren ys seeds og0) as H.
    rewrite Hseeds, Hog0, Hseed in H. cbn in H. congruence. }
  assert (Hmir2 : exists h2 mm2,
    match mirror_fun with
    | Some f => foldM (mirror_step f) (h0 ++ pad, ∅) (DFSVisit h0 ys)
    | None => Ok (h0 ++ pad, ∅)
    end = Ok (h2, mm2) /\ mirror_rel h0 pad (h1, mm) (h2, mm2)).
  { destruct mirror_fun as [f|].
    - destruct (foldM_rel (mirror_rel h0 pad) (mirror_step f) (mirror_step f)
                  (DFSVisit h0 ys))
        with (a1 := (h0, ∅ : gmap nat NodePtr)) (a2 := (h0 ++ pad, ∅ : gmap nat NodePtr))
             (r1 := (h1, mm)) as ([h2 mm2] & H2 & Hrel2); [| |done|by eauto].
      + intros a acc1 acc2 acc1' Ha. apply mirror_step_ren. by apply Hlt.
      + split; [apply heap_rel_refl|]. cbn. by rewrite fmap_empty.
    - injection Hmir as <- <-. eexists _, _. split; [done|].
      split; [apply heap_rel_refl|]. cbn. by rewrite fmap_empty. }
  destruct Hmir2 as (h2 & mm2 & Hmir2 & Hrel2 & Hmm2). cbn in Hrel2, Hmm2.
  destruct (foldM_rel (St_rel h0 pad)
              (backward_step grad_fun_map agg_fun) (backward_step grad_fun_map agg_fun)
              (rev (DFSVisit h0 ys)))
    with (a1 := mkSt h1 og1 mm []) (a2 := mkSt h2 og1 mm2 []) (r1 := stb)
    as (stb2 & Hback2 & Hrelb); [| |done|].
  { intros a s1 s2 s1' Ha%list_elem_of_In%in_rev%list_elem_of_In.
    apply backward_step_ren; [done|done|]. by apply Hlt. }
  { split; [done|]. split; [exact (eq_sym Hog1)|]. by split. }
  destruct (foldM_rel
              (fun acc1 acc2 => acc2.1 = renE' <$> acc1.1 /\ St_rel h0 pad acc1.2 acc2.2)
              (take_out agg_fun) (take_out agg_fun) xs)
    with (a1 := ([] : list NodeEntry, stb)) (a2 := ([] : list NodeEntry, stb2))
         (r1 := (outs, st1))
    as ([outs2 st2] & Hout2 & Houts & Hrelf); [| |done|].
  { intros e [o1 s1] [o2 s2] [o1' s1'] _ [Ho Hs] Hstep. cbn in Ho, Hs. subst o2.
    destruct (take_out_ren agg_fun agg_equivariant e o1 s1 s2 o1' s1' Hs Hstep)
      as (s2' & Hstep2 & Hs2).
    by exists (renE' <$> o1', s2'). }
  { done. }
  cbn in Houts, Hrelf. subst outs2.
  exists {| outputs := renE' <$> outs; attrs := ∅ |}, st2. split; [|done].
  unfold Gradient_body. rewrite Hdfs, (visit_fold_pad _ _ _ _ Hvis). cbn.
  rewrite bool_decide_eq_true_2 by done. cbn. rewrite Hseed. cbn.
  rewrite Hmir2. cbn. rewrite Hback2. cbn. rewrite Hout2. done.
Qed.

End Body.

Lemma renE_source e : entry_in h0 e -> renE' e = e.
Proof.
  intros He. destruct e as [[a|] i v]; [|done]. unfold renE, renP. cbn.
  by rewrite ren_source by (by apply He).
Qed.

Lemma renE_source_list l : Forall (entry_in h0) l -> renE' <$> l = l.
Proof.
  induction 1 as [|e l He _ IH]; [done|]. by rewrite fmap_cons, renE_source, IH.
Qed.

(** Corresponding nodes have the same operator and corresponding inputs. *)
Lemma heap_rel_nodes h1 h2 a :
  source_closed h0 -> heap_rel h0 pad h1 h2 ->
  match h1 !! a, h2 !! ren n0 k a with
  | Some n1, Some n2 => op n2 = op n1 /\ inputs n2 = renE' <$> inputs n1
  | None, None => True
  | _, _ => False
  end.
Proof.
  intros Hclosed (c & -> & ->). unfold ren. case_decide as Ha.
  - rewrite !lookup_app_l by done.
    destruct (h0 !! a) as [n|] eqn:Hn; [|done]. split; [done|].
    symmetry. apply renE_source_list.
    unfold source_closed in Hclosed. rewrite Forall_forall in Hclosed.
    apply Hclosed. by eapply list_elem_of_lookup_2.
  - rewrite lookup_app_r by lia.
    rewrite lookup_app_r by lia. rewrite lookup_app_r by lia.
    replace (a + k - n0 - k) with (a - n0) by lia.
    rewrite list_lookup_fmap. by destruct (c !! (a - n0)).
Qed.

Lemma shape_ren h1 h2 :
  source_closed h0 -> heap_rel h0 pad h1 h2 ->
  forall fuel e, shape fuel h2 (renE' e) = shape fuel h1 e.
Proof.
  intros Hclosed Hrel. induction fuel as [|fuel IH]; intros e; [done|].
  cbn [shape]. destruct e as [[a|] i v]; [|done]. cbn.
  pose proof (heap_rel_nodes h1 h2 a Hclosed Hrel) as Hn.
  destruct (h1 !! a) as [n1|], (h2 !! ren n0 k a) as [n2|]; try done.
  destruct Hn as [-> ->]. f_equal.
  rewrite <- list_fmap_compose. apply list_fmap_ext. intros j e _. apply IH.
Qed.

End Equivariance.

(** C8: the nodes a run creates are determined up to their addresses.  Run
    the pass from the arena [h0] of the source graph, and run it again on the
    same graph and attributes after [pad] more nodes were allocated (those of
    a first invocation, say).  If the depth-first visit, the gradient
    functions and the aggregator in use do not depend on the addresses of
    nodes outside the source graph, the second run completes when the first
    does, its outputs are those of the first under the renaming that shifts
    the created nodes, the created nodes correspond one to one with the same
    operators and names, and at every depth the operator-kind shapes of the
    outputs are equal. *)
Theorem Gradient_address_independent
    (num_outputs : Node -> nat) (DFSVisit : list Node -> list NodeEntry -> list nat)
    (grad_fun_map : string -> option FGradient)
    (h0 pad : list Node) (src : Graph) (g1 : Graph) (st1 : St) :
  source_closed h0 ->
  (forall ys, GetAttr_entries src "grad_ys" = Ok ys ->
     DFSVisit (h0 ++ pad) ys = DFSVisit h0 ys) ->
  (forall seeds, GetAttr_entries src "grad_ys_out_grad" = Ok seeds ->
     Forall (entry_in h0) seeds) ->
  (forall o G, grad_fun_map o = Some G -> FGradient_equivariant h0 pad G) ->
  (forall A, GetAttr_agg src "grad_aggregate_fun" = Ok A -> AggFun_equivariant h0 pad A) ->
  Gradient_run num_outputs DFSVisit grad_fun_map h0 src = Ok (g1, st1) ->
  exists g2 st2,
    Gradient_run num_outputs DFSVisit grad_fun_map (h0 ++ pad) src = Ok (g2, st2) /\
    outputs g2 = renE (length h0) (length pad) <$> outputs g1 /\
    (exists created,
       heap st1 = h0 ++ created /\
       heap st2 = h0 ++ pad ++ (renN (length h0) (length pad) <$> created)) /\
    trace st2 = renEv (length h0) (length pad) <$> trace st1 /\
    forall fuel,
      shape fuel (heap st2) <$> outputs g2 = shape fuel (heap st1) <$> outputs g1.
Proof.
  intros Hclosed Hdfs Hseeds Hgrad Hagg Hrun.
  apply Gradient_run_inv in Hrun
    as (ys & seeds & xs & agg_fun & mirror_fun & Hys & Hsd & Hxs & Hag & Hmf & Hbody).
  assert (HA : AggFun_equivariant h0 pad agg_fun).
  { destruct (has_attr src "grad_aggregate_fun"); [by apply Hagg|].
    injection Hag as <-. apply DefaultAggregateGradient_equivariant. }
  destruct (Gradient_body_ren h0 pad num_outputs DFSVisit grad_fun_map agg_fun Hgrad HA
              mirror_fun ys seeds xs g1 st1 (Hdfs ys Hys)
              (renE_source_list h0 pad seeds (Hseeds seeds Hsd)) Hbody)
    as (g2 & st2 & Hbody2 & Hout & _ & Hrel & _ & _ & Htr).
  exists g2, st2. split; [|split; [done|split; [done|split; [done|]]]].
  - assert (has_attr src "grad_ys" = true /\ has_attr src "grad_ys_out_grad" = true /\
            has_attr src "grad_xs" = true) as (H1 & H2 & H3).
    { unfold has_attr, GetAttr_entries in *.
      repeat split; apply bool_decide_eq_true_2;
        [destruct (attrs src !! "grad_ys")|destruct (attrs src !! "grad_ys_out_grad")
        |destruct (attrs src !! "grad_xs")]; done. }
    unfold Gradient_run. rewrite H1, H2, H3. cbn. rewrite Hys, Hsd, Hxs. cbn.
    rewrite Hag. cbn. rewrite Hmf. cbn. exact Hbody2.
  - intros fuel. rewrite Hout, <- list_fmap_compose. apply list_fmap_ext.
    intros j e _. cbn. by apply shape_ren.
Qed.

Lemma grad_nodes_equivariant h0 pad o : FGradient_equivariant h0 pad (grad_nodes o).
Proof.
  intros h1 h2 q ogs Hrel. unfold grad_nodes.
  pose proof (heap_rel_length _ _ _ _ Hrel) as [Hle Hlen].
  assert (Hk : match renP (length h0) (length pad) q ≫= (fun a => h2 !! a) with
               | Some n => length (inputs n)
               | None => 0
               end =
               match q ≫= (fun a => h1 !! a) with
               | Some n => length (inputs n)
               | None => 0
               end).
  { destruct q as [a|]; [|done]. cbn. destruct Hrel as (c & -> & ->).
    unfold ren. case_decide as Ha.
    - by rewrite !lookup_app_l.
    - rewrite lookup_app_r by lia.
      rewrite lookup_app_r by lia. rewrite lookup_app_r by lia.
      replace (a + length pad - length h0 - length pad) with (a - length h0) by lia.
      rewrite list_lookup_fmap. destruct (c !! (a - length h0)); [|done].
      cbn. by rewrite length_fmap. }
  rewrite Hk. cbn. f_equal.
  - by rewrite fmap_replicate.
  - rewrite <- list_fmap_compose. apply list_fmap_ext. intros j i _. cbn.
    unfold renE, renP, out0, ren. cbn. rewrite decide_False by lia.
    do 2 f_equal. lia.
Qed.

Lemma Gradient_address_independent_witness :
  exists g1 st1 g2 st2,
    Gradient_run one_output DFSVisit_model
      (registry3 (grad_nodes "f") (grad_nodes "g") (grad_nodes "y")) diamond
      {| outputs := []; attrs := bundle [out0 3] [out0 4] [out0 0] |} = Ok (g1, st1) /\
    Gradient_run one_output DFSVisit_model
      (registry3 (grad_nodes "f") (grad_nodes "g") (grad_nodes "y")) (heap st1)
      {| outputs := []; attrs := bundle [out0 3] [out0 4] [out0 0] |} = Ok (g2, st2) /\
    outputs g1 = [out0 9] /\ outputs g2 = [out0 14] /\
    forall fuel,
      shape fuel (heap st2) <$> outputs g2 = shape fuel (heap st1) <$> outputs g1.
Proof.
  eassert (Hrun1 : Gradient_run one_output DFSVisit_model
             (registry3 (grad_nodes "f") (grad_nodes "g") (grad_nodes "y")) diamond
             {| outputs := []; attrs := bundle [out0 3] [out0 4] [out0 0] |} = Ok (_, _))
    by (vm_compute; reflexivity).
  pose proof (fun H1 H2 H3 H4 H5 =>
                Gradient_address_independent one_output DFSVisit_model
                  (registry3 (grad_nodes "f") (grad_nodes "g") (grad_nodes "y"))
                  diamond
                  [app "y_grad" "g" [out0 4]; app "y_grad" "g" [out0 4];
                   app "g_grad" "g" [out0 6]; app "f_grad" "g" [out0 5];
                   mkNode (Some "__ewise_sum__") "" [out0 7; out0 8] []]
                  _ _ _ H1 H2 H3 H4 H5 Hrun1) as H.
  destruct H as (g2 & st2 & Hrun & Hout & _ & _ & Hshape).
  - cbv [source_closed diamond var app out0 inputs].
    repeat match goal with |- Forall _ _ => constructor end;
      intros a Ha; cbn in Ha; injection Ha as <-; cbn; lia.
  - intros ys [= <-]. vm_compute. reflexivity.
  - intros seeds [= <-]. cbv [out0].
    repeat match goal with |- Forall _ _ => constructor end;
      intros a Ha; cbn in Ha; injection Ha as <-; cbn; lia.
  - intros o G HG. unfold registry3 in HG.
    repeat case_bool_decide; try discriminate HG; injection HG as <-;
      apply grad_nodes_equivariant.
  - intros A HA. discriminate HA.
  - eexists _, _, g2, st2. split; [exact Hrun1|]. split; [exact Hrun|].
    split; [reflexivity|]. split; [by rewrite Hout|]. exact Hshape.
Defined.

(** * Further properties of the pass *)

(** ** Failures before the traversal *)

Lemma bind_Err {A B : Type} (E : Result A) (K : A -> Result B) (f : Failure) :
  E = Err f -> (E ≫= K) = Err f.
Proof. by intros ->. Qed.

Section Preconditions.

Variable num_outputs : Node -> nat.
Variable DFSVisit : list Node -> list NodeEntry -> list nat.
Variable grad_fun_map : string -> option FGradient.

#[local] Abbreviation run_pass := (Gradient_run num_outputs DFSVisit grad_fun_map).

(** X1: when one of the three attributes [grad_ys], [grad_ys_out_grad],
    [grad_xs] is absent from the graph, the pass ends in a failed check
    whose message is one of the three of the source, whatever the arena, the
    other attributes, the visit and the registry are. *)
Theorem missing_attribute_fails (h : list Node) (src : Graph) (k : string) :
  k ∈ ["grad_ys"; "grad_ys_out_grad"; "grad_xs"] ->
  attrs src !! k = None ->
  exists msg,
    run_pass h src = Err (CheckFailed msg) /\
    msg ∈ ["Gradient require grad_ys to be presented.";
           "Gradient require grad_ys_out_grad to be presented.";
           "Gradient require grad_xs to be presented."].
Proof.
  intros Hk Hnone. unfold Gradient_run.
  destruct (has_attr src "grad_ys") eqn:H1; cbn.
  2:{ eexists. split; [done|]. set_solver. }
  destruct (has_attr src "grad_ys_out_grad") eqn:H2; cbn.
  2:{ eexists. split; [done|]. set_solver. }
  destruct (has_attr src "grad_xs") eqn:H3; cbn.
  2:{ eexists. split; [done|]. set_solver. }
  exfalso. unfold has_attr in *.
  apply bool_decide_eq_true_1 in H1, H2, H3.
  repeat (apply elem_of_cons in Hk as [->|Hk]);
    [by rewrite Hnone in H1; destruct H1
    |by rewrite Hnone in H2; destruct H2
    |by rewrite Hnone in H3; destruct H3
    |by apply elem_of_nil in Hk].
Qed.

End Preconditions.

Lemma missing_attribute_fails_witness :
  exists msg,
    Gradient_run one_output DFSVisit_model registry chain
      {| outputs := [];
         attrs := delete "grad_xs" (bundle [out0 1] [out0 2] [out0 0]) |}
      = Err (CheckFailed msg) /\
    msg ∈ ["Gradient require grad_ys to be presented.";
           "Gradient require grad_ys_out_grad to be presented.";
           "Gradient require grad_xs to be presented."].
Proof.
  apply (missing_attribute_fails one_output DFSVisit_model registry chain _ "grad_xs").
  - set_solver.
  - vm_compute. reflexivity.
Defined.

Lemma GetAttr_entries_has_attr src k v :
  GetAttr_entries src k = Ok v -> has_attr src k = true.
Proof.
  unfold GetAttr_entries, has_attr. intros H. apply bool_decide_eq_true_2.
  by destruct (attrs src !! k).
Qed.

Lemma visit_fold_total num_outputs h l : forall og,
  (forall a, a ∈ l -> a < length h) ->
  exists og', foldM (visit num_outputs h) og l = Ok og'.
Proof.
  induction l as [|a l IH]; intros og Hl; [by exists og|].
  cbn [foldM].
  assert (exists og1, visit num_outputs h og a = Ok og1) as [og1 ->].
  { unfold visit, deref. destruct (og !! a); [by eexists|].
    destruct (lookup_lt_is_Some_2 h a) as [n ->]; [apply Hl; by left|]. by eexists. }
  cbn. apply IH. intros b Hb. apply Hl. by right.
Qed.

Section LengthCheck.

Variable num_outputs : Node -> nat.
Variable DFSVisit : list Node -> list NodeEntry -> list nat.
Variable grad_fun_map : string -> option FGradient.

(** X2: when the three required attributes are read, the optional
    attributes hold, where present, an aggregator and a mirror function,
    every visited node is a node of the arena, and [grad_ys] and
    [grad_ys_out_grad] differ in length, the pass ends in the failed check
    [CHECK_EQ(ys.size(), ys_out_grad.size())], whatever the aggregator, the
    mirror policy and the registry are. *)
Theorem seed_length_mismatch_fails (h : list Node) (src : Graph)
    (ys seeds xs : list NodeEntry) :
  GetAttr_entries src "grad_ys" = Ok ys ->
  GetAttr_entries src "grad_ys_out_grad" = Ok seeds ->
  GetAttr_entries src "grad_xs" = Ok xs ->
  (forall a, attrs src !! "grad_aggregate_fun" = Some a -> exists f, a = AAggFun f) ->
  (forall a, attrs src !! "grad_mirror_fun" = Some a -> exists f, a = AMirrorFun f) ->
  (forall a, a ∈ DFSVisit h ys -> a < length h) ->
  length ys <> length seeds ->
  Gradient_run num_outputs DFSVisit grad_fun_map h src =
  Err (CheckFailed "Check failed: ys.size() == ys_out_grad.size()").
Proof.
  intros Hys Hsd Hxs Hagg Hmir Hvis Hlen. unfold Gradient_run.
  rewrite (GetAttr_entries_has_attr _ _ _ Hys), (GetAttr_entries_has_attr _ _ _ Hsd),
    (GetAttr_entries_has_attr _ _ _ Hxs). cbn. rewrite Hys, Hsd, Hxs. cbn.
  assert (forall agg_fun mirror_fun,
            Gradient_body num_outputs DFSVisit grad_fun_map agg_fun mirror_fun ys seeds xs h
            = Err (CheckFailed "Check failed: ys.size() == ys_out_grad.size()")) as Hbody.
  { intros agg_fun mirror_fun. unfold Gradient_body.
    destruct (visit_fold_total num_outputs h (DFSVisit h ys) ∅ Hvis) as [og ->]. cbn.
    by rewrite bool_decide_eq_false_2 by done. }
  assert (exists agg_fun,
            (if has_attr src "grad_aggregate_fun" then GetAttr_agg src "grad_aggregate_fun"
             else Ok DefaultAggregateGradient) = Ok agg_fun) as [agg_fun ->].
  { unfold has_attr, GetAttr_agg.
    destruct (attrs src !! "grad_aggregate_fun") as [a|] eqn:Ha.
    - destruct (Hagg a eq_refl) as [f ->].
      rewrite bool_decide_eq_true_2 by (by eexists). by eexists.
    - rewrite bool_decide_eq_false_2 by (by intros [? ?]). by eexists. }
  assert (exists mirror_fun,
            (if has_attr src "grad_mirror_fun"
             then f ← GetAttr_mirror src "grad_mirror_fun"; mret (Some f)
             else Ok None) = Ok mirror_fun) as [mirror_fun ->].
  { unfold has_attr, GetAttr_mirror.
    destruct (attrs src !! "grad_mirror_fun") as [a|] eqn:Ha.
    - destruct (Hmir a eq_refl) as [f ->].
      rewrite bool_decide_eq_true_2 by (by eexists). by eexists.
    - rewrite bool_decide_eq_false_2 by (by intros [? ?]). by eexists. }
  cbn. apply Hbody.
Qed.

End LengthCheck.

Lemma seed_length_mismatch_fails_witness :
  run chain (bundle [out0 1] [out0 2; out0 2] [out0 0]) =
  Err (CheckFailed "Check failed: ys.size() == ys_out_grad.size()").
Proof.
  apply (seed_length_mismatch_fails one_output DFSVisit_model registry chain _
           [out0 1] [out0 2; out0 2] [out0 0]); try reflexivity.
  - intros a Ha. vm_compute in Ha. discriminate Ha.
  - intros a Ha. vm_compute in Ha. discriminate Ha.
  - intros a Ha. vm_compute in Ha.
    repeat (apply elem_of_cons in Ha as [->|Ha]); [cbn; lia..|by apply elem_of_nil in Ha].
  - cbn. lia.
Defined.

(** ** The table of pending-gradient slots *)

(** The number of slots each key of the table holds. *)
Lemma slot_set_lengths og a i ge :
  length <$> slot_set og a i ge = length <$> og.
Proof.
  apply map_eq. intros b. rewrite !lookup_fmap, slot_set_lookup.
  case_decide; [|done]. destruct (og !! b) as [vec|]; [|done]. cbn.
  by rewrite length_insert.
Qed.

Lemma init_seeds_lengths ys : forall seeds og og',
  init_seeds ys seeds og = Ok og' -> length <$> og' = length <$> og.
Proof.
  induction ys as [|y ys IH]; intros seeds og og' Hrun.
  - by injection Hrun as <-.
  - destruct seeds as [|s seeds]; [by injection Hrun as <-|].
    cbn [init_seeds] in Hrun. apply bind_Ok_inv in Hrun as ([a ge] & _ & Hrun).
    apply IH in Hrun. by rewrite Hrun, slot_set_lengths.
Qed.

Lemma scatter_lengths ins : forall gs og og',
  scatter ins gs og = Ok og' -> length <$> og' = length <$> og.
Proof.
  induction ins as [|it ins IH]; intros gs og og' Hrun.
  - by injection Hrun as <-.
  - destruct gs as [|g gs]; [done|].
    cbn [scatter] in Hrun. apply bind_Ok_inv in Hrun as ([a ge] & _ & Hrun).
    apply IH in Hrun. by rewrite Hrun, slot_set_lengths.
Qed.

Lemma backward_step_lengths grad_fun_map agg_fun st ptr st' :
  backward_step grad_fun_map agg_fun st ptr = Ok st' ->
  length <$> output_grads st' = length <$> output_grads st.
Proof.
  unfold backward_step. intros Hrun.
  apply bind_Ok_inv in Hrun as (n & Hn & Hrun).
  destruct (is_variable n); [by injection Hrun as <-|].
  apply bind_Ok_inv in Hrun as (vec & Hvec%map_at_Ok_inv & Hrun).
  destruct (agg_entries agg_fun ptr 0 vec (heap st)) as [[[vec' ogs] h1] evs] eqn:Hagg.
  apply agg_entries_inv in Hagg as (Hlen & _).
  apply bind_Ok_inv in Hrun as (G & _ & Hrun).
  apply bind_Ok_inv in Hrun as (q & _ & Hrun).
  destruct (G h1 q ogs) as [created igs].
  apply bind_Ok_inv in Hrun as (og & Hsc & [= <-]). cbn.
  rewrite (scatter_lengths _ _ _ _ Hsc), fmap_insert, Hlen.
  apply insert_id. by rewrite lookup_fmap, Hvec.
Qed.

Lemma backward_fold_lengths grad_fun_map agg_fun l : forall st st',
  foldM (backward_step grad_fun_map agg_fun) st l = Ok st' ->
  length <$> output_grads st' = length <$> output_grads st.
Proof.
  induction l as [|p l IH]; intros st st' Hrun; [by injection Hrun as <-|].
  cbn [foldM] in Hrun. apply bind_Ok_inv in Hrun as (st1 & Hstep & Hrun).
  rewrite (IH _ _ Hrun). by eapply backward_step_lengths.
Qed.

Lemma take_out_fold_lengths agg_fun xs : forall outs st outs' st',
  foldM (take_out agg_fun) (outs, st) xs = Ok (outs', st') ->
  length <$> output_grads st' = length <$> output_grads st.
Proof.
  induction xs as [|e xs IH]; intros outs st outs' st' Hrun; [by injection Hrun as <- <-|].
  cbn [foldM] in Hrun. apply bind_Ok_inv in Hrun as ([outs1 st1] & Hstep & Hrun).
  rewrite (IH _ _ _ _ Hrun). unfold take_out in Hstep.
  apply bind_Ok_inv in Hstep as ([a entry] & _ & Hstep).
  destruct (node (sum entry)); injection Hstep as <- <-; cbn; apply slot_set_lengths.
Qed.

Lemma visit_fold_lengths num_outputs h l : forall og og',
  foldM (visit num_outputs h) og l = Ok og' ->
  (forall a len, (length <$> og) !! a = Some len ->
     exists n, h !! a = Some n /\ len = num_outputs n) ->
  forall a len, (length <$> og') !! a = Some len ->
    exists n, h !! a = Some n /\ len = num_outputs n.
Proof.
  induction l as [|b l IH]; intros og og' Hrun Hog; [by injection Hrun as <-|].
  cbn [foldM] in Hrun. apply bind_Ok_inv in Hrun as (og1 & Hv & Hrun).
  apply (IH _ _ Hrun). unfold visit in Hv. destruct (og !! b) as [vec|] eqn:Hb.
  - by injection Hv as <-.
  - apply bind_Ok_inv in Hv as (n & Hn%deref_Ok_inv & [= <-]).
    intros a len. rewrite fmap_insert. intros Ha.
    apply lookup_insert_Some in Ha as [[<- <-]|[_ Ha]]; [|by apply Hog].
    exists n. by rewrite length_replicate.
Qed.

Section SlotTable.

Variable num_outputs : Node -> nat.
Variable DFSVisit : list Node -> list NodeEntry -> list nat.
Variable grad_fun_map : string -> option FGradient.

Lemma Gradient_body_lengths agg_fun mirror_fun ys seeds xs h g st og0 :
  Gradient_body num_outputs DFSVisit grad_fun_map agg_fun mirror_fun ys seeds xs h
    = Ok (g, st) ->
  foldM (visit num_outputs h) ∅ (DFSVisit h ys) = Ok og0 ->
  length <$> output_grads st = length <$> og0.
Proof.
  intros Hrun Hvis0.
  apply Gradient_body_inv in Hrun
    as (og0' & og1 & h1 & mm & st1 & outs & Hvis & _ & Hseed & _ & Hback & Hout & _).
  rewrite Hvis0 in Hvis. injection Hvis as <-.
  rewrite (take_out_fold_lengths _ _ _ _ _ _ Hout), (backward_fold_lengths _ _ _ _ _ Hback).
  cbn. by eapply init_seeds_lengths.
Qed.

(** X5: in a completed run the keys of the table of pending gradients are
    exactly the visited nodes, and the vector of every key has as many slots
    as its node has outputs: seeding, aggregation, scattering and the output
    loop never add a key and never resize a vector. *)
Theorem slot_table_shape (h : list Node) (src : Graph) (g : Graph) (st : St)
    (ys : list NodeEntry) :
  Gradient_run num_outputs DFSVisit grad_fun_map h src = Ok (g, st) ->
  GetAttr_entries src "grad_ys" = Ok ys ->
  (forall a, a ∈ dom (output_grads st) <-> a ∈ DFSVisit h ys) /\
  (forall a vec, output_grads st !! a = Some vec ->
     exists n, h !! a = Some n /\ length vec = num_outputs n).
Proof.
  intros (ys' & seeds & xs & agg_fun & mirror_fun & Hys & _ & _ & _ & _ & Hbody)%Gradient_run_inv
    Hys'.
  assert (ys' = ys) as -> by congruence.
  pose proof Hbody as Hinv. apply Gradient_body_inv in Hinv
    as (og0 & og1 & h1 & mm & st1 & outs & Hvis & _ & Hseed & _ & Hback & Hout & _).
  pose proof (Gradient_body_lengths _ _ _ _ _ _ _ _ _ Hbody Hvis) as Hlen.
  split.
  - intros a.
    assert (a ∈ dom (output_grads st) <-> a ∈ dom og0) as ->.
    { rewrite <- (dom_fmap_L length (output_grads st)), Hlen, dom_fmap_L. done. }
    split.
    + intros Ha. destruct (visit_fold_keys num_outputs _ _ _ _ Hvis a Ha) as [Hin|]; [|done].
      by rewrite dom_empty_L in Hin.
    + by apply (visit_fold_dom num_outputs _ _ _ _ Hvis).
  - intros a vec Ha.
    apply (visit_fold_lengths num_outputs h _ _ _ Hvis).
    + intros b len Hb. by rewrite fmap_empty, lookup_empty in Hb.
    + by rewrite <- Hlen, lookup_fmap, Ha.
Qed.

End SlotTable.

Lemma slot_table_shape_witness :
  exists g st,
    run diamond (bundle [out0 3] [out0 4] [out0 0]) = Ok (g, st) /\
    (forall a, a ∈ dom (output_grads st) <-> a ∈ DFSVisit_model diamond [out0 3]) /\
    (forall a vec, output_grads st !! a = Some vec ->
       exists n, diamond !! a = Some n /\ length vec = one_output n).
Proof.
  eassert (Hrun : run diamond (bundle [out0 3] [out0 4] [out0 0]) = Ok (_, _))
    by (vm_compute; reflexivity).
  eexists _, _. split; [exact Hrun|].
  exact (slot_table_shape one_output DFSVisit_model registry diamond
           {| outputs := []; attrs := bundle [out0 3] [out0 4] [out0 0] |} _ _ [out0 3]
           Hrun eq_refl).
Defined.

Lemma Gradient_run_outputs_length_witness :
  exists g st,
    run diamond (bundle [out0 3] [out0 4] [out0 0; out0 1; out0 0]) = Ok (g, st) /\
    length (outputs g) = 3 /\ attrs g = ∅.
Proof.
  eassert (Hrun : run diamond (bundle [out0 3] [out0 4] [out0 0; out0 1; out0 0]) = Ok (_, _))
    by (vm_compute; reflexivity).
  eexists _, _. split; [exact Hrun|].
  exact (Gradient_run_outputs_length one_output DFSVisit_model registry diamond
           {| outputs := []; attrs := bundle [out0 3] [out0 4] [out0 0; out0 1; out0 0] |}
           _ _ [out0 0; out0 1; out0 0] Hrun eq_refl).
Defined.

Lemma Gradient_run_requests_visited_witness :
  exists g st,
    run diamond (bundle [out0 1] [out0 4] [out0 0]) = Ok (g, st) /\
    forall e, e ∈ [out0 0] ->
      exists a, node e = Some a /\ a ∈ DFSVisit_model diamond [out0 1].
Proof.
  eassert (Hrun : run diamond (bundle [out0 1] [out0 4] [out0 0]) = Ok (_, _))
    by (vm_compute; reflexivity).
  eexists _, _. split; [exact Hrun|].
  exact (Gradient_run_requests_visited one_output DFSVisit_model registry diamond
           {| outputs := []; attrs := bundle [out0 1] [out0 4] [out0 0] |}
           _ _ [out0 1] [out0 0] Hrun eq_refl eq_refl).
Defined.

(** ** Where a slot exists *)

Lemma slot_exists_lengths og e :
  (exists r, slot_at og e = Ok r) <->
  exists a len, node e = Some a /\ (length <$> og) !! a = Some len /\ index e < len.
Proof.
  split.
  - intros [[a ge] (Hn & vec & Hv & Hi)%slot_at_inv].
    exists a, (length vec). split; [done|]. rewrite lookup_fmap, Hv. split; [done|].
    by eapply lookup_lt_Some.
  - intros (a & len & Hn & Hlen & Hi). rewrite lookup_fmap in Hlen.
    destruct (og !! a) as [vec|] eqn:Hv; [|done]. injection Hlen as <-.
    destruct (lookup_lt_is_Some_2 vec (index e) Hi) as [ge Hge].
    exists (a, ge). by eapply slot_at_intro.
Qed.

Lemma slot_exists_transfer og og' e :
  length <$> og' = length <$> og ->
  (exists r, slot_at og' e = Ok r) <-> (exists r, slot_at og e = Ok r).
Proof. intros Hlen. by rewrite !slot_exists_lengths, Hlen. Qed.

Lemma slot_at_err og e f : slot_at og e = Err f -> f = Undefined.
Proof. unfold slot_at. repeat case_match; congruence. Qed.

(** ** Seed initialisation, in general *)

Lemma init_seeds_frame ys : forall seeds og og' e,
  init_seeds ys seeds og = Ok og' ->
  slot_key e ∉ slot_key <$> ys -> slot_at og' e = slot_at og e.
Proof.
  induction ys as [|y ys IH]; intros seeds og og' e Hrun He.
  - by injection Hrun as <-.
  - destruct seeds as [|s seeds]; [by injection Hrun as <-|].
    cbn [init_seeds] in Hrun. apply bind_Ok_inv in Hrun as ([a ge] & Hy & Hrun).
    rewrite fmap_cons, not_elem_of_cons in He. destruct He as [He1 He2].
    rewrite (IH _ _ _ _ Hrun He2). apply slot_at_set_other.
    apply slot_at_inv in Hy as (Hn & _). unfold slot_key in *. by rewrite <- Hn.
Qed.

Lemma init_seeds_sum ys : forall seeds og og' e a ge,
  init_seeds ys seeds og = Ok og' -> slot_at og' e = Ok (a, ge) ->
  exists ge0, slot_at og e = Ok (a, ge0) /\ sum ge = sum ge0.
Proof.
  induction ys as [|y ys IH]; intros seeds og og' e a ge Hrun He.
  - injection Hrun as <-. by exists ge.
  - destruct seeds as [|s seeds]; [injection Hrun as <-; by exists ge|].
    cbn [init_seeds] in Hrun. apply bind_Ok_inv in Hrun as ([b gb] & Hy & Hrun).
    destruct (IH _ _ _ _ _ _ Hrun He) as (ge1 & He1 & Hsum).
    destruct (decide (slot_key e = slot_key y)) as [Heq|Hne].
    + rewrite (slot_at_set_same og y e b gb _ Hy Heq) in He1. injection He1 as <- <-.
      exists gb. split; [|by rewrite Hsum].
      apply slot_at_inv in Hy as (Hn & vec & Hv & Hi). injection Heq as Hq Hq'.
      apply slot_at_intro with (vec := vec); congruence.
    + rewrite slot_at_set_other in He1.
      * by exists ge1.
      * apply slot_at_inv in Hy as (Hn & _). unfold slot_key in *. by rewrite <- Hn.
Qed.

Lemma init_seeds_succeeds ys : forall seeds og,
  length ys = length seeds ->
  (exists og', init_seeds ys seeds og = Ok og') <->
  Forall (fun y => exists r, slot_at og y = Ok r) ys.
Proof.
  induction ys as [|y ys IH]; intros seeds og Hlen.
  - split; [done|]. intros _. by exists og.
  - destruct seeds as [|s seeds]; [done|]. injection Hlen as Hlen.
    cbn [init_seeds]. rewrite Forall_cons. split.
    + intros [og' Hrun]. apply bind_Ok_inv in Hrun as ([a ge] & Hy & Hrun).
      split; [by eexists|].
      assert (exists og', init_seeds ys seeds
                (slot_set og a (index y) {| sum := sum ge; grads := [s] |}) = Ok og')
        as Hex by eauto.
      apply (IH seeds _ Hlen) in Hex.
      eapply Forall_impl; [exact Hex|]. intros e He. cbn in He.
      by rewrite slot_exists_transfer in He by apply slot_set_lengths.
    + intros [[[a ge] Hy] Hall]. rewrite Hy. cbn.
      apply (IH seeds _ Hlen).
      eapply Forall_impl; [exact Hall|]. intros e He. cbn.
      by rewrite slot_exists_transfer by apply slot_set_lengths.
Qed.

(** X6: seed initialisation, for [grad_ys] and [grad_ys_out_grad] of equal
    length.  It completes exactly when every entry of [grad_ys] has a slot
    (its node holds a vector and its index is within it), and fails as
    undefined otherwise.  When it completes it changes no slot outside
    [grad_ys] and no aggregated field [sum] at all. *)
Theorem init_seeds_effect (ys seeds : list NodeEntry) (og : gmap nat (list GradEntry)) :
  length ys = length seeds ->
  ((exists og', init_seeds ys seeds og = Ok og') <->
   Forall (fun y => exists r, slot_at og y = Ok r) ys) /\
  (forall f, init_seeds ys seeds og = Err f -> f = Undefined) /\
  (forall og' e, init_seeds ys seeds og = Ok og' ->
     slot_key e ∉ slot_key <$> ys -> slot_at og' e = slot_at og e) /\
  (forall og' e a ge, init_seeds ys seeds og = Ok og' -> slot_at og' e = Ok (a, ge) ->
     exists ge0, slot_at og e = Ok (a, ge0) /\ sum ge = sum ge0).
Proof.
  intros Hlen. split; [by apply init_seeds_succeeds|]. split; [|split].
  - clear Hlen. revert seeds og. induction ys as [|y ys IH]; intros seeds og f Hrun.
    + by destruct seeds.
    + destruct seeds as [|s seeds]; [done|]. cbn [init_seeds] in Hrun.
      destruct (slot_at og y) as [[a ge]|f'] eqn:Hy; cbn in Hrun.
      * by eapply IH.
      * injection Hrun as <-. by eapply slot_at_err.
  - intros og' e. apply init_seeds_frame.
  - intros og' e a ge. apply init_seeds_sum.
Qed.

Lemma init_seeds_effect_witness :
  (exists og', init_seeds [out0 1] [out0 2] {[1 := [new_GradEntry]]} = Ok og') <->
  Forall (fun y => exists r, slot_at {[1 := [new_GradEntry]]} y = Ok r) [out0 1].
Proof.
  exact (proj1 (init_seeds_effect [out0 1] [out0 2] {[1 := [new_GradEntry]]} eq_refl)).
Defined.

(** ** Scatter, in general *)

(** X7: the scatter loop completes exactly when the gradient function
    returned at least one entry per input and every input entry has a slot;
    in every other case it is undefined behaviour (it reads past the end of
    the returned list or indexes a vector out of range): it never raises an
    error of its own. *)
Theorem scatter_succeeds_iff (ins input_grads : list NodeEntry)
    (og : gmap nat (list GradEntry)) :
  ((exists og', scatter ins input_grads og = Ok og') <->
   length ins <= length input_grads /\
   Forall (fun it => exists r, slot_at og it = Ok r) ins) /\
  (forall f, scatter ins input_grads og = Err f -> f = Undefined).
Proof.
  revert input_grads og. induction ins as [|it ins IH]; intros gs og.
  - split; [|done]. split; [intros _; split; [cbn; lia|done]|]. intros _. by exists og.
  - destruct gs as [|g gs].
    + split; [|by intros f [= <-]]. split; [by intros [og' Hrun]|].
      intros [Hlen _]. cbn in Hlen. lia.
    + cbn [scatter length]. destruct (slot_at og it) as [[a ge]|f'] eqn:Hit; cbn.
      * destruct (IH gs (slot_set og a (index it)
                           {| sum := sum ge; grads := grads ge ++ [g] |})) as [IH1 IH2].
        split; [|exact IH2]. rewrite IH1, Forall_cons. split.
        -- intros [Hlen Hall]. split; [lia|]. split; [by eexists|].
           eapply Forall_impl; [exact Hall|]. intros e He. cbn in He.
           by rewrite slot_exists_transfer in He by apply slot_set_lengths.
        -- intros (Hlen & _ & Hall). split; [lia|].
           eapply Forall_impl; [exact Hall|]. intros e He. cbn.
           by rewrite slot_exists_transfer by apply slot_set_lengths.
      * split; [|intros f [= <-]; by eapply slot_at_err].
        split; [by intros [og' Hrun]|].
        intros (_ & [[r Hr] _]%Forall_cons). congruence.
Qed.

Lemma scatter_succeeds_iff_witness :
  exists og', scatter [out0 1] [out0 2; out0 3] {[1 := [new_GradEntry]]} = Ok og'.
Proof.
  apply (proj2 (proj1 (scatter_succeeds_iff [out0 1] [out0 2; out0 3]
                         {[1 := [new_GradEntry]]}))).
  split; [cbn; lia|]. constructor; [by eexists|constructor].
Defined.

(** ** The order of the calls *)

Lemma agg_entries_events agg_fun a vec : forall i h vec' outs h' evs,
  agg_entries agg_fun a i vec h = (vec', outs, h', evs) ->
  evs = EvAgg a <$> seq i (length vec).
Proof.
  induction vec as [|e vec IH]; intros i h vec' outs h' evs Hrun.
  - by injection Hrun as <- <- <- <-.
  - cbn [agg_entries] in Hrun.
    destruct (agg_entries agg_fun a (S i) vec (h ++ agg_nodes (agg_fun h (grads e))))
      as [[[vec1 outs1] h1] evs1] eqn:Hrec.
    injection Hrun as <- <- <- <-. apply IH in Hrec as ->. done.
Qed.

Section CallOrder.

Variable num_outputs : Node -> nat.
Variable grad_fun_map : string -> option FGradient.
Variable h0 : list Node.

#[local] Abbreviation call_inv := (backward_inv num_outputs h0).

Lemma backward_step_events agg_fun st ptr st' :
  ptr < length h0 -> call_inv st ->
  backward_step grad_fun_map agg_fun st ptr = Ok st' ->
  trace st' = trace st ++ backward_events num_outputs h0 (mirror_map st) ptr.
Proof.
  intros Hptr [[c Hheap] Hlen] Hrun. unfold backward_step in Hrun.
  apply bind_Ok_inv in Hrun as (n & Hn%deref_Ok_inv & Hrun).
  rewrite Hheap, lookup_app_l in Hn by done.
  unfold backward_events. rewrite Hn.
  destruct (is_variable n); [injection Hrun as <-; by rewrite app_nil_r|].
  apply bind_Ok_inv in Hrun as (vec & Hvec%map_at_Ok_inv & Hrun).
  destruct (agg_entries agg_fun ptr 0 vec (heap st)) as [[[vec' ogs] h1] evs] eqn:Hagg.
  apply agg_entries_events in Hagg as ->.
  apply bind_Ok_inv in Hrun as (G & _ & Hrun).
  apply bind_Ok_inv in Hrun as (q & Hq & Hrun).
  destruct (G h1 q ogs) as [created igs].
  apply bind_Ok_inv in Hrun as (og & _ & [= <-]). cbn.
  destruct (Hlen ptr (length vec)) as (n' & Hn' & ->); [by rewrite lookup_fmap, Hvec|].
  assert (n' = n) as -> by congruence.
  do 3 f_equal. unfold gradient_arg. case_bool_decide.
  - by injection Hq as <-.
  - apply map_at_Ok_inv in Hq. by rewrite Hq.
Qed.

Lemma backward_fold_events agg_fun l : forall st st',
  (forall p, p ∈ l -> p < length h0) -> call_inv st ->
  foldM (backward_step grad_fun_map agg_fun) st l = Ok st' ->
  trace st' = trace st ++ flat_map (backward_events num_outputs h0 (mirror_map st)) l.
Proof.
  induction l as [|p l IH]; intros st st' Hl Hinv Hrun.
  - injection Hrun as <-. by rewrite app_nil_r.
  - cbn [foldM] in Hrun. apply bind_Ok_inv in Hrun as (st1 & Hstep & Hrun).
    pose proof (backward_step_events _ _ _ _ (Hl p ltac:(by left)) Hinv Hstep) as Htr.
    pose proof (backward_step_lengths _ _ _ _ _ Hstep) as Hlens.
    pose proof (backward_step_inv _ _ _ _ _ Hstep) as (_ & Hmm & [c1 Hh1] & _).
    rewrite (IH st1 st'); [| |  |done].
    + rewrite Htr, Hmm. cbn [flat_map]. by rewrite app_assoc.
    + intros q Hq. apply Hl. by right.
    + destruct Hinv as [[c Hh] Hlen]. split.
      * exists (c ++ c1). by rewrite Hh1, Hh, app_assoc.
      * by rewrite Hlens.
Qed.

End CallOrder.

Lemma take_out_fold_events agg_fun xs : forall outs st outs' st',
  foldM (take_out agg_fun) (outs, st) xs = Ok (outs', st') ->
  exists evs, trace st' = trace st ++ evs /\ length evs <= length xs /\
    Forall (fun ev => exists e a, e ∈ xs /\ node e = Some a /\ ev = EvAgg a (index e)) evs.
Proof.
  induction xs as [|e xs IH]; intros outs st outs' st' Hrun.
  - injection Hrun as <- <-. exists []. by rewrite app_nil_r.
  - cbn [foldM] in Hrun. apply bind_Ok_inv in Hrun as ([outs1 st1] & Hstep & Hrun).
    destruct (IH _ _ _ _ Hrun) as (evs & Htr & Hlen & Hall).
    unfold take_out in Hstep. apply bind_Ok_inv in Hstep as ([a entry] & Hs & Hstep).
    apply slot_at_inv in Hs as (Hn & _).
    assert (Hall' : Forall (fun ev => exists e0 a0, e0 ∈ e :: xs /\ node e0 = Some a0 /\
                                        ev = EvAgg a0 (index e0)) evs).
    { eapply Forall_impl; [exact Hall|]. intros ev (e0 & a0 & He0 & H).
      exists e0, a0. split; [by right|done]. }
    destruct (node (sum entry)); injection Hstep as <- <-; cbn in Htr.
    + exists evs. rewrite Htr, app_nil_r. split; [done|]. split; [cbn; lia|done].
    + exists (EvAgg a (index e) :: evs). rewrite Htr, <- app_assoc.
      split; [done|]. split; [cbn; lia|]. constructor; [|done].
      exists e, a. split; [by left|done].
Qed.

Section CallOrderRun.

Variable num_outputs : Node -> nat.
Variable DFSVisit : list Node -> list NodeEntry -> list nat.
Variable grad_fun_map : string -> option FGradient.

(** X8: the calls a completed run makes.  The backward loop goes through
    the visited nodes in reverse visit order; for every node that is not a
    variable it aggregates each output slot once, in index order, and then
    calls the gradient function once, with the node itself or with what the
    mirror map holds for it.  After that come only aggregations of the
    output loop, at most one per requested entry and each on the slot of a
    requested entry. *)
Theorem callback_order (h : list Node) (src : Graph) (g : Graph) (st : St)
    (ys xs : list NodeEntry) :
  Gradient_run num_outputs DFSVisit grad_fun_map h src = Ok (g, st) ->
  GetAttr_entries src "grad_ys" = Ok ys ->
  GetAttr_entries src "grad_xs" = Ok xs ->
  exists evs,
    trace st =
      flat_map (backward_events num_outputs h (mirror_map st)) (rev (DFSVisit h ys)) ++ evs /\
    length evs <= length xs /\
    Forall (fun ev => exists e a, e ∈ xs /\ node e = Some a /\ ev = EvAgg a (index e)) evs.
Proof.
  intros (ys' & seeds & xs' & agg_fun & mirror_fun & Hys & _ & Hxs & _ & _ & Hbody)%Gradient_run_inv
    Hys' Hxs'.
  assert (ys' = ys) as -> by congruence. assert (xs' = xs) as -> by congruence.
  apply Gradient_body_inv in Hbody
    as (og0 & og1 & h1 & mm & st1 & outs & Hvis & _ & Hseed & Hmir & Hback & Hout & _).
  destruct (visit_fold_dom num_outputs _ _ _ _ Hvis) as (Hkeys & Htopo & _).
  assert (Hlt : forall a, a ∈ DFSVisit h ys -> a < length h).
  { intros a Ha. destruct (Hkeys a (Htopo a Ha)) as [Hin|]; [|done].
    by rewrite dom_empty_L in Hin. }
  assert (Hh1 : exists created, h1 = h ++ created).
  { destruct mirror_fun as [f|].
    - assert (mirror_inv h (h1, mm)) as [Hc _]; [|exact Hc].
      eapply (foldM_inv (mirror_inv h)); [| |exact Hmir].
      + split; [by exists []; rewrite app_nil_r|]. intros a q Ha. cbn in Ha.
        by rewrite lookup_empty in Ha.
      + intros acc a acc' Hacc Ha. apply mirror_step_inv; [|done]. by apply Hlt.
    - injection Hmir as <- <-. exists []. by rewrite app_nil_r. }
  assert (Hinv : backward_inv num_outputs h (mkSt h1 og1 mm [])).
  { split; [exact Hh1|]. cbn. rewrite (init_seeds_lengths _ _ _ _ Hseed).
    apply (visit_fold_lengths num_outputs h _ _ _ Hvis).
    intros b len Hb. by rewrite fmap_empty, lookup_empty in Hb. }
  assert (Hlt' : forall p, p ∈ rev (DFSVisit h ys) -> p < length h).
  { intros p Hp%list_elem_of_In%in_rev%list_elem_of_In. by apply Hlt. }
  pose proof (backward_fold_events num_outputs grad_fun_map h agg_fun _ _ _
                Hlt' Hinv Hback) as Hev.
  cbn in Hev.
  destruct (take_out_fold_events _ _ _ _ _ _ Hout) as (evs & Htr & Hlen & Hall).
  apply backward_fold_inv in Hback as (_ & Hm1 & _).
  apply take_out_fold_inv in Hout as (_ & Hm2 & _). cbn in Hm1.
  exists evs. split; [|done]. by rewrite Htr, Hev, Hm2, Hm1.
Qed.

End CallOrderRun.

Lemma callback_order_witness :
  exists g st evs,
    run diamond (bundle_mirror mirror_all [out0 3] [out0 4] [out0 0; out0 1]) = Ok (g, st) /\
    trace st =
      flat_map (backward_events one_output diamond (mirror_map st))
        (rev (DFSVisit_model diamond [out0 3])) ++ evs /\
    length evs <= 2.
Proof.
  eassert (Hrun : run diamond (bundle_mirror mirror_all [out0 3] [out0 4] [out0 0; out0 1])
                  = Ok (_, _)) by (vm_compute; reflexivity).
  destruct (callback_order one_output DFSVisit_model registry diamond
              {| outputs := [];
                 attrs := bundle_mirror mirror_all [out0 3] [out0 4] [out0 0; out0 1] |}
              _ _ [out0 3] [out0 0; out0 1] Hrun eq_refl eq_refl)
    as (evs & Htr & Hlen & _).
  eexists _, _, evs. split; [exact Hrun|]. split; [exact Htr|exact Hlen].
Defined.

(** ** The mirror loop *)

Lemma map_at_Ok_iff {V : Type} (m : gmap nat V) (p : NodePtr) (v : V) :
  map_at m p = Ok v <-> exists b, p = Some b /\ m !! b = Some v.
Proof.
  unfold map_at. destruct p as [b|].
  - destruct (m !! b) as [v'|] eqn:Hb; split.
    + intros [= <-]. by exists b.
    + intros (b' & [= <-] & Hv). congruence.
    + done.
    + intros (b' & [= <-] & Hv). congruence.
  - split; [done|]. by intros (b & ? & _).
Qed.

Lemma map_at_err {V : Type} (m : gmap nat V) (p : NodePtr) (f : Failure) :
  map_at m p = Err f -> f = OutOfRange.
Proof. unfold map_at. repeat case_match; congruence. Qed.

Lemma mirror_inputs_Ok (mm : gmap nat NodePtr) (ins : list NodeEntry) :
  forall r,
  mapM (M := Result)
    (fun e => m ← map_at mm (node e);
              mret {| node := m; index := index e; version := version e |}) ins = Ok r <->
  Forall (fun e => exists b, node e = Some b /\ is_Some (mm !! b)) ins /\
  r = (fun e => {| node := mirror_get mm (node e); index := index e;
                   version := version e |}) <$> ins.
Proof.
  induction ins as [|e ins IH]; intros r.
  - cbn. split; [by intros [= <-]|]. by intros [_ ->].
  - cbn [mapM]. rewrite Forall_cons, fmap_cons. split.
    + intros Hrun. apply bind_Ok_inv in Hrun as (x & Hx & Hrun).
      apply bind_Ok_inv in Hx as (m & (b & Hb & Hm)%map_at_Ok_iff & [= <-]).
      apply bind_Ok_inv in Hrun as (r' & Hr' & [= <-]).
      apply IH in Hr' as [Hall ->]. split; [split; [by exists b|done]|].
      unfold mirror_get. rewrite Hb. cbn. by rewrite Hm.
    + intros [[(b & Hb & [m Hm]) Hall] ->].
      assert (map_at mm (node e) = Ok m) as -> by (apply map_at_Ok_iff; eauto).
      cbn. rewrite (proj2 (IH _) (conj Hall eq_refl)). cbn.
      unfold mirror_get. rewrite Hb. cbn. by rewrite Hm.
Qed.

Lemma mirror_deps_Ok (mm : gmap nat NodePtr) (deps : list NodePtr) :
  forall r,
  mapM (M := Result) (fun p => map_at mm p) deps = Ok r <->
  Forall (fun p => exists b, p = Some b /\ is_Some (mm !! b)) deps /\
  r = mirror_get mm <$> deps.
Proof.
  induction deps as [|p deps IH]; intros r.
  - cbn. split; [by intros [= <-]|]. by intros [_ ->].
  - cbn [mapM]. rewrite Forall_cons, fmap_cons. split.
    + intros Hrun. apply bind_Ok_inv in Hrun as (m & (b & Hb & Hm)%map_at_Ok_iff & Hrun).
      apply bind_Ok_inv in Hrun as (r' & Hr' & [= <-]).
      apply IH in Hr' as [Hall ->]. split; [split; [by exists b|done]|].
      unfold mirror_get. rewrite Hb. cbn. by rewrite Hm.
    + intros [[(b & Hb & [m Hm]) Hall] ->].
      assert (map_at mm p = Ok m) as -> by (apply map_at_Ok_iff; eauto).
      cbn. rewrite (proj2 (IH _) (conj Hall eq_refl)). cbn.
      unfold mirror_get. rewrite Hb. cbn. by rewrite Hm.
Qed.

(** One iteration, read off its result. *)
Lemma mirror_step_spec f h mm a n :
  h !! a = Some n ->
  (f n = 0%Z -> mirror_step f (h, mm) a = Ok (h, <[a := Some a]> mm)) /\
  (f n <> 0%Z ->
     (forall acc, mirror_step f (h, mm) a = Ok acc <->
        mirror_ready mm n /\
        acc = (h ++ [mirror_of mm n], <[a := Some (length h)]> mm)) /\
     (forall e, mirror_step f (h, mm) a = Err e -> e = OutOfRange)).
Proof.
  intros Hn. unfold mirror_step, deref. rewrite Hn. cbn. split.
  - intros ->. by rewrite bool_decide_eq_false_2 by (intros H; by apply H).
  - intros Hf. rewrite bool_decide_eq_true_2 by done. split.
    + intros acc. split.
      * intros Hrun. apply bind_Ok_inv in Hrun as (ins & Hins%mirror_inputs_Ok & Hrun).
        apply bind_Ok_inv in Hrun as (deps & Hdeps%mirror_deps_Ok & [= <-]).
        destruct Hins as [Hi ->], Hdeps as [Hd ->]. by split.
      * intros [[Hi Hd] ->].
        rewrite (proj2 (mirror_inputs_Ok mm (inputs n) _) (conj Hi eq_refl)). cbn.
        by rewrite (proj2 (mirror_deps_Ok mm (control_deps n) _) (conj Hd eq_refl)).
    + intros e Hrun.
      destruct (mapM _ (inputs n)) as [ins|e1] eqn:Hins; cbn in Hrun.
      * destruct (mapM _ (control_deps n)) as [deps|e2] eqn:Hdeps; cbn in Hrun; [done|].
        injection Hrun as <-. clear Hins. revert e2 Hdeps.
        induction (control_deps n) as [|p deps' IH]; intros e2 Hdeps; [done|].
        cbn [mapM] in Hdeps. destruct (map_at mm p) as [m|e3] eqn:Hp; cbn in Hdeps.
        -- destruct (mapM _ deps') as [r|e4] eqn:Hr; cbn in Hdeps; [done|].
           injection Hdeps as <-. by eapply IH.
        -- injection Hdeps as <-. by eapply map_at_err.
      * injection Hrun as <-. revert e1 Hins.
        induction (inputs n) as [|x ins' IH]; intros e1 Hins; [done|].
        cbn [mapM] in Hins. destruct (map_at mm (node x)) as [m|e3] eqn:Hp; cbn in Hins.
        -- destruct (mapM _ ins') as [r|e4] eqn:Hr; cbn in Hins; [done|].
           injection Hins as <-. by eapply IH.
        -- injection Hins as <-. by eapply map_at_err.
Qed.

Lemma mirror_of_agree mm mm' n :
  mm ⊆ mm' -> mirror_ready mm n -> mirror_of mm' n = mirror_of mm n.
Proof.
  intros Hsub [Hi Hd]. unfold mirror_of. f_equal.
  - apply Forall_fmap_ext_1. eapply Forall_impl; [exact Hi|].
    intros e (b & Hb & [m Hm]). cbn. f_equal. unfold mirror_get. rewrite Hb. cbn.
    by rewrite Hm, (lookup_weaken _ _ _ _ Hm Hsub).
  - apply Forall_fmap_ext_1. eapply Forall_impl; [exact Hd|].
    intros p (b & -> & [m Hm]). unfold mirror_get. cbn.
    by rewrite Hm, (lookup_weaken _ _ _ _ Hm Hsub).
Qed.

Lemma mirror_fold_spec f h l : forall c1 mm1 h' mm,
  NoDup l -> (forall a, a ∈ l -> a < length h) -> (forall a, a ∈ l -> mm1 !! a = None) ->
  foldM (mirror_step f) (h ++ c1, mm1) l = Ok (h', mm) ->
  mm1 ⊆ mm /\ dom mm = dom mm1 ∪ list_to_set l /\
  (exists c, h' = h ++ c1 ++ c) /\
  forall a n, a ∈ l -> h !! a = Some n ->
    (f n = 0%Z -> mm !! a = Some (Some a)) /\
    (f n <> 0%Z -> exists m,
       mm !! a = Some (Some m) /\ length h <= m /\ h' !! m = Some (mirror_of mm n)).
Proof.
  induction l as [|a l IH]; intros c1 mm1 h' mm Hnd Hlt Hfresh Hrun.
  - injection Hrun as <- <-. split; [done|]. split; [set_solver|].
    split; [by exists []; rewrite app_nil_r|]. intros a n Ha. by apply elem_of_nil in Ha.
  - apply NoDup_cons in Hnd as [Ha Hnd]. cbn [foldM] in Hrun.
    apply bind_Ok_inv in Hrun as ([h2 mm2] & Hstep & Hrun).
    destruct (lookup_lt_is_Some_2 h a) as [n Hn]; [apply Hlt; by left|].
    assert (Hn' : (h ++ c1) !! a = Some n) by by apply lookup_app_l_Some.
    destruct (mirror_step_spec f (h ++ c1) mm1 a n Hn') as [H0 H1].
    assert (Hfresh_a : mm1 !! a = None) by (apply Hfresh; by left).
    destruct (decide (f n = 0%Z)) as [Hf|Hf].
    + rewrite (H0 Hf) in Hstep. injection Hstep as <- <-.
      destruct (IH c1 (<[a := Some a]> mm1) h' mm Hnd) as (Hsub & Hdom & Hc & Hall);
        [intros b Hb; apply Hlt; by right
        |intros b Hb; rewrite lookup_insert_ne by (intros ->; done); apply Hfresh; by right
        |done|].
      split; [etrans; [by apply insert_subseteq|done]|].
      split; [rewrite Hdom, dom_insert_L; set_solver|]. split; [done|].
      intros b nb [->|Hb]%elem_of_cons Hnb; [|by apply Hall].
      assert (nb = n) as -> by congruence. split; [|done].
      intros _. apply (lookup_weaken _ _ _ _ (lookup_insert_eq mm1 a (Some a)) Hsub).
    + destruct (H1 Hf) as [H1' _]. apply H1' in Hstep as [Hready [= -> ->]].
      rewrite <- app_assoc in Hrun.
      destruct (IH (c1 ++ [mirror_of mm1 n]) (<[a := Some (length (h ++ c1))]> mm1) h' mm Hnd)
        as (Hsub & Hdom & [c Hc] & Hall);
        [intros b Hb; apply Hlt; by right
        |intros b Hb; rewrite lookup_insert_ne by (intros ->; done); apply Hfresh; by right
        |done|].
      assert (Hsub1 : mm1 ⊆ mm) by (etrans; [by apply insert_subseteq|done]).
      split; [done|].
      split; [rewrite Hdom, dom_insert_L; set_solver|].
      split; [exists ([mirror_of mm1 n] ++ c); by rewrite Hc, <- !app_assoc|].
      intros b nb [->|Hb]%elem_of_cons Hnb; [|by apply Hall].
      assert (nb = n) as -> by congruence. split; [done|]. intros _.
      exists (length (h ++ c1)). split; [|split].
      * apply (lookup_weaken _ _ _ _ (lookup_insert_eq mm1 a _) Hsub).
      * rewrite length_app. lia.
      * rewrite (mirror_of_agree mm1 mm n Hsub1 Hready), Hc.
        rewrite <- (app_assoc c1), (app_assoc h c1).
        rewrite lookup_app_r by done. by rewrite Nat.sub_diag.
Qed.

Section MirrorPlanner.

Variable num_outputs : Node -> nat.
Variable DFSVisit : list Node -> list NodeEntry -> list nat.
Variable grad_fun_map : string -> option FGradient.

(** X9: the mirror map of a completed run that has a mirror policy [f], when
    the visit lists no node twice.  Its keys are exactly the visited nodes.
    A node on which [f] is 0 is mapped to itself.  A node on which [f] is
    not 0 is mapped to a node created by the pass that has the same
    operator, the name with the suffix [_mirror], and the inputs and control
    dependencies of the original redirected through the map (same indices
    and versions). *)
Theorem mirror_planner (h : list Node) (src : Graph) (g : Graph) (st : St)
    (f : MirrorFun) (ys : list NodeEntry) :
  Gradient_run num_outputs DFSVisit grad_fun_map h src = Ok (g, st) ->
  attrs src !! "grad_mirror_fun" = Some (AMirrorFun f) ->
  GetAttr_entries src "grad_ys" = Ok ys ->
  NoDup (DFSVisit h ys) ->
  (forall a, a ∈ dom (mirror_map st) <-> a ∈ DFSVisit h ys) /\
  forall a n, a ∈ DFSVisit h ys -> h !! a = Some n ->
    (f n = 0%Z -> mirror_map st !! a = Some (Some a)) /\
    (f n <> 0%Z -> exists m,
       mirror_map st !! a = Some (Some m) /\ length h <= m /\
       heap st !! m = Some (mirror_of (mirror_map st) n)).
Proof.
  intros (ys' & seeds & xs & agg_fun & mirror_fun & Hys & _ & _ & _ & Hmf & Hbody)%Gradient_run_inv
    Hattr Hys' Hnd.
  assert (ys' = ys) as -> by congruence.
  assert (mirror_fun = Some f) as ->.
  { unfold has_attr, GetAttr_mirror in Hmf. rewrite Hattr in Hmf.
    rewrite bool_decide_eq_true_2 in Hmf by done. cbn in Hmf. by injection Hmf as <-. }
  apply Gradient_body_inv in Hbody
    as (og0 & og1 & h1 & mm & st1 & outs & Hvis & _ & _ & Hmir & Hback & Hout & _).
  destruct (visit_fold_dom num_outputs _ _ _ _ Hvis) as (Hkeys & Htopo & _).
  assert (Hlt : forall a, a ∈ DFSVisit h ys -> a < length h).
  { intros a Ha. destruct (Hkeys a (Htopo a Ha)) as [Hin|]; [|done].
    by rewrite dom_empty_L in Hin. }
  rewrite <- (app_nil_r h) in Hmir at 1.
  destruct (mirror_fold_spec f h _ [] ∅ h1 mm Hnd Hlt (fun a _ => lookup_empty a) Hmir)
    as (_ & Hdom & _ & Hall).
  apply backward_fold_inv in Hback as (_ & Hm1 & [c1 Hh1] & _).
  apply take_out_fold_inv in Hout as (_ & Hm2 & [c2 Hh2] & _). cbn in Hm1, Hh1.
  rewrite Hm2, Hm1. split.
  - intros a. rewrite Hdom, dom_empty_L. set_solver.
  - intros a n Ha Hn. destruct (Hall a n Ha Hn) as [H0 H1]. split; [done|].
    intros Hf. destruct (H1 Hf) as (m & Hm & Hle & Hnode).
    exists m. split; [done|]. split; [done|].
    rewrite Hh2, Hh1. by do 2 apply lookup_app_l_Some.
Qed.

End MirrorPlanner.

Lemma mirror_planner_witness :
  exists g st,
    run diamond (bundle_mirror mirror_all [out0 3] [out0 4] [out0 0]) = Ok (g, st) /\
    mirror_map st !! 3 = Some (Some 8) /\
    heap st !! 8 =
      Some (mkNode (Some "y") "y_mirror" [mkEntry (Some 6) 0 0; mkEntry (Some 7) 0 0] []).
Proof.
  eassert (Hrun : run diamond (bundle_mirror mirror_all [out0 3] [out0 4] [out0 0])
                  = Ok (_, _)) by (vm_compute; reflexivity).
  eexists _, _. split; [exact Hrun|].
  destruct (mirror_planner one_output DFSVisit_model registry diamond
              {| outputs := [];
                 attrs := bundle_mirror mirror_all [out0 3] [out0 4] [out0 0] |}
              _ _ mirror_all [out0 3] Hrun eq_refl eq_refl) as [_ Hall].
  - replace (DFSVisit_model diamond [out0 3]) with (seq 0 4) by (vm_compute; reflexivity).
    apply NoDup_seq.
  - destruct (Hall 3 (app "y" "y" [out0 1; out0 2])) as [_ H1].
    + replace (DFSVisit_model diamond [out0 3]) with [0; 1; 2; 3]
        by (vm_compute; reflexivity).
      do 3 right. by left.
    + reflexivity.
    + destruct H1 as (m & Hm & _ & Hnode); [done|].
      vm_compute in Hm. injection Hm as <-. split; [reflexivity|].
      rewrite Hnode. vm_compute. reflexivity.
Defined.

(** ** No lookup with [at] fails *)

Lemma bind_Err_inv {A B : Type} (E : Result A) (K : A -> Result B) (f : Failure) :
  (E ≫= K) = Err f -> E = Err f \/ exists a, E = Ok a /\ K a = Err f.
Proof. destruct E as [a|f']; intros H; [right; by exists a|left; by injection H as <-]. Qed.

Lemma foldM_Err_inv {A B : Type} (f : A -> B -> Result A) (l : list B) : forall a e,
  foldM f a l = Err e ->
  exists l1 x l2 a', l = l1 ++ x :: l2 /\ foldM f a l1 = Ok a' /\ f a' x = Err e.
Proof.
  induction l as [|x l IH]; intros a e Hrun; [done|].
  cbn [foldM] in Hrun. apply bind_Err_inv in Hrun as [Hx|(a1 & Hx & Hrun)].
  - by exists [], x, l, a.
  - destruct (IH _ _ Hrun) as (l1 & y & l2 & a' & -> & Hl1 & Hy).
    exists (x :: l1), y, l2, a'. split; [done|]. split; [|done]. cbn. by rewrite Hx.
Qed.

Lemma visit_err num_outputs h og a f :
  visit num_outputs h og a = Err f -> f = Undefined.
Proof.
  unfold visit, deref. destruct (og !! a); [done|]. destruct (h !! a); [done|].
  by intros [= <-].
Qed.

Lemma init_seeds_err ys : forall seeds og f,
  init_seeds ys seeds og = Err f -> f = Undefined.
Proof.
  induction ys as [|y ys IH]; intros seeds og f Hrun; [by destruct seeds|].
  destruct seeds as [|s seeds]; [done|]. cbn [init_seeds] in Hrun.
  destruct (slot_at og y) as [[a ge]|f'] eqn:Hy; cbn in Hrun; [by eapply IH|].
  injection Hrun as <-. by eapply slot_at_err.
Qed.

Lemma scatter_err ins : forall gs og f,
  scatter ins gs og = Err f -> f = Undefined.
Proof.
  induction ins as [|it ins IH]; intros gs og f Hrun; [done|].
  destruct gs as [|g gs]; [by injection Hrun as <-|]. cbn [scatter] in Hrun.
  destruct (slot_at og it) as [[a ge]|f'] eqn:Hy; cbn in Hrun; [by eapply IH|].
  injection Hrun as <-. by eapply slot_at_err.
Qed.

Lemma take_out_err agg_fun acc e f : take_out agg_fun acc e = Err f -> f = Undefined.
Proof.
  destruct acc as [outs st]. unfold take_out.
  destruct (slot_at (output_grads st) e) as [[a entry]|f'] eqn:Hs; cbn.
  - by destruct (node (sum entry)).
  - intros [= <-]. by eapply slot_at_err.
Qed.

Lemma backward_step_OutOfRange grad_fun_map agg_fun st ptr :
  backward_step grad_fun_map agg_fun st ptr = Err OutOfRange ->
  output_grads st !! ptr = None \/
  (mirror_map st <> ∅ /\ mirror_map st !! ptr = None).
Proof.
  unfold backward_step, deref. destruct (heap st !! ptr) as [n|]; [|done]. cbn.
  destruct (is_variable n); [done|].
  destruct (output_grads st !! ptr) as [vec|]; [|by left]. cbn.
  destruct (agg_entries agg_fun ptr 0 vec (heap st)) as [[[vec' ogs] h1] evs].
  destruct (op n ≫= grad_fun_map) as [G|]; [|done]. cbn.
  case_bool_decide as Hsz; cbn.
  - destruct (G h1 (Some ptr) ogs) as [created igs]. intros Hrun.
    apply bind_Err_inv in Hrun as [Hsc%scatter_err|(og & _ & Hrun)]; done.
  - destruct (mirror_map st !! ptr) as [q|] eqn:Hq; cbn.
    + destruct (G h1 q ogs) as [created igs]. intros Hrun.
      apply bind_Err_inv in Hrun as [Hsc%scatter_err|(og & _ & Hrun)]; done.
    + intros _. right. split; [|done]. intros Hmm. apply Hsz. by rewrite Hmm, map_size_empty.
Qed.

Lemma mirror_step_dom f h mm a h' mm' :
  mirror_step f (h, mm) a = Ok (h', mm') -> dom mm' = {[a]} ∪ dom mm.
Proof.
  unfold mirror_step. intros Hrun. apply bind_Ok_inv in Hrun as (n & _ & Hrun).
  case_bool_decide.
  - apply bind_Ok_inv in Hrun as (ins & _ & Hrun).
    apply bind_Ok_inv in Hrun as (deps & _ & [= <- <-]). apply dom_insert_L.
  - injection Hrun as <- <-. apply dom_insert_L.
Qed.

Lemma mirror_fold_dom f l : forall h mm h' mm',
  foldM (mirror_step f) (h, mm) l = Ok (h', mm') -> dom mm' = list_to_set l ∪ dom mm.
Proof.
  induction l as [|a l IH]; intros h mm h' mm' Hrun.
  - injection Hrun as <- <-. set_solver.
  - cbn [foldM] in Hrun. apply bind_Ok_inv in Hrun as ([h1 mm1] & Hstep & Hrun).
    rewrite (IH _ _ _ _ Hrun), (mirror_step_dom _ _ _ _ _ _ Hstep). set_solver.
Qed.

Lemma topo_ordered_split h l1 : forall seen x l2 n,
  topo_ordered h seen (l1 ++ x :: l2) = true -> h !! x = Some n ->
  Forall (fun e => exists b, node e = Some b /\ b ∈ seen ++ l1) (inputs n) /\
  Forall (fun p => exists b, p = Some b /\ b ∈ seen ++ l1) (control_deps n).
Proof.
  induction l1 as [|a l1 IH]; intros seen x l2 n Htopo Hn.
  - cbn in Htopo. rewrite Hn in Htopo.
    apply andb_true_iff in Htopo as [[Hi Hd]%andb_true_iff _]. rewrite app_nil_r.
    rewrite forallb_forall in Hi, Hd. split; apply Forall_forall.
    + intros e He%list_elem_of_In. specialize (Hi e He).
      destruct (node e) as [b|]; [|done]. exists b. split; [done|].
      by apply bool_decide_eq_true_1 in Hi.
    + intros p Hp%list_elem_of_In. specialize (Hd p Hp).
      destruct p as [b|]; [|done]. exists b. split; [done|].
      by apply bool_decide_eq_true_1 in Hd.
  - cbn in Htopo. apply andb_true_iff in Htopo as [_ Htopo].
    destruct (IH _ _ _ _ Htopo Hn) as [Hi Hd]. rewrite <- app_assoc in Hi, Hd. by split.
Qed.

Section NoOutOfRange.

Variable num_outputs : Node -> nat.
Variable DFSVisit : list Node -> list NodeEntry -> list nat.
Variable grad_fun_map : string -> option FGradient.

Lemma Gradient_body_no_OutOfRange agg_fun mirror_fun ys seeds xs h :
  topo_ordered h [] (DFSVisit h ys) = true ->
  Gradient_body num_outputs DFSVisit grad_fun_map agg_fun mirror_fun ys seeds xs h
    <> Err OutOfRange.
Proof.
  intros Htopo Hrun. unfold Gradient_body in Hrun.
  apply bind_Err_inv in Hrun as [Hvis|(og0 & Hvis & Hrun)].
  { apply foldM_Err_inv in Hvis as (l1 & x & l2 & og & _ & _ & Hx%visit_err). done. }
  apply bind_Err_inv in Hrun as [Hchk|(u & _ & Hrun)].
  { unfold CHECK in Hchk. by case_bool_decide. }
  apply bind_Err_inv in Hrun as [Hseed%init_seeds_err|(og1 & Hseed & Hrun)]; [done|].
  destruct (visit_fold_dom num_outputs _ _ _ _ Hvis) as (Hkeys & Hin & _).
  assert (Hlt : forall a, a ∈ DFSVisit h ys -> a < length h).
  { intros a Ha. destruct (Hkeys a (Hin a Ha)) as [H|]; [|done]. by rewrite dom_empty_L in H. }
  apply bind_Err_inv in Hrun as [Hmir|([h1 mm] & Hmir & Hrun)].
  { destruct mirror_fun as [f|]; [|done].
    apply foldM_Err_inv in Hmir as (l1 & x & l2 & [h' mm'] & Hl & Hl1 & Hx).
    assert (Hxl : x ∈ DFSVisit h ys) by (rewrite Hl; set_solver).
    destruct (lookup_lt_is_Some_2 h x (Hlt x Hxl)) as [n Hn].
    rewrite Hl in Htopo. destruct (topo_ordered_split h l1 [] x l2 n Htopo Hn) as [Hi Hd].
    pose proof (mirror_fold_dom _ _ _ _ _ _ Hl1) as Hdom.
    assert (Hinv : mirror_inv h (h', mm')).
    { eapply (foldM_inv (mirror_inv h)); [| |exact Hl1].
      - split; [by exists []; rewrite app_nil_r|]. intros a q Ha. cbn in Ha.
        by rewrite lookup_empty in Ha.
      - intros acc a acc' Hacc Ha. apply mirror_step_inv; [|done]. apply Hlt.
        rewrite Hl. set_solver. }
    destruct Hinv as [[c Hc] _]. cbn in Hc.
    assert (Hn' : h' !! x = Some n) by (rewrite Hc; by apply lookup_app_l_Some).
    destruct (mirror_step_spec f h' mm' x n Hn') as [H0 H1].
    destruct (decide (f n = 0%Z)) as [Hf|Hf]; [rewrite (H0 Hf) in Hx; done|].
    destruct (H1 Hf) as [H1' _].
    assert (Hready : mirror_ready mm' n).
    { split; (eapply Forall_impl; [eassumption|]); cbn.
      - intros e (b & Hb & Hbl). exists b. split; [done|]. apply elem_of_dom.
        rewrite Hdom. set_solver.
      - intros p (b & Hb & Hbl). exists b. split; [done|]. apply elem_of_dom.
        rewrite Hdom. set_solver. }
    rewrite (proj2 (H1' _) (conj Hready eq_refl)) in Hx. done. }
  assert (Hmm : mm = ∅ \/ forall a, a ∈ DFSVisit h ys -> is_Some (mm !! a)).
  { destruct mirror_fun as [f|].
    - right. intros a Ha. apply elem_of_dom.
      rewrite (mirror_fold_dom _ _ _ _ _ _ Hmir). set_solver.
    - left. by injection Hmir as <- <-. }
  apply bind_Err_inv in Hrun as [Hback|(st1 & Hback & Hrun)].
  { apply foldM_Err_inv in Hback as (l1 & x & l2 & st' & Hl & Hl1 & Hx).
    assert (Hxl : x ∈ DFSVisit h ys).
    { apply list_elem_of_In, in_rev, list_elem_of_In. rewrite Hl. set_solver. }
    apply backward_fold_inv in Hl1 as (Hd & Hm & _). cbn in Hd, Hm.
    apply backward_step_OutOfRange in Hx as [Hx|[Hne Hx]].
    - apply not_elem_of_dom in Hx. apply Hx.
      rewrite Hd, (init_seeds_dom _ _ _ _ Hseed). by apply Hin.
    - rewrite Hm in Hne, Hx. destruct Hmm as [->|Hmm]; [done|].
      destruct (Hmm x Hxl) as [q Hq]. congruence. }
  apply bind_Err_inv in Hrun as [Hout|([outs st'] & _ & Hrun)]; [|done].
  apply foldM_Err_inv in Hout as (l1 & x & l2 & acc & _ & _ & Hx%take_out_err). done.
Qed.

(** X10: when the visit lists every node after the nodes of its inputs and
    of its control dependencies, none of them being null, no [at] lookup of
    the pass misses: the pass never ends with [std::out_of_range], whatever
    the attributes, the mirror policy and the callbacks are. *)
Theorem at_never_misses (h : list Node) (src : Graph) :
  (forall ys, GetAttr_entries src "grad_ys" = Ok ys ->
     topo_ordered h [] (DFSVisit h ys) = true) ->
  Gradient_run num_outputs DFSVisit grad_fun_map h src <> Err OutOfRange.
Proof.
  intros Htopo Hrun. unfold Gradient_run in Hrun.
  apply bind_Err_inv in Hrun as [H|(? & _ & Hrun)]; [unfold CHECK in H; by case_match|].
  apply bind_Err_inv in Hrun as [H|(? & _ & Hrun)]; [unfold CHECK in H; by case_match|].
  apply bind_Err_inv in Hrun as [H|(? & _ & Hrun)]; [unfold CHECK in H; by case_match|].
  apply bind_Err_inv in Hrun as [H|(ys & Hys & Hrun)].
  { unfold GetAttr_entries in H. by repeat case_match. }
  apply bind_Err_inv in Hrun as [H|(seeds & _ & Hrun)].
  { unfold GetAttr_entries in H. by repeat case_match. }
  apply bind_Err_inv in Hrun as [H|(xs & _ & Hrun)].
  { unfold GetAttr_entries in H. by repeat case_match. }
  apply bind_Err_inv in Hrun as [H|(agg_fun & _ & Hrun)].
  { unfold GetAttr_agg in H. by repeat case_match. }
  apply bind_Err_inv in Hrun as [H|(mirror_fun & _ & Hrun)].
  { unfold GetAttr_mirror in H. by repeat case_match. }
  by eapply Gradient_body_no_OutOfRange; [apply Htopo|].
Qed.

End NoOutOfRange.

Lemma at_never_misses_witness :
  run diamond (bundle_mirror mirror_all [out0 3] [out0 4] [out0 0]) <> Err OutOfRange.
Proof.
  apply (at_never_misses one_output DFSVisit_model registry diamond).
  intros ys Hys. vm_compute in Hys. injection Hys as <-. vm_compute. reflexivity.
Defined.

(** ** A visited slot nothing flows into *)

Lemma contributions_nil k ins : forall gs,
  k ∉ slot_key <$> ins -> contributions k ins gs = [].
Proof.
  induction ins as [|it ins IH]; intros gs Hk; [done|]. destruct gs as [|g gs]; [done|].
  rewrite fmap_cons, not_elem_of_cons in Hk. destruct Hk as [Hne Hk]. cbn.
  rewrite decide_False by done. by apply IH.
Qed.

Lemma agg_entries_lookup agg_fun a vec : forall i h vec' outs h' evs k ge,
  agg_entries agg_fun a i vec h = (vec', outs, h', evs) -> vec !! k = Some ge ->
  exists c0 c,
    h' = (h ++ c0) ++ agg_nodes (agg_fun (h ++ c0) (grads ge)) ++ c /\
    vec' !! k = Some {| sum := agg_ret (agg_fun (h ++ c0) (grads ge));
                        grads := agg_rest (agg_fun (h ++ c0) (grads ge)) |}.
Proof.
  induction vec as [|e vec IH]; intros i h vec' outs h' evs k ge Hrun Hk; [done|].
  cbn [agg_entries] in Hrun.
  destruct (agg_entries agg_fun a (S i) vec (h ++ agg_nodes (agg_fun h (grads e))))
    as [[[vec1 outs1] h1] evs1] eqn:Hrec.
  injection Hrun as <- <- <- <-. destruct k as [|k].
  - injection Hk as ->. apply agg_entries_inv in Hrec as (_ & _ & [c ->] & _).
    exists [], c. rewrite app_nil_r. split; [by rewrite <- app_assoc|done].
  - cbn in Hk. destruct (IH _ _ _ _ _ _ _ _ Hrec Hk) as (c0 & c & -> & Hv).
    exists (agg_nodes (agg_fun h (grads e)) ++ c0), c.
    rewrite !(app_assoc h (agg_nodes (agg_fun h (grads e))) c0). by split.
Qed.

Lemma slot_at_insert_other og e a ptr vec :
  node e = Some a -> a <> ptr -> slot_at (<[ptr := vec]> og) e = slot_at og e.
Proof. intros Ha Hne. unfold slot_at. rewrite Ha. by rewrite lookup_insert_ne. Qed.

Lemma visit_fold_fresh num_outputs h l : forall og og',
  foldM (visit num_outputs h) og l = Ok og' ->
  (forall a vec, og !! a = Some vec -> Forall (fun ge => ge = new_GradEntry) vec) ->
  forall a vec, og' !! a = Some vec -> Forall (fun ge => ge = new_GradEntry) vec.
Proof.
  induction l as [|p l IH]; intros og og' Hrun Hog; [by injection Hrun as <-|].
  cbn [foldM] in Hrun. apply bind_Ok_inv in Hrun as (og1 & Hv & Hrun).
  apply (IH _ _ Hrun). unfold visit in Hv. destruct (og !! p) as [v|] eqn:Hp.
  - by injection Hv as <-.
  - apply bind_Ok_inv in Hv as (n & _ & [= <-]). intros a vec.
    destruct (decide (p = a)) as [->|Hne].
    + intros Hvec. rewrite lookup_insert_eq in Hvec. injection Hvec as <-.
      apply Forall_forall. by intros ge [-> _]%elem_of_replicate.
    + intros Hvec. rewrite lookup_insert_ne in Hvec by done. by eapply Hog.
Qed.

Lemma zero_slot_heap h0 st st' x c :
  output_grads st' = output_grads st -> heap st' = heap st ++ c ->
  zero_slot h0 st x -> zero_slot h0 st' x.
Proof.
  intros Hog Hh (a & ge & Hs & Hg & Hsum). exists a, ge. rewrite Hog. split; [done|].
  split; [done|]. destruct Hsum as [Hnull|(m & Hm & Hle & Hz)]; [by left|]. right.
  exists m. split; [done|]. split; [done|]. rewrite Hh. by apply lookup_app_l_Some.
Qed.

Lemma take_out_fold_prefix agg_fun xs : forall outs st outs' st',
  foldM (take_out agg_fun) (outs, st) xs = Ok (outs', st') ->
  (exists more, outs' = outs ++ more) /\ exists c, heap st' = heap st ++ c.
Proof.
  induction xs as [|e xs IH]; intros outs st outs' st' Hrun.
  - injection Hrun as <- <-. split; [exists []|exists []]; by rewrite app_nil_r.
  - cbn [foldM] in Hrun. apply bind_Ok_inv in Hrun as ([outs1 st1] & Hstep & Hrun).
    destruct (IH _ _ _ _ Hrun) as [[more ->] [c ->]].
    pose proof (take_out_inv _ _ _ _ _ _ Hstep) as (_ & _ & [c1 ->] & _).
    unfold take_out in Hstep. apply bind_Ok_inv in Hstep as ([a entry] & _ & Hstep).
    split; [|eexists; by rewrite <- app_assoc].
    destruct (node (sum entry)); injection Hstep as <- _; eexists; by rewrite <- app_assoc.
Qed.

Lemma take_out_fold_slots agg_fun xs : forall outs st outs' st' e,
  foldM (take_out agg_fun) (outs, st) xs = Ok (outs', st') -> e ∈ xs ->
  exists r, slot_at (output_grads st) e = Ok r.
Proof.
  induction xs as [|x xs IH]; intros outs st outs' st' e Hrun He.
  - by apply elem_of_nil in He.
  - cbn [foldM] in Hrun. apply bind_Ok_inv in Hrun as ([outs1 st1] & Hstep & Hrun).
    apply elem_of_cons in He as [->|He].
    + unfold take_out in Hstep. apply bind_Ok_inv in Hstep as (r & Hs & _). by exists r.
    + apply (slot_exists_transfer _ (output_grads st1)); [|by eapply IH].
      eapply (take_out_fold_lengths agg_fun [x] outs st outs1 st1).
      cbn [foldM]. by rewrite Hstep.
Qed.

Lemma take_out_fold_zero h0 x xs : forall j outs st outs' st',
  foldM (take_out DefaultAggregateGradient) (outs, st) xs = Ok (outs', st') ->
  xs !! j = Some x -> slot_key x ∉ slot_key <$> take j xs ->
  (exists c, heap st = h0 ++ c) -> zero_slot h0 st x ->
  exists m, outs' !! (length outs + j) = Some (mkEntry (Some m) 0 0) /\
    length h0 <= m /\ heap st' !! m = Some (set_op "__zero__" Node_Create).
Proof.
  induction xs as [|e xs IH]; intros j outs st outs' st' Hrun Hj Hfirst Hh Hz; [done|].
  cbn [foldM] in Hrun. apply bind_Ok_inv in Hrun as ([outs1 st1] & Hstep & Hrun).
  destruct j as [|j].
  - injection Hj as ->. destruct Hz as (a & ge & Hs & Hg & Hsum).
    destruct (take_out_fold_prefix _ _ _ _ _ _ Hrun) as [[more ->] [c Hc]].
    unfold take_out in Hstep. rewrite Hs in Hstep. cbn in Hstep.
    destruct Hsum as [Hnull|(m & Hm & Hle & Hz)].
    + rewrite Hnull, Hg in Hstep. injection Hstep as <- <-. cbn in Hc.
      exists (length (heap st)). rewrite Nat.add_0_r, <- app_assoc, lookup_app_r by done.
      rewrite Nat.sub_diag. split; [done|]. destruct Hh as [c0 Hh]. split.
      * rewrite Hh, length_app. lia.
      * rewrite Hc, <- app_assoc, lookup_app_r by done. by rewrite Nat.sub_diag.
    + rewrite Hm in Hstep. cbn in Hstep. injection Hstep as <- <-. cbn in Hc.
      exists m. rewrite Nat.add_0_r, <- app_assoc, lookup_app_r by done.
      rewrite Nat.sub_diag. split; [by rewrite Hm|]. split; [done|].
      rewrite Hc. by apply lookup_app_l_Some.
  - cbn in Hj, Hfirst. rewrite not_elem_of_cons in Hfirst. destruct Hfirst as [Hne Hfirst].
    pose proof (take_out_inv _ _ _ _ _ _ Hstep) as (_ & _ & [c1 Hc1] & Hlen & _).
    destruct (IH j _ _ _ _ Hrun Hj Hfirst) as (m & Hm & Hle & Hzero).
    + destruct Hh as [c0 Hh]. exists (c0 ++ c1). by rewrite Hc1, Hh, <- app_assoc.
    + destruct Hz as (a & ge & Hs & Hg & Hsum). exists a, ge.
      unfold take_out in Hstep. apply bind_Ok_inv in Hstep as ([b entry] & He & Hstep).
      assert (Hog : slot_at (output_grads st1) x = Ok (a, ge)).
      { destruct (slot_at_inv _ _ _ _ He) as (Hb & _).
        destruct (node (sum entry)); injection Hstep as _ <-; cbn;
          (rewrite slot_at_set_other; [done|]); unfold slot_key in *; rewrite <- Hb;
          congruence. }
      split; [done|]. split; [done|].
      destruct Hsum as [Hnull|(m & Hm & Hle & Hzero)]; [by left|]. right.
      exists m. split; [done|]. split; [done|]. rewrite Hc1. by apply lookup_app_l_Some.
    + exists m. split; [|done]. rewrite <- Hm. f_equal. lia.
Qed.

Section ZeroGradient.

Variable num_outputs : Node -> nat.
Variable DFSVisit : list Node -> list NodeEntry -> list nat.
Variable grad_fun_map : string -> option FGradient.

Lemma backward_step_zero h0 st ptr st' x :
  backward_step grad_fun_map DefaultAggregateGradient st ptr = Ok st' ->
  (forall n, heap st !! ptr = Some n -> is_variable n = false ->
     slot_key x ∉ slot_key <$> inputs n) ->
  (exists c, heap st = h0 ++ c) -> zero_slot h0 st x -> zero_slot h0 st' x.
Proof.
  intros Hrun Hins [c0 Hh] Hz. unfold backward_step in Hrun.
  apply bind_Ok_inv in Hrun as (n & Hn%deref_Ok_inv & Hrun).
  destruct (is_variable n) eqn:Hvar; [by injection Hrun as <-|].
  specialize (Hins n Hn Hvar).
  apply bind_Ok_inv in Hrun as (vec & Hvec%map_at_Ok_inv & Hrun).
  destruct (agg_entries DefaultAggregateGradient ptr 0 vec (heap st))
    as [[[vec' ogs] h1] evs] eqn:Hagg.
  apply bind_Ok_inv in Hrun as (G & _ & Hrun).
  apply bind_Ok_inv in Hrun as (q & _ & Hrun).
  destruct (G h1 q ogs) as [created igs].
  apply bind_Ok_inv in Hrun as (og & Hsc & [= <-]).
  destruct Hz as (a & ge & Hs & Hg & Hsum).
  destruct (scatter_appends _ _ _ _ Hsc) as [_ Happ].
  pose proof (agg_entries_inv _ _ _ _ _ _ _ _ _ Hagg) as (_ & _ & [c1 Hc1] & _).
  destruct (slot_at_inv _ _ _ _ Hs) as (Hna & v & Hv & Hi).
  destruct (decide (a = ptr)) as [->|Hne].
  - assert (v = vec) as -> by congruence.
    destruct (agg_entries_lookup _ _ _ _ _ _ _ _ _ _ _ Hagg Hi) as (c2 & c3 & Hh1 & Hv').
    rewrite Hg in Hh1, Hv'. cbn in Hh1, Hv'.
    exists ptr. eexists. split.
    { cbn. erewrite Happ; [done|]. eapply slot_at_intro; [done| |exact Hv'].
      by rewrite lookup_insert_eq. }
    cbn. rewrite contributions_nil by done. split; [done|]. right.
    exists (length (heap st ++ c2)). split; [done|]. split.
    + rewrite Hh, !length_app. lia.
    + rewrite Hh1, <- !app_assoc, (app_assoc (heap st) c2), lookup_app_r by done.
      by rewrite Nat.sub_diag.
  - exists a, ge. split.
    { assert (Hs' : slot_at (<[ptr := vec']> (output_grads st)) x = Ok (a, ge))
        by (by rewrite (slot_at_insert_other _ x a)).
      cbn. rewrite (Happ _ _ _ Hs'), contributions_nil, app_nil_r by done. by destruct ge. }
    split; [done|]. destruct Hsum as [Hnull|(m & Hm & Hle & Hzero)]; [by left|]. right.
    exists m. split; [done|]. split; [done|]. cbn. rewrite Hc1, <- app_assoc.
    by apply lookup_app_l_Some.
Qed.

Lemma backward_fold_zero h0 x l : forall st st',
  foldM (backward_step grad_fun_map DefaultAggregateGradient) st l = Ok st' ->
  (forall p n, p ∈ l -> h0 !! p = Some n -> is_variable n = false ->
     slot_key x ∉ slot_key <$> inputs n) ->
  (forall p, p ∈ l -> p < length h0) ->
  (exists c, heap st = h0 ++ c) -> zero_slot h0 st x ->
  (exists c, heap st' = h0 ++ c) /\ zero_slot h0 st' x.
Proof.
  induction l as [|p l IH]; intros st st' Hrun Hins Hlt Hh Hz.
  - by injection Hrun as <-.
  - cbn [foldM] in Hrun. apply bind_Ok_inv in Hrun as (st1 & Hstep & Hrun).
    apply (IH _ _ Hrun).
    + intros p' n Hp'. apply (Hins p' n). set_solver.
    + intros p' Hp'. apply Hlt. set_solver.
    + destruct Hh as [c0 Hh]. apply backward_step_inv in Hstep as (_ & _ & [c1 Hc1] & _).
      exists (c0 ++ c1). by rewrite Hc1, Hh, <- app_assoc.
    + eapply backward_step_zero; [exact Hstep| |done|done].
      intros n Hn. destruct Hh as [c0 Hh]. rewrite Hh in Hn.
      rewrite lookup_app_l in Hn by (apply Hlt; set_solver).
      intros Hvar. apply (Hins p n); [set_solver|done|done].
Qed.

(** X11: with the default aggregator, a requested entry that is visited but
    is no entry of [grad_ys] and no input of a visited operator node gets,
    where [grad_xs] first names it, output 0 of a node the pass created with
    the operator [__zero__]: the gradient of something the outputs do not
    depend on is zero, whatever the mirror policy and the gradient functions
    are. *)
Theorem unused_request_gets_zero
    (h : list Node) (src g : Graph) (st : St) (ys xs : list NodeEntry)
    (j : nat) (x : NodeEntry) :
  Gradient_run num_outputs DFSVisit grad_fun_map h src = Ok (g, st) ->
  attrs src !! "grad_aggregate_fun" = None ->
  GetAttr_entries src "grad_ys" = Ok ys ->
  GetAttr_entries src "grad_xs" = Ok xs ->
  xs !! j = Some x ->
  slot_key x ∉ slot_key <$> take j xs ->
  slot_key x ∉ slot_key <$> ys ->
  (forall p n, p ∈ DFSVisit h ys -> h !! p = Some n -> is_variable n = false ->
     slot_key x ∉ slot_key <$> inputs n) ->
  exists m, outputs g !! j = Some (mkEntry (Some m) 0 0) /\ length h <= m /\
    heap st !! m = Some (set_op "__zero__" Node_Create).
Proof.
  intros Hrun Hagg Hys Hxs Hj Hfirst Hseed Hins.
  apply Gradient_run_inv in Hrun
    as (ys' & seeds & xs' & agg_fun & mirror_fun & Hys' & _ & Hxs' & Ha & _ & Hrun).
  rewrite Hys in Hys'. injection Hys' as <-. rewrite Hxs in Hxs'. injection Hxs' as <-.
  unfold has_attr in Ha. rewrite Hagg in Ha.
  rewrite bool_decide_eq_false_2 in Ha by (by intros [? ?]). injection Ha as <-.
  apply Gradient_body_inv in Hrun
    as (og0 & og1 & h1 & mm & st1 & outs & Hvis & _ & Hinit & Hmir & Hback & Hout & ->).
  destruct (visit_fold_dom num_outputs _ _ _ _ Hvis) as (Hkeys & Hin & _).
  assert (Hlt : forall a, a ∈ DFSVisit h ys -> a < length h).
  { intros a Ha. destruct (Hkeys a (Hin a Ha)) as [H|]; [|done]. by rewrite dom_empty_L in H. }
  assert (Hh1 : exists c, h1 = h ++ c).
  { destruct mirror_fun as [f|]; [|injection Hmir as <- <-; exists []; by rewrite app_nil_r].
    assert (Hinv : mirror_inv h (h1, mm)); [|by destruct Hinv as [Hc _]].
    eapply (foldM_inv (mirror_inv h)); [| |exact Hmir].
    - split; [by exists []; rewrite app_nil_r|]. intros a q Ha. cbn in Ha.
      by rewrite lookup_empty in Ha.
    - intros acc a acc' Hacc Ha. apply mirror_step_inv; [by apply Hlt|done]. }
  assert (Hx1 : slot_at og1 x = Ok (default 0 (node x), new_GradEntry)).
  { rewrite (init_seeds_frame _ _ _ _ _ Hinit Hseed).
    assert (Hex : exists r, slot_at og0 x = Ok r).
    { apply (slot_exists_transfer _ og1); [by rewrite (init_seeds_lengths _ _ _ _ Hinit)|].
      apply (slot_exists_transfer _ (output_grads st1)).
      - by rewrite (backward_fold_lengths _ _ _ _ _ Hback).
      - eapply take_out_fold_slots; [exact Hout|]. by eapply list_elem_of_lookup_2. }
    destruct Hex as [[a ge] Hs]. rewrite Hs.
    destruct (slot_at_inv _ _ _ _ Hs) as (Hn & vec & Hv & Hi). rewrite Hn. cbn.
    eapply (visit_fold_fresh _ _ _ _ _ Hvis) in Hv.
    - rewrite Forall_forall in Hv. by rewrite (Hv ge (list_elem_of_lookup_2 _ _ _ Hi)).
    - intros b w Hb. by rewrite lookup_empty in Hb. }
  destruct (backward_fold_zero h x _ _ _ Hback) as [Hh2 Hz].
  - intros p n Hp. apply Hins. by apply list_elem_of_In, in_rev, list_elem_of_In.
  - intros p Hp. apply Hlt. by apply list_elem_of_In, in_rev, list_elem_of_In.
  - done.
  - eexists _, _. split; [exact Hx1|]. split; [done|]. by left.
  - destruct (take_out_fold_zero h x xs j [] st1 _ st Hout Hj Hfirst Hh2 Hz)
      as (m & Hm & Hle & Hzero).
    by exists m.
Qed.

End ZeroGradient.

Lemma unused_request_gets_zero_witness :
  exists g st,
    run guarded (bundle [out0 2] [out0 3] [out0 0]) = Ok (g, st) /\
    outputs g = [out0 5] /\
    heap st !! 5 = Some (set_op "__zero__" Node_Create).
Proof.
  eassert (Hrun : run guarded (bundle [out0 2] [out0 3] [out0 0]) = Ok (_, _))
    by (vm_compute; reflexivity).
  eexists _, _. split; [exact Hrun|].
  destruct (unused_request_gets_zero one_output DFSVisit_model registry guarded
              {| outputs := []; attrs := bundle [out0 2] [out0 3] [out0 0] |}
              _ _ [out0 2] [out0 0] 0 (out0 0) Hrun) as (m & Hm & _ & Hz).
  - reflexivity.
  - reflexivity.
  - reflexivity.
  - reflexivity.
  - cbn. apply not_elem_of_nil.
  - cbn. intros H. apply list_elem_of_singleton in H. discriminate H.
  - intros p n Hp Hn Hvar.
    replace (DFSVisit_model guarded [out0 2]) with [1; 0; 2] in Hp by (vm_compute; reflexivity).
    assert (p = 2) as ->.
    { apply elem_of_cons in Hp as [->|Hp]; [by vm_compute in Hn; injection Hn as <-|].
      apply elem_of_cons in Hp as [->|Hp]; [by vm_compute in Hn; injection Hn as <-|].
      by apply list_elem_of_singleton in Hp. }
    vm_compute in Hn. injection Hn as <-. cbn.
    intros H. apply list_elem_of_singleton in H. discriminate H.
  - vm_compute in Hm. injection Hm as <-. split; [reflexivity|exact Hz].
Defined.
